(** * sample-mcp-servers: transport wrappers and tool handlers

    A shallow embedding of the three Go programs of the repository
    (moon-phase-server, quotes-server, weather-server) and of the parts of
    net/http they drive, followed by the properties of the specification
    that are settled on it.

    Conventions.
    - Go [int] is [Z]; no handler does arithmetic that could wrap.
    - Go [string] is [string]; [[]byte] is [list byte].
    - Go [float64] is [spec_float], the standard library's specification of
      IEEE 754 floats, at precision 53 and maximal exponent 1024 (binary64),
      with its round-to-nearest-even operations.
    - A Go [error] is its message ([err.Error()]).
    - Methods with a pointer receiver are state transformers.
    - [log.Printf] calls write to the process log only and are left out. *)

From Stdlib Require Import ZArith List.
From Stdlib.Strings Require Import String Ascii Byte.
From Stdlib.Floats Require Import SpecFloat.
From stdpp Require Import base tactics option list sorting gmap strings pretty.

Local Open Scope string_scope.
Local Open Scope list_scope.
Local Open Scope Z_scope.

(** Go's [len] on a slice. *)
Definition len {A} (s : list A) : Z := Z.of_nat (length s).

(** Go's [[]byte(s)] conversion. *)
Definition bytes (s : string) : list byte := list_byte_of_string s.

(** ** float64 *)

Abbreviation float64 := spec_float.

Module f64.

(** Conversion of an integer, [float64(z)], and of an integer constant. *)
Definition of_Z (z : Z) : float64 := binary_normalize 53 1024 z 0 false.

Definition add : float64 -> float64 -> float64 := SFadd 53 1024.
Definition sub : float64 -> float64 -> float64 := SFsub 53 1024.
Definition mul : float64 -> float64 -> float64 := SFmul 53 1024.
Definition div : float64 -> float64 -> float64 := SFdiv 53 1024.

(** [x < y], [x > y] and [x <= y]; all are false when an operand is NaN. *)
Definition lt (x y : float64) : bool := SFltb x y.
Definition gt (x y : float64) : bool := SFltb y x.
Definition le (x y : float64) : bool := SFleb x y.

(** The [float64] nearest to the fraction [num / den] of two integers
    below [2 ^ 53]: the value a decimal constant of that value converts
    to. *)
Definition ratio (num den : Z) : float64 := div (of_Z num) (of_Z den).

(** [int(x)]: truncation towards zero.  Go leaves the result open when the
    value does not fit [int]; the programs convert small values only. *)
Definition toInt (x : float64) : Z :=
  match x with
  | S754_finite s m e =>
    cond_Zopp s (if 0 <=? e then Z.pos m * 2 ^ e else Z.pos m / 2 ^ (- e))
  | _ => 0
  end.

(** The numbers of the format: zeros and finite floats in canonical form. *)
Definition wellformed (x : float64) : Prop :=
  match x with
  | S754_zero _ => True
  | S754_finite _ m e => bounded 53 1024 m e = true
  | _ => False
  end.

(** Magnitude, sign and value of a float; magnitude and value are scaled
    by [2 ^ scale], which makes them integers. *)
Definition mag (scale : Z) (x : float64) : Z :=
  match x with
  | S754_finite _ m e => Z.pos m * 2 ^ (e + scale)
  | _ => 0
  end.

Definition sgn (x : float64) : bool :=
  match x with
  | S754_finite s _ _ | S754_zero s | S754_infinity s => s
  | S754_nan => false
  end.

Definition value (scale : Z) (x : float64) : Z :=
  if sgn x then - mag scale x else mag scale x.

(** Whether shifting a mantissa to the right has dropped a non-zero bit. *)
Definition inexact (mrs : shr_record) : bool := shr_r mrs || shr_s mrs.

(** [x*y + z] rounded once, the fused multiply-add.  The language lets a
    compiler put it in the place of a product followed by a sum, and the
    Go compiler does so on the architectures that have the instruction
    (arm64, ppc64, riscv64, s390x; amd64 from GOAMD64=v3). *)
Definition fma (x y z : float64) : float64 :=
  match x, y with
  | S754_nan, _ | _, S754_nan => S754_nan
  | S754_infinity _, S754_zero _ | S754_zero _, S754_infinity _ => S754_nan
  | S754_infinity sx, S754_infinity sy
  | S754_infinity sx, S754_finite sy _ _
  | S754_finite sx _ _, S754_infinity sy => add (S754_infinity (xorb sx sy)) z
  | S754_zero sx, S754_zero sy
  | S754_zero sx, S754_finite sy _ _
  | S754_finite sx _ _, S754_zero sy => add (S754_zero (xorb sx sy)) z
  | S754_finite sx mx ex, S754_finite sy my ey =>
    match z with
    | S754_nan => S754_nan
    | S754_infinity _ => z
    | S754_zero _ => mul x y
    | S754_finite sz mz ez =>
      let e := Z.min (ex + ey) ez in
      binary_normalize 53 1024
        (cond_Zopp (xorb sx sy) (Z.pos (fst (shl_align (mx * my) (ex + ey) e)))
         + cond_Zopp sz (Z.pos (fst (shl_align mz ez e))))
        e false
    end
  end.

End f64.

(** ** net/http *)

Module http.

(** [http.Header]: header name to list of values.  Every name the
    programs pass to [Set] and [Get] is already in canonical MIME form, on
    which the canonicalisation done by net/http is the identity. *)
Abbreviation Header := (gmap string (list string)).

Definition Set_ (key value : string) (h : Header) : Header :=
  <[key := [value]]> h.

Definition Get (key : string) (h : Header) : string :=
  match h !! key with
  | Some (v :: _) => v
  | _ => ""
  end.

Definition StatusOK : Z := 200.

(** The server side of one HTTP exchange, as seen through the
    [http.ResponseWriter] interface: the mutable header map, the status
    line and headers committed by the first [WriteHeader] (explicit or
    implied by the first [Write]), and the body bytes handed to the
    connection so far. *)
Record ResponseWriter := mkResponseWriter {
  header : Header;
  committed : option (Z * Header);
  sent : list byte;
}.

Definition fresh : ResponseWriter :=
  {| header := ∅; committed := None; sent := [] |}.

(** [w.Header().Set(key, value)] *)
Definition SetHeader (key value : string) (w : ResponseWriter) : ResponseWriter :=
  {| header := Set_ key value (header w);
     committed := committed w;
     sent := sent w |}.

(** [checkWriteHeaderCode]: the codes that [WriteHeader] accepts. *)
Definition validCode (code : Z) : bool := (100 <=? code) && (code <=? 999).

(** The codes that [WriteHeader] sends at once as an informational
    response, on a connection that speaks HTTP/1.1 as the servers here do:
    100 to 199, except 101 Switching Protocols. *)
Definition informational (code : Z) : bool :=
  (100 <=? code) && (code <=? 199) && negb (code =? 101).

(** [WriteHeader] panics on a response that is not committed yet when the
    code is outside 100 to 999.  On a committed response the call is only
    logged as superfluous, whatever the code is. *)
Definition WriteHeaderPanics (code : Z) (w : ResponseWriter) : bool :=
  match committed w with
  | Some _ => false
  | None => negb (validCode code)
  end.

(** What [WriteHeader] leaves of the response.  Only the first call with a
    final status commits; later calls are ignored by net/http.  An
    informational code commits nothing (its interim response leaves no
    trace in this record), and a call that panics ([WriteHeaderPanics])
    does so before anything is committed. *)
Definition WriteHeader (code : Z) (w : ResponseWriter) : ResponseWriter :=
  match committed w with
  | Some _ => w
  | None =>
    if validCode code && negb (informational code) then
      {| header := header w;
         committed := Some (code, header w);
         sent := sent w |}
    else w
  end.

(** [Write] commits status 200 when nothing was committed yet, hands the
    whole slice to the connection and reports its length. *)
Definition Write (b : list byte) (w : ResponseWriter)
  : (Z * option string) * ResponseWriter :=
  let w' := WriteHeader StatusOK w in
  ((len b, None),
   {| header := header w'; committed := committed w'; sent := sent w' ++ b |}).

Definition status (w : ResponseWriter) : option Z := fst <$> committed w.
Definition sentHeader (w : ResponseWriter) : option Header := snd <$> committed w.

Record Request := mkRequest {
  Method : string;
  Path : string;          (* r.URL.Path *)
  RemoteAddr : string;
}.

(** [http.Handler]: [ServeHTTP(w, r)] acting on the writer. *)
Definition Handler := Request -> ResponseWriter -> ResponseWriter.

(** What [client.Get(url)] followed by [json.NewDecoder(resp.Body).Decode(&v)]
    can yield: a transport error (this includes the client's timeout), or
    a response with its status code and, for its body, either the decoded
    value [v] or the decoder's error. *)
Inductive GetResult (A : Type) :=
| GetFailed (err : string)
| Response (StatusCode : Z) (decoded : A + string).
Arguments GetFailed {A} err.
Arguments Response {A} StatusCode decoded.

End http.

(** ** unicode/utf8 *)

Module utf8.

Definition RuneError : Z := 65533.   (* U+FFFD *)
Definition RuneSelf : Z := 128.

(** The byte at the head of a string, as a number. *)
Definition byteOf (c : ascii) : Z := Z.of_N (N_of_ascii c).

(** The tables [first] and [acceptRanges] read together: for a leading
    byte, the length of the sequence it announces with the range accepted
    for its second byte.  Length 1 is an ASCII byte ([as]) and length 0 a
    byte that cannot lead ([xx]). *)
Definition first (s0 : Z) : Z * (Z * Z) :=
  if s0 <? 128 then (1, (0, 0))                (* as *)
  else if s0 <? 194 then (0, (0, 0))           (* xx: 80..C1 *)
  else if s0 <? 224 then (2, (128, 191))       (* s1: C2..DF *)
  else if s0 =? 224 then (3, (160, 191))       (* s2: E0 *)
  else if s0 <? 237 then (3, (128, 191))       (* s3: E1..EC *)
  else if s0 =? 237 then (3, (128, 159))       (* s4: ED *)
  else if s0 <? 240 then (3, (128, 191))       (* s3: EE, EF *)
  else if s0 =? 240 then (4, (144, 191))       (* s5: F0 *)
  else if s0 <? 244 then (4, (128, 191))       (* s6: F1..F3 *)
  else if s0 =? 244 then (4, (128, 143))       (* s7: F4 *)
  else (0, (0, 0)).                            (* xx: F5..FF *)

(** A byte outside [locb, hicb] does not continue a sequence. *)
Definition notContinuation (b : Z) : bool := (b <? 128) || (191 <? b).

(** [utf8.DecodeRuneInString]: the rune at the head of [s] and its width
    in bytes; [(RuneError, 1)] for an encoding that is not valid. *)
Definition DecodeRuneInString (s : string) : Z * Z :=
  match s with
  | EmptyString => (RuneError, 0)
  | String c0 rest =>
    let s0 := byteOf c0 in
    let '(sz, (lo, hi)) := first s0 in
    if sz =? 1 then (s0, 1)
    else if sz =? 0 then (RuneError, 1)
    else if Z.of_nat (String.length s) <? sz then (RuneError, 1)
    else
      match rest with
      | EmptyString => (RuneError, 1)
      | String c1 rest =>
        let s1 := byteOf c1 in
        if (s1 <? lo) || (hi <? s1) then (RuneError, 1)
        else if sz <=? 2 then
          (Z.lor (Z.shiftl (Z.land s0 31) 6) (Z.land s1 63), 2)
        else
          match rest with
          | EmptyString => (RuneError, 1)
          | String c2 rest =>
            let s2 := byteOf c2 in
            if notContinuation s2 then (RuneError, 1)
            else if sz <=? 3 then
              (Z.lor (Z.lor (Z.shiftl (Z.land s0 15) 12) (Z.shiftl (Z.land s1 63) 6))
                     (Z.land s2 63), 3)
            else
              match rest with
              | EmptyString => (RuneError, 1)
              | String c3 _ =>
                let s3 := byteOf c3 in
                if notContinuation s3 then (RuneError, 1)
                else
                  (Z.lor (Z.lor (Z.lor (Z.shiftl (Z.land s0 7) 18)
                                       (Z.shiftl (Z.land s1 63) 12))
                                (Z.shiftl (Z.land s2 63) 6))
                         (Z.land s3 63), 4)
              end
          end
      end
  end.

End utf8.

(** ** encoding/json, for [map[string]string] *)

Module json.

Definition quote : string := String "034"%char "".
Definition backslash : string := String "092"%char "".

Definition hexDigit (n : N) : ascii :=
  ascii_of_N (if (n <? 10)%N then 48 + n else 87 + n).

(** One ASCII byte of a string value as the encoder writes it (HTML
    escaping is on by default): quote and backslash get a backslash, the
    control characters their short or [\u00XX] form, and [<], [>], [&] the
    [\u00XX] form; every other byte below 128 is copied. *)
Definition escape (c : ascii) : string :=
  let n := N_of_ascii c in
  if (n =? 34)%N || (n =? 92)%N then backslash +:+ String c ""
  else if (n =? 8)%N then backslash +:+ "b"
  else if (n =? 12)%N then backslash +:+ "f"
  else if (n =? 10)%N then backslash +:+ "n"
  else if (n =? 13)%N then backslash +:+ "r"
  else if (n =? 9)%N then backslash +:+ "t"
  else if (n <? 32)%N || (n =? 60)%N || (n =? 62)%N || (n =? 38)%N then
    backslash +:+ "u00" +:+ String (hexDigit (n / 16)) (String (hexDigit (n mod 16)) "")
  else String c "".

(** The loop of the encoder's [appendString] from one position on.  At a
    byte below [utf8.RuneSelf] it writes [escape]; otherwise it decodes a
    rune: an invalid encoding is replaced, one byte at a time, by
    [\ufffd]; U+2028 and U+2029 are written as [\u2028] and [\u2029]; any
    other rune is copied.  [skip] counts the bytes still to pass of the
    rune decoded last, which are copied when [copy] is set and dropped
    otherwise. *)
Fixpoint escapeFrom (skip : nat) (copy : bool) (s : string) : string :=
  match s with
  | EmptyString => ""
  | String c rest =>
    match skip with
    | Datatypes.S skip => (if copy then String c "" else "") +:+ escapeFrom skip copy rest
    | O =>
      if utf8.byteOf c <? utf8.RuneSelf then escape c +:+ escapeFrom 0 true rest
      else
        let '(r, size) := utf8.DecodeRuneInString s in
        if (r =? utf8.RuneError) && (size =? 1) then
          backslash +:+ "ufffd" +:+ escapeFrom 0 true rest
        else if (r =? 8232) || (r =? 8233) then
          backslash +:+ "u202" +:+ String (hexDigit (Z.to_N (Z.land r 15))) ""
                    +:+ escapeFrom (Z.to_nat (size - 1)) false rest
        else
          String c "" +:+ escapeFrom (Z.to_nat (size - 1)) true rest
    end
  end.

Definition escapeString (s : string) : string := escapeFrom 0 true s.

Definition encodeString (s : string) : string := quote +:+ escapeString s +:+ quote.

(** Order in which the encoder emits the entries of a map: by key. *)
Definition keyLe (a b : string * string) : Prop := String.leb a.1 b.1 = true.

#[global] Instance keyLe_dec : RelDecision keyLe :=
  fun a b => decide (String.leb a.1 b.1 = true).

Definition sortedEntries (m : gmap string string) : list (string * string) :=
  merge_sort keyLe (map_to_list m).

Fixpoint encodeEntries (l : list (string * string)) : string :=
  match l with
  | [] => ""
  | [(k, v)] => encodeString k +:+ ":" +:+ encodeString v
  | (k, v) :: rest => encodeString k +:+ ":" +:+ encodeString v +:+ "," +:+ encodeEntries rest
  end.

Definition Marshal (m : gmap string string) : string :=
  "{" +:+ encodeEntries (sortedEntries m) +:+ "}".

(** [json.NewEncoder(w).Encode(m)]: the document, a newline, one [Write]. *)
Definition Encode (m : gmap string string) (w : http.ResponseWriter) : http.ResponseWriter :=
  snd (http.Write (bytes (Marshal m +:+ String "010"%char "")) w).

End json.

(** ** The HTTP surface shared by the three servers

    [corsMiddleware], the [/health] handler, the catch-all handler and the
    routing table are written out once: the three [main] packages carry the
    same text and differ only in the server name and default port. *)

Definition corsMiddleware (next : http.Handler) : http.Handler :=
  fun r w =>
    let w := http.SetHeader "Access-Control-Allow-Origin" "*" w in
    let w := http.SetHeader "Access-Control-Allow-Methods" "GET, POST, OPTIONS" w in
    let w := http.SetHeader "Access-Control-Allow-Headers" "Content-Type, Authorization" w in
    let w := http.SetHeader "Access-Control-Expose-Headers"
                            "Mcp-Session-Id, Content-Type, Cache-Control" w in
    if bool_decide (http.Method r = "OPTIONS") then
      http.WriteHeader http.StatusOK w
    else
      next r w.

(** [mcp.Implementation] *)
Record Implementation := mkImplementation {
  Name : string;
  Version : string;
}.

(** The document served on [/health]. *)
Definition healthDocument (server version : string) : gmap string string :=
  {[ "status" := "ok";
     "server" := server;
     "version" := version;
     "mcp_endpoint" := "/mcp" ]}.

Definition healthHandler (corsFlag : bool) (server version : string) : http.Handler :=
  fun r w =>
    let w :=
      if corsFlag then
        let w := http.SetHeader "Access-Control-Allow-Origin" "*" w in
        let w := http.SetHeader "Access-Control-Allow-Methods" "GET, POST, OPTIONS" w in
        http.SetHeader "Access-Control-Allow-Headers" "Content-Type, Authorization" w
      else w in
    let w := http.SetHeader "Content-Type" "application/json" w in
    json.Encode (healthDocument server version) w.

Definition notFoundHandler : http.Handler :=
  fun r w =>
    let w := http.SetHeader "Content-Type" "application/json" w in
    let w := http.WriteHeader 404 w in
    json.Encode {[ "error" := "Not Found";
                   "message" := "Path " +:+ http.Path r +:+ " not found. Try /health or /mcp" ]} w.

(** The routes registered on the [http.ServeMux] in [main], for a request
    whose path is already clean.  [handler] is the SDK's StreamableHTTP
    handler, which closes over the MCP server and its tools. *)
Definition mux (corsFlag : bool) (server version : string) (handler : http.Handler)
  : http.Handler :=
  fun r w =>
    if bool_decide (http.Path r = "/mcp") then
      (if corsFlag then corsMiddleware handler else handler) r w
    else if bool_decide (http.Path r = "/health") then
      healthHandler corsFlag server version r w
    else
      notFoundHandler r w.

(** ** time *)

Module time.

(** [time.Time], as far as the handlers can tell: the instant, counted in
    nanoseconds since January 1, 1970 UTC.  The location of a time matters
    to [Format] only, which is given the offset of the location instead.
    The calendar is the proleptic Gregorian one. *)
Abbreviation Time := Z.

Definition Second : Z := 1000000000.
Definition Day : Z := 86400 * Second.

Definition isLeap (year : Z) : bool :=
  (year mod 4 =? 0) && (negb (year mod 100 =? 0) || (year mod 400 =? 0)).

Definition daysIn (month year : Z) : Z :=
  if month =? 2 then (if isLeap year then 29 else 28)
  else if (month =? 4) || (month =? 6) || (month =? 9) || (month =? 11) then 30
  else 31.

(** The number of days from January 1, 1970 to a day of the calendar, the
    month being from 1 to 12.  Years are counted from March, in eras of 400
    years, which have 146097 days each. *)
Definition daysFromCivil (year month day : Z) : Z :=
  let y := if month <=? 2 then year - 1 else year in
  let era := y / 400 in
  let yoe := y - era * 400 in
  let mp := if month >? 2 then month - 3 else month + 9 in
  let doy := (153 * mp + 2) / 5 + day - 1 in
  let doe := yoe * 365 + yoe / 4 - yoe / 100 + doy in
  era * 146097 + doe - 719468.

(** Year, month and day of the day that is [z] days from January 1, 1970. *)
Definition civilFromDays (z : Z) : Z * Z * Z :=
  let z := z + 719468 in
  let era := z / 146097 in
  let doe := z - era * 146097 in
  let yoe := (doe - doe / 1460 + doe / 36524 - doe / 146096) / 365 in
  let y := yoe + era * 400 in
  let doy := doe - (365 * yoe + yoe / 4 - yoe / 100) in
  let mp := (5 * doy + 2) / 153 in
  let d := doy - (153 * mp + 2) / 5 + 1 in
  let m := if mp <? 10 then mp + 3 else mp - 9 in
  (if m <=? 2 then y + 1 else y, m, d).

(** [time.Date(year, month, day, hour, min, sec, nsec, time.UTC)].  The
    values may be outside their usual ranges: a month outside 1 to 12
    carries into the year, and the other values add up. *)
Definition Date (year month day hour min sec nsec : Z) : Time :=
  let m := month - 1 in
  let year := year + m / 12 in
  let month := m mod 12 + 1 in
  (daysFromCivil year month 1 + (day - 1)) * Day
  + hour * (3600 * Second) + min * (60 * Second) + sec * Second + nsec.

(** [t.AddDate(years, months, days)] for a time in UTC: the date of [t]
    with the three numbers added, normalized as [Date] does, at the time of
    day of [t]. *)
Definition AddDate (years months days : Z) (t : Time) : Time :=
  let '(year, month, day) := civilFromDays (t / Day) in
  Date (year + years) (month + months) (day + days) 0 0 0 (t mod Day).

(** [t.Before(u)] *)
Definition Before (t u : Time) : bool := t <? u.

Definition digitChar (d : Z) : ascii := ascii_of_N (48 + Z.to_N d).

(** The [width] low-order decimal digits of [u], in front of [tail]. *)
Fixpoint lowDigits (width : nat) (u : Z) (tail : string) : string :=
  match width with
  | O => tail
  | Datatypes.S w => lowDigits w (u / 10) (String (digitChar (u mod 10)) tail)
  end.

(** [appendInt]: the decimal form of [x], padded with zeros to [width]
    digits, after the sign. *)
Definition appendInt (x : Z) (width : nat) : string :=
  let u := Z.abs x in
  (if x <? 0 then "-" else "")
  +:+ (if u <? 10 ^ Z.of_nat width then "" else pretty (u / 10 ^ Z.of_nat width))
  +:+ lowDigits width u "".

(** [t.Format("2006-01-02")], where the location of [t] is [offset] seconds
    east of UTC at this instant: 0 for a time in UTC. *)
Definition Format (offset : Z) (t : Time) : string :=
  let '(year, month, day) := civilFromDays ((t + offset * Second) / Day) in
  appendInt year 4 +:+ "-" +:+ appendInt month 2 +:+ "-" +:+ appendInt day 2.

Definition digitVal (c : ascii) : option Z :=
  let n := Z.of_N (N_of_ascii c) in
  if (48 <=? n) && (n <=? 57) then Some (n - 48) else None.

(** [time.Parse("2006-01-02", value)].  The value must be four digits, a
    hyphen, two digits, a hyphen and two digits, with nothing after them,
    the month from 1 to 12 and the day a day of that month; the result is
    then midnight UTC of that day.  For any other value the result is a
    [*time.ParseError]; the wording of its text is left open, [errorText]
    stands for it. *)
Definition Parse (errorText : string → string) (value : string) : Time + string :=
  match list_ascii_of_string value with
  | [y1; y2; y3; y4; h1; m1; m2; h2; d1; d2] =>
    match digitVal y1, digitVal y2, digitVal y3, digitVal y4,
          digitVal m1, digitVal m2, digitVal d1, digitVal d2 with
    | Some a, Some b, Some c, Some d, Some e, Some f, Some g, Some h =>
      let year := 1000 * a + 100 * b + 10 * c + d in
      let month := 10 * e + f in
      let day := 10 * g + h in
      if Ascii.eqb h1 "-" && Ascii.eqb h2 "-"
         && (1 <=? month) && (month <=? 12)
         && (1 <=? day) && (day <=? daysIn month year)
      then inl (Date year month day 0 0 0 0)
      else inr (errorText value)
    | _, _, _, _, _, _, _, _ => inr (errorText value)
    end
  | _ => inr (errorText value)
  end.

End time.

(** ** moon-phase-server *)

Module moon.

Definition implementation : Implementation :=
  {| Name := "moon-phase-server"; Version := "1.0.0" |}.

Definition serve (corsFlag : bool) : http.Handler -> http.Handler :=
  mux corsFlag "moon-phase-server" "1.0.0".

(** The diagnostic response wrapper:
    [type responseWriter struct { http.ResponseWriter; statusCode int;
    headers http.Header; body []byte; isStreaming bool }].  The [nil] slice
    and map are [None]. *)
Record responseWriter := mkResponseWriter {
  ResponseWriter : http.ResponseWriter;
  statusCode : Z;
  headers : option http.Header;
  body : option (list byte);
  isStreaming : bool;
}.

(** [len(rw.body)], which is 0 on the [nil] slice. *)
Definition bodyLen (rw : responseWriter) : Z := len (default [] (body rw)).

(** The wrapper around [w] with every other field at its zero value. *)
Definition wrap (w : http.ResponseWriter) : responseWriter :=
  {| ResponseWriter := w; statusCode := 0; headers := None;
     body := None; isStreaming := false |}.

(** [WriteHeader] assigns the wrapper's fields, from the header map as it
    stands, and then calls the embedded writer's [WriteHeader]. *)
Definition WriteHeader (code : Z) (rw : responseWriter) : responseWriter :=
  let contentType := http.Get "Content-Type" (http.header (ResponseWriter rw)) in
  {| ResponseWriter := http.WriteHeader code (ResponseWriter rw);
     statusCode := code;
     headers := Some (http.header (ResponseWriter rw));
     body := body rw;
     isStreaming := bool_decide (contentType = "text/event-stream") |}.

Definition Write (b : list byte) (rw : responseWriter)
  : (Z * option string) * responseWriter :=
  let body' :=
    if negb (isStreaming rw) then
      let body0 := match body rw with None => [] | Some s => s end in
      if len body0 <? 1024 then
        let remaining := 1024 - len body0 in
        if len b >? remaining
        then Some (body0 ++ take (Z.to_nat remaining) b)
        else Some (body0 ++ b)
      else Some body0
    else body rw in
  let '(ret, w') := http.Write b (ResponseWriter rw) in
  (ret, {| ResponseWriter := w'; statusCode := statusCode rw;
           headers := headers rw; body := body'; isStreaming := isStreaming rw |}).

(** A run of [Write] calls, one per chunk. *)
Fixpoint Writes (chunks : list (list byte)) (rw : responseWriter) : responseWriter :=
  match chunks with
  | [] => rw
  | b :: rest => Writes rest (snd (Write b rw))
  end.

(** [rw.Header().Set(key, value)]: [Header] is promoted from the embedded
    writer, so the wrapper's own fields are left as they are. *)
Definition SetHeader (key value : string) (rw : responseWriter) : responseWriter :=
  {| ResponseWriter := http.SetHeader key value (ResponseWriter rw);
     statusCode := statusCode rw;
     headers := headers rw;
     body := body rw;
     isStreaming := isStreaming rw |}.

(** [WriteHeader] panics when the embedded writer's does, after the
    wrapper's fields have been assigned. *)
Definition WriteHeaderPanics (code : Z) (rw : responseWriter) : bool :=
  http.WriteHeaderPanics code (ResponseWriter rw).

(** Any change of the header map reached through [rw.Header()]: [Set],
    [Add], [Del] or an assignment. *)
Definition ChangeHeader (change : http.Header -> http.Header) (rw : responseWriter)
  : responseWriter :=
  {| ResponseWriter := {| http.header := change (http.header (ResponseWriter rw));
                          http.committed := http.committed (ResponseWriter rw);
                          http.sent := http.sent (ResponseWriter rw) |};
     statusCode := statusCode rw;
     headers := headers rw;
     body := body rw;
     isStreaming := isStreaming rw |}.

(** The calls that a handler makes on the wrapper it is given: the three
    methods of [http.ResponseWriter]. *)
Inductive call :=
| CallHeader (change : http.Header -> http.Header)
| CallWriteHeader (code : Z)
| CallWrite (b : list byte).

Definition step (rw : responseWriter) (c : call) : responseWriter :=
  match c with
  | CallHeader change => ChangeHeader change rw
  | CallWriteHeader code => WriteHeader code rw
  | CallWrite b => snd (Write b rw)
  end.

(** A handler's calls, in order. *)
Definition run (calls : list call) (rw : responseWriter) : responseWriter :=
  foldl step rw calls.

(** The bytes that the calls pass to [Write], in order. *)
Definition written (calls : list call) : list byte :=
  concat (omap (fun c => match c with CallWrite b => Some b | _ => None end) calls).

(** [time.Time]: an instant, in nanoseconds since the Unix epoch. *)
Abbreviation Time := Z.

(** [time.Duration]: nanoseconds in an [int64]; [Sub] saturates. *)
Definition minDuration : Z := - 2 ^ 63.
Definition maxDuration : Z := 2 ^ 63 - 1.
Definition Hour : Z := 3600000000000.

(** [t.Sub(u)] *)
Definition Sub (t u : Time) : Z := Z.max minDuration (Z.min maxDuration (t - u)).

(** [d.Hours()]: integer division truncates towards zero. *)
Definition Hours (d : Z) : float64 :=
  let hour := Z.quot d Hour in
  let nsec := Z.rem d Hour in
  f64.add (f64.of_Z hour) (f64.div (f64.of_Z nsec) (f64.of_Z (60 * 60 * 1000000000))).

(** Known new moon: [time.Date(2000, 1, 6, 18, 14, 0, 0, time.UTC)]. *)
Definition knownNewMoon : Time := 947182440 * 1000000000.

(** [const synodicMonth = 29.53058867] *)
Definition synodicMonth : float64 := f64.ratio 2953058867 100000000.

(** The current position in the lunar cycle, as [calculateMoonPhase] and
    [daysUntilFullMoon] both compute it before anything else. *)
Definition cyclePosition (t : Time) : float64 :=
  let daysSince := f64.div (Hours (Sub t knownNewMoon)) (f64.of_Z 24) in
  let cyclePosition := f64.div daysSince synodicMonth in
  (* Get fractional part *)
  let cyclePosition := f64.sub cyclePosition (f64.of_Z (f64.toInt cyclePosition)) in
  if f64.lt cyclePosition (f64.of_Z 0) then f64.add cyclePosition (f64.of_Z 1)
  else cyclePosition.

(** [calculateMoonPhase]: phase name, illumination in percent, emoji.  The
    value first given to [illumination] in the source is overwritten on
    both branches and is left out.  The thresholds [0.0625] to [0.9375] are
    the sixteenths [1/16] to [15/16]; the emoji are spelled as in the
    source file. *)
Definition calculateMoonPhase (t : Time) : string * float64 * string :=
  let cyclePosition := cyclePosition t in
  let illumination :=
    if f64.lt cyclePosition (f64.ratio 1 2) then f64.mul cyclePosition (f64.of_Z 2)
    else f64.mul (f64.sub (f64.of_Z 1) cyclePosition) (f64.of_Z 2) in
  let '(phase, emoji) :=
    if f64.lt cyclePosition (f64.ratio 1 16) then ("New Moon", "ðŸŒ‘")
    else if f64.lt cyclePosition (f64.ratio 3 16) then ("Waxing Crescent", "ðŸŒ’")
    else if f64.lt cyclePosition (f64.ratio 5 16) then ("First Quarter", "ðŸŒ“")
    else if f64.lt cyclePosition (f64.ratio 7 16) then ("Waxing Gibbous", "ðŸŒ”")
    else if f64.lt cyclePosition (f64.ratio 9 16) then ("Full Moon", "ðŸŒ•")
    else if f64.lt cyclePosition (f64.ratio 11 16) then ("Waning Gibbous", "ðŸŒ–")
    else if f64.lt cyclePosition (f64.ratio 13 16) then ("Last Quarter", "ðŸŒ—")
    else if f64.lt cyclePosition (f64.ratio 15 16) then ("Waning Crescent", "ðŸŒ˜")
    else ("New Moon", "ðŸŒ‘") in
  (phase, f64.mul illumination (f64.of_Z 100), emoji).

(** The eight phases, each with its emoji. *)
Definition phases : list (string * string) :=
  [ ("New Moon", "ðŸŒ‘");
    ("Waxing Crescent", "ðŸŒ’");
    ("First Quarter", "ðŸŒ“");
    ("Waxing Gibbous", "ðŸŒ”");
    ("Full Moon", "ðŸŒ•");
    ("Waning Gibbous", "ðŸŒ–");
    ("Last Quarter", "ðŸŒ—");
    ("Waning Crescent", "ðŸŒ˜") ].

(** [daysUntilFullMoon].  In the branch that adds [synodicMonth], the
    product and the sum are one [x*y + z]; [fused] tells whether the build
    at hand computes it as a fused multiply-add. *)
Definition daysUntilFullMoon (fused : bool) (t : Time) : Z :=
  let cyclePosition := cyclePosition t in
  (* Full moon is at position 0.5 *)
  let daysToFull := f64.mul (f64.sub (f64.ratio 1 2) cyclePosition) synodicMonth in
  let daysToFull :=
    if f64.lt daysToFull (f64.of_Z 0) then
      if fused
      then f64.fma (f64.sub (f64.ratio 1 2) cyclePosition) synodicMonth synodicMonth
      else f64.add daysToFull synodicMonth
    else daysToFull in
  f64.toInt daysToFull.

End moon.

(** ** Handler results *)

(** A Go [error]; [None] is [nil]. *)
Abbreviation error := (option string).

(** What a tool handler hands back to the SDK: the output value with the
    error (the [*mcp.CallToolResult] component is [nil] on every path), or
    a run-time panic. *)
Inductive ret (A : Type) :=
| Return (out : A) (err : error)
| Panic (msg : string).
Arguments Return {A} out err.
Arguments Panic {A} msg.

Module strings.

(** [strings.Contains(s, substr)]: [substr] occurs in [s], byte for byte. *)
Fixpoint Contains (s substr : string) : bool :=
  if String.prefix substr s then true
  else match s with
       | EmptyString => false
       | String _ rest => Contains rest substr
       end.

(** [strings.ToLower] on ASCII text.  The handlers below take the
    lower-casing function as a parameter, so that what is proved of them
    holds for the Unicode-aware function of the Go library as well; this
    instance is the one to evaluate them with on ASCII input. *)
Definition asciiLower (c : ascii) : ascii :=
  let n := N_of_ascii c in
  if (65 <=? n)%N && (n <=? 90)%N then ascii_of_N (n + 32) else c.

Fixpoint ToLowerASCII (s : string) : string :=
  match s with
  | EmptyString => ""
  | String c rest => String (asciiLower c) (ToLowerASCII rest)
  end.

End strings.

(** The paths that [http.ServeMux] hands to a registered handler as they
    are: those that [path.Clean] leaves unchanged, a final slash apart.
    Such a path starts with a slash and has no empty element, no [.] and
    no [..] element.  A request for any other path is answered by the mux
    itself, with a redirect to the cleaned path. *)
Definition cleanPath (p : string) : bool :=
  String.prefix "/" p
  && negb (strings.Contains p "//")
  && negb (strings.Contains (p +:+ "/") "/./")
  && negb (strings.Contains (p +:+ "/") "/../").

Module rand.

(** [rand.Intn(n)]: panics ([None]) when [n <= 0], otherwise a value of
    [0, n) fixed by the generator's next raw draw; every value of the range
    arises from some draw. *)
Definition Intn (draw n : Z) : option Z :=
  if n <=? 0 then None else Some (draw mod n).

End rand.

(** ** moon-phase-server: the tools *)

Module moon_tools.

Record GetMoonPhaseInput := mkGetMoonPhaseInput {
  Date : string;
}.

Module MoonPhaseOutput.
Record t := mk {
  Date : string;
  Phase : string;
  Illumination : float64;
  DaysUntilFull : Z;
  Emoji : string;
}.
End MoonPhaseOutput.

Record GetMoonCalendarInput := mkGetMoonCalendarInput {
  Month : Z;
  Year : Z;
}.

Module MoonCalendarOutput.
Record t := mk {
  Month : Z;
  Year : Z;
  NewMoon : string;
  FirstQtr : string;
  FullMoon : string;
  LastQtr : string;
}.
End MoonCalendarOutput.

(** The zero values [MoonPhaseOutput{}] and [MoonCalendarOutput{}]. *)
Definition zeroMoonPhaseOutput : MoonPhaseOutput.t :=
  MoonPhaseOutput.mk "" "" (S754_zero false) 0 "".
Definition zeroMoonCalendarOutput : MoonCalendarOutput.t :=
  MoonCalendarOutput.mk 0 0 "" "" "" "".

(** [getMoonPhase].  [now] is what [time.Now()] returns and [local] the
    offset of the local zone at that instant, in seconds; a parsed date is
    in UTC.  [fused] is passed on to [daysUntilFullMoon] and [errorText] to
    [time.Parse]. *)
Definition getMoonPhase (fused : bool) (now : time.Time) (local : Z)
    (errorText : string → string) (input : GetMoonPhaseInput)
  : ret MoonPhaseOutput.t :=
  let parsed : time.Time * Z + string :=
    if bool_decide (Date input = "") then inl (now, local)
    else
      match time.Parse errorText (Date input) with
      | inl t => inl (t, 0)
      | inr err => inr ("invalid date format, use YYYY-MM-DD: " +:+ err)
      end in
  match parsed with
  | inr err => Return zeroMoonPhaseOutput (Some err)
  | inl (t, offset) =>
    let '(phase, illumination, emoji) := moon.calculateMoonPhase t in
    let daysToFull := moon.daysUntilFullMoon fused t in
    Return {| MoonPhaseOutput.Date := time.Format offset t;
              MoonPhaseOutput.Phase := phase;
              MoonPhaseOutput.Illumination := illumination;
              MoonPhaseOutput.DaysUntilFull := daysToFull;
              MoonPhaseOutput.Emoji := emoji |} None
  end.

(** The dates found so far by the loop of [getMoonCalendar]:
    [newMoon, firstQtr, fullMoon, lastQtr]. *)
Record found := mkFound {
  newMoon : string;
  firstQtr : string;
  fullMoon : string;
  lastQtr : string;
}.

(** One turn of the loop, for the day [d]. *)
Definition calendarDay (d : time.Time) (f : found) : found :=
  let phase := (moon.calculateMoonPhase d).1.1 in
  let prevPhase := (moon.calculateMoonPhase (time.AddDate 0 0 (-1) d)).1.1 in
  if bool_decide (phase ≠ prevPhase) then
    let dateStr := time.Format 0 d in
    if bool_decide (phase = "New Moon") then
      if bool_decide (newMoon f = "")
      then mkFound dateStr (firstQtr f) (fullMoon f) (lastQtr f) else f
    else if bool_decide (phase = "First Quarter") then
      if bool_decide (firstQtr f = "")
      then mkFound (newMoon f) dateStr (fullMoon f) (lastQtr f) else f
    else if bool_decide (phase = "Full Moon") then
      if bool_decide (fullMoon f = "")
      then mkFound (newMoon f) (firstQtr f) dateStr (lastQtr f) else f
    else if bool_decide (phase = "Last Quarter") then
      if bool_decide (lastQtr f = "")
      then mkFound (newMoon f) (firstQtr f) (fullMoon f) dateStr else f
    else f
  else f.

(** [for d := startDate; d.Before(endDate); d = d.AddDate(0, 0, 1)], with
    at most [fuel] turns; [None] when they do not suffice. *)
Fixpoint calendarLoop (fuel : nat) (d endDate : time.Time) (f : found) : option found :=
  match fuel with
  | O => None
  | Datatypes.S fuel =>
    if time.Before d endDate
    then calendarLoop fuel (time.AddDate 0 0 1 d) endDate (calendarDay d f)
    else Some f
  end.

Definition getMoonCalendar (fuel : nat) (input : GetMoonCalendarInput)
  : option (ret MoonCalendarOutput.t) :=
  if (Month input <? 1) || (Month input >? 12) then
    Some (Return zeroMoonCalendarOutput (Some "month must be between 1 and 12"))
  else if (Year input <? 1900) || (Year input >? 2100) then
    Some (Return zeroMoonCalendarOutput (Some "year must be between 1900 and 2100"))
  else
    (* Find key moon phases in the given month *)
    let startDate := time.Date (Year input) (Month input) 1 0 0 0 0 in
    let endDate := time.AddDate 0 1 0 startDate in
    match calendarLoop fuel startDate endDate (mkFound "" "" "" "") with
    | None => None
    | Some f =>
      Some (Return {| MoonCalendarOutput.Month := Month input;
                      MoonCalendarOutput.Year := Year input;
                      MoonCalendarOutput.NewMoon := newMoon f;
                      MoonCalendarOutput.FirstQtr := firstQtr f;
                      MoonCalendarOutput.FullMoon := fullMoon f;
                      MoonCalendarOutput.LastQtr := lastQtr f |} None)
    end.

End moon_tools.

(** ** quotes-server *)

Module quotes.

Record Quote := mkQuote {
  Text : string;
  Author : string;
  Category : string;
}.

(** Quote database (fallback when the API is unavailable). *)
Definition quotes : list Quote := [
  mkQuote "The only way to do great work is to love what you do." "Steve Jobs" "motivation";
  mkQuote "Innovation distinguishes between a leader and a follower." "Steve Jobs" "innovation";
  mkQuote "Stay hungry, stay foolish." "Steve Jobs" "motivation";
  mkQuote "Life is what happens when you're busy making other plans." "John Lennon" "life";
  mkQuote "The future belongs to those who believe in the beauty of their dreams." "Eleanor Roosevelt" "motivation";
  mkQuote "It is during our darkest moments that we must focus to see the light." "Aristotle" "wisdom";
  mkQuote "The only thing we have to fear is fear itself." "Franklin D. Roosevelt" "courage";
  mkQuote "In the middle of difficulty lies opportunity." "Albert Einstein" "wisdom";
  mkQuote "Imagination is more important than knowledge." "Albert Einstein" "wisdom";
  mkQuote "Be the change you wish to see in the world." "Mahatma Gandhi" "motivation";
  mkQuote "An eye for an eye only ends up making the whole world blind." "Mahatma Gandhi" "wisdom";
  mkQuote "The best time to plant a tree was 20 years ago. The second best time is now." "Chinese Proverb" "wisdom";
  mkQuote "Talk is cheap. Show me the code." "Linus Torvalds" "programming";
  mkQuote "First, solve the problem. Then, write the code." "John Johnson" "programming";
  mkQuote "Code is like humor. When you have to explain it, it's bad." "Cory House" "programming";
  mkQuote "Simplicity is the soul of efficiency." "Austin Freeman" "programming";
  mkQuote "Any fool can write code that a computer can understand. Good programmers write code that humans can understand." "Martin Fowler" "programming";
  mkQuote "The most damaging phrase in the language is: We've always done it this way." "Grace Hopper" "innovation"
].

Module GetRandomQuoteInput.
Record t := mk { Category : string }.
End GetRandomQuoteInput.

Record SearchQuotesInput := mkSearchQuotesInput {
  Query : string;
  Limit : Z;
}.

(** [Quotes] holds the elements of the slice; the [nil] slice and the empty
    one are both [[]]. *)
Record SearchQuotesOutput := mkSearchQuotesOutput {
  Quotes : list Quote;
  Total : Z;
}.

(** The zero values [Quote{}] and [SearchQuotesOutput{}]. *)
Definition zeroQuote : Quote := mkQuote "" "" "".
Definition zeroSearchQuotesOutput : SearchQuotesOutput := mkSearchQuotesOutput [] 0.

(** One element of the ZenQuotes reply: [struct { Q string; A string }]. *)
Record apiQuote := mkApiQuote {
  Q : string;
  A : string;
}.

(** [fetchQuoteFromAPI], on what the GET of the fixed ZenQuotes URL came
    back with. *)
Definition fetchQuoteFromAPI (reply : http.GetResult (list apiQuote)) : Quote * error :=
  match reply with
  | http.GetFailed err => (zeroQuote, Some err)
  | http.Response StatusCode decoded =>
    if negb (StatusCode =? http.StatusOK) then
      (zeroQuote, Some ("API returned status " +:+ pretty StatusCode))
    else
      match decoded with
      | inr err => (zeroQuote, Some err)
      | inl [] => (zeroQuote, Some "empty response from API")
      | inl (first :: _) => ({| Text := Q first; Author := A first; Category := "" |}, None)
      end
  end.

Section Handlers.

(** [strings.ToLower] *)
Variable ToLower : string -> string.

Definition getRandomQuote (reply : http.GetResult (list apiQuote)) (draw : Z)
    (input : GetRandomQuoteInput.t) : ret Quote :=
  let '(quote, err) := fetchQuoteFromAPI reply in
  if bool_decide (err = None) && bool_decide (GetRandomQuoteInput.Category input = "") then
    Return quote None
  else
    (* Fall back to local quotes *)
    let filtered : string + list Quote :=
      if bool_decide (GetRandomQuoteInput.Category input ≠ "") then
        let category := ToLower (GetRandomQuoteInput.Category input) in
        let filteredQuotes := filter (λ q, ToLower (Category q) = category) quotes in
        if len filteredQuotes =? 0 then
          inl ("no quotes found for category: " +:+ GetRandomQuoteInput.Category input)
        else inr filteredQuotes
      else inr quotes in
    match filtered with
    | inl msg => Return zeroQuote (Some msg)
    | inr filteredQuotes =>
      match rand.Intn draw (len filteredQuotes) with
      | None => Panic "invalid argument to Intn"
      | Some idx =>
        match filteredQuotes !! Z.to_nat idx with
        | Some selectedQuote => Return selectedQuote None
        | None => Panic "index out of range"
        end
      end
    end.

(** The condition of the search loop. *)
Definition matches (query : string) (q : Quote) : bool :=
  strings.Contains (ToLower (Text q)) query
  || strings.Contains (ToLower (Author q)) query
  || strings.Contains (ToLower (Category q)) query.

(** The search loop over the rest [qs] of the table, [results] being what
    was appended so far. *)
Fixpoint scan (query : string) (limit : Z) (qs results : list Quote) : list Quote :=
  match qs with
  | [] => results
  | q :: rest =>
    if matches query q then
      let results := results ++ [q] in
      if len results >=? limit then results   (* break *)
      else scan query limit rest results
    else scan query limit rest results
  end.

Definition searchQuotes (input : SearchQuotesInput) : ret SearchQuotesOutput :=
  if bool_decide (Query input = "") then
    Return zeroSearchQuotesOutput (Some "query is required")
  else
    let limit := Limit input in
    let limit := if limit <=? 0 then 5 else limit in
    let limit := if limit >? 10 then 10 else limit in
    let query := ToLower (Query input) in
    let results := scan query limit quotes [] in
    Return {| Quotes := results; Total := len results |} None.

End Handlers.

(** The limit the search loop runs with, after the default and the cap. *)
Definition effectiveLimit (limit : Z) : Z :=
  let limit := if limit <=? 0 then 5 else limit in
  if limit >? 10 then 10 else limit.

Record ListCategoriesOutput := mkListCategoriesOutput {
  Categories : list string;
}.

(** [listCategories].  The language does not fix the order in which
    [range] visits the keys of a map, only that each key is visited once:
    [order] stands for the rearrangement of the keys that a run makes. *)
Definition listCategories (order : list string → list string) : ret ListCategoriesOutput :=
  let categorySet : gmap string bool :=
    foldl (λ categorySet q,
             if bool_decide (Category q ≠ "") then <[Category q := true]> categorySet
             else categorySet)
          ∅ quotes in
  let categories :=
    foldl (λ categories c, categories ++ [c]) [] (order (map_to_list categorySet).*1) in
  Return {| Categories := categories |} None.

Definition implementation : Implementation :=
  {| Name := "quotes-server"; Version := "1.0.0" |}.

Definition serve (corsFlag : bool) : http.Handler -> http.Handler :=
  mux corsFlag "quotes-server" "1.0.0".

End quotes.

(** ** weather-server *)

Module weather.

Module GetCurrentWeatherInput.
Record t := mk { Latitude : float64; Longitude : float64 }.
End GetCurrentWeatherInput.

Record CurrentWeatherOutput := mkCurrentWeatherOutput {
  Latitude : float64;
  Longitude : float64;
  Temperature : float64;
  WindSpeed : float64;
  WindDirection : Z;
  WeatherCode : Z;
  Description : string;
  IsDay : bool;
  Time : string;
}.

Module GetForecastInput.
Record t := mk { Latitude : float64; Longitude : float64; Days : Z }.
End GetForecastInput.

Module DailyForecast.
Record t := mk {
  Date : string;
  TempMax : float64;
  TempMin : float64;
  WeatherCode : Z;
  Description : string;
  PrecipitationSum : float64;
}.
End DailyForecast.

Module ForecastOutput.
Record t := mk {
  Latitude : float64;
  Longitude : float64;
  Daily : list DailyForecast.t;
}.
End ForecastOutput.

(** Weather code to description mapping. *)
Definition weatherCodeDescriptions : gmap Z string :=
  list_to_map [
    (0, "Clear sky"); (1, "Mainly clear"); (2, "Partly cloudy"); (3, "Overcast");
    (45, "Fog"); (48, "Depositing rime fog");
    (51, "Light drizzle"); (53, "Moderate drizzle"); (55, "Dense drizzle");
    (61, "Slight rain"); (63, "Moderate rain"); (65, "Heavy rain");
    (71, "Slight snow"); (73, "Moderate snow"); (75, "Heavy snow"); (77, "Snow grains");
    (80, "Slight rain showers"); (81, "Moderate rain showers"); (82, "Violent rain showers");
    (85, "Slight snow showers"); (86, "Heavy snow showers");
    (95, "Thunderstorm"); (96, "Thunderstorm with slight hail");
    (99, "Thunderstorm with heavy hail") ].

Definition getWeatherDescription (code : Z) : string :=
  match weatherCodeDescriptions !! code with
  | Some desc => desc
  | None => "Unknown"
  end.

(** Open-Meteo API response structures. *)
Module CurrentWeather.
Record t := mk {
  Temperature : float64;
  WindSpeed : float64;
  WindDirection : Z;
  WeatherCode : Z;
  IsDay : Z;
  Time : string;
}.
End CurrentWeather.

Module OpenMeteoCurrentResponse.
Record t := mk {
  Latitude : float64;
  Longitude : float64;
  CurrentWeather : CurrentWeather.t;
}.
End OpenMeteoCurrentResponse.

Module Daily.
Record t := mk {
  Time : list string;
  Temperature2mMax : list float64;
  Temperature2mMin : list float64;
  WeatherCode : list Z;
  PrecipitationSum : list float64;
}.
End Daily.

Module OpenMeteoForecastResponse.
Record t := mk {
  Latitude : float64;
  Longitude : float64;
  Daily : Daily.t;
}.
End OpenMeteoForecastResponse.

(** A GET sent to api.open-meteo.com/v1/forecast, by the values printed into
    the query string of its URL. *)
Inductive apiRequest :=
| CurrentRequest (latitude longitude : float64)
| ForecastRequest (latitude longitude : float64) (forecast_days : Z).



(** The validation both handlers start with; [Some] is the error returned. *)
Definition validateCoordinates (latitude longitude : float64) : error :=
  if f64.lt latitude (f64.of_Z (-90)) || f64.gt latitude (f64.of_Z 90) then
    Some "latitude must be between -90 and 90"
  else if f64.lt longitude (f64.of_Z (-180)) || f64.gt longitude (f64.of_Z 180) then
    Some "longitude must be between -180 and 180"
  else None.

Definition zeroFloat : float64 := S754_zero false.

Definition zeroCurrentWeatherOutput : CurrentWeatherOutput :=
  mkCurrentWeatherOutput zeroFloat zeroFloat zeroFloat zeroFloat 0 0 "" false "".

Definition zeroForecastOutput : ForecastOutput.t :=
  ForecastOutput.mk zeroFloat zeroFloat [].

(** A handler's result together with the requests it sent to the API, in
    order. *)
Definition traced (A : Type) : Type := list apiRequest * ret A.

Definition getCurrentWeather
    (get : apiRequest -> http.GetResult OpenMeteoCurrentResponse.t)
    (input : GetCurrentWeatherInput.t) : traced CurrentWeatherOutput :=
  let latitude := GetCurrentWeatherInput.Latitude input in
  let longitude := GetCurrentWeatherInput.Longitude input in
  (* Validate coordinates *)
  match validateCoordinates latitude longitude with
  | Some err => ([], Return zeroCurrentWeatherOutput (Some err))
  | None =>
    let apiURL := CurrentRequest latitude longitude in
    match get apiURL with
    | http.GetFailed err =>
      ([apiURL], Return zeroCurrentWeatherOutput (Some ("failed to fetch weather data: " +:+ err)))
    | http.Response StatusCode decoded =>
      if negb (StatusCode =? http.StatusOK) then
        ([apiURL], Return zeroCurrentWeatherOutput
                          (Some ("API returned status " +:+ pretty StatusCode)))
      else
        match decoded with
        | inr err =>
          ([apiURL], Return zeroCurrentWeatherOutput
                            (Some ("failed to parse API response: " +:+ err)))
        | inl apiResp =>
          let cw := OpenMeteoCurrentResponse.CurrentWeather apiResp in
          ([apiURL],
           Return {| Latitude := OpenMeteoCurrentResponse.Latitude apiResp;
                     Longitude := OpenMeteoCurrentResponse.Longitude apiResp;
                     Temperature := CurrentWeather.Temperature cw;
                     WindSpeed := CurrentWeather.WindSpeed cw;
                     WindDirection := CurrentWeather.WindDirection cw;
                     WeatherCode := CurrentWeather.WeatherCode cw;
                     Description := getWeatherDescription (CurrentWeather.WeatherCode cw);
                     IsDay := CurrentWeather.IsDay cw =? 1;
                     Time := CurrentWeather.Time cw |} None)
        end
    end
  end.

(** The loop building the daily forecasts, over the indices [idxs] of
    [Daily.Time] still to visit; [None] is an index-out-of-range panic. *)
Fixpoint buildDaily (d : Daily.t) (idxs : list nat) (daily : list DailyForecast.t)
  : option (list DailyForecast.t) :=
  match idxs with
  | [] => Some daily
  | i :: rest =>
    if len (Daily.Temperature2mMax d) <=? Z.of_nat i then Some daily   (* break *)
    else
      match Daily.Time d !! i, Daily.Temperature2mMax d !! i, Daily.Temperature2mMin d !! i,
            Daily.WeatherCode d !! i, Daily.PrecipitationSum d !! i with
      | Some date, Some tmax, Some tmin, Some code, Some precip =>
        buildDaily d rest
          (daily ++ [DailyForecast.mk date tmax tmin code (getWeatherDescription code) precip])
      | _, _, _, _, _ => None
      end
  end.

Definition getForecast
    (get : apiRequest -> http.GetResult OpenMeteoForecastResponse.t)
    (input : GetForecastInput.t) : traced ForecastOutput.t :=
  let latitude := GetForecastInput.Latitude input in
  let longitude := GetForecastInput.Longitude input in
  (* Validate coordinates *)
  match validateCoordinates latitude longitude with
  | Some err => ([], Return zeroForecastOutput (Some err))
  | None =>
    (* Validate and set default days *)
    let days := GetForecastInput.Days input in
    let days := if days <=? 0 then 3 else days in
    let days := if days >? 7 then 7 else days in
    let apiURL := ForecastRequest latitude longitude days in
    match get apiURL with
    | http.GetFailed err =>
      ([apiURL], Return zeroForecastOutput (Some ("failed to fetch forecast data: " +:+ err)))
    | http.Response StatusCode decoded =>
      if negb (StatusCode =? http.StatusOK) then
        ([apiURL], Return zeroForecastOutput
                          (Some ("API returned status " +:+ pretty StatusCode)))
      else
        match decoded with
        | inr err =>
          ([apiURL], Return zeroForecastOutput
                            (Some ("failed to parse API response: " +:+ err)))
        | inl apiResp =>
          let d := OpenMeteoForecastResponse.Daily apiResp in
          match buildDaily d (seq 0 (length (Daily.Time d))) [] with
          | None => ([apiURL], Panic "index out of range")
          | Some daily =>
            ([apiURL],
             Return (ForecastOutput.mk (OpenMeteoForecastResponse.Latitude apiResp)
                                       (OpenMeteoForecastResponse.Longitude apiResp)
                                       daily) None)
          end
        end
    end
  end.

Definition implementation : Implementation :=
  {| Name := "weather-server"; Version := "1.0.0" |}.

Definition serve (corsFlag : bool) : http.Handler -> http.Handler :=
  mux corsFlag "weather-server" "1.0.0".

End weather.

(** ** The dispatcher's [tools/call] *)

Module dispatcher.

(** Modelled from the spec: the error taxonomy of the protocol layer.  The
    dispatcher is the MCP SDK's, which is not part of the sources; the
    handlers themselves only ever return a plain [error]. *)
Inductive ErrorKind :=
| ToolNotFound
| InvalidArguments
| HandlerFailed.

(** Modelled from the spec: the outcome of a ToolCallResult, success with a
    typed payload or failure with an error kind and a message. *)
Inductive Outcome (A : Type) :=
| success (payload : A)
| failure (kind : ErrorKind) (message : string).
Arguments success {A} payload.
Arguments failure {A} kind message.

(** Modelled from the spec: the untyped wire values that tool arguments are
    made of, and [raw_arguments], an object of them. *)
Inductive Value :=
| VNull
| VBool (b : bool)
| VInt (z : Z)
| VFloat (f : float64)
| VString (s : string).

Abbreviation RawArguments := (gmap string Value).

Inductive FieldType := TString | TInt | TNumber.

(** One field of a handler's input struct as its tags declare it: the
    [json] name, the Go type, and whether it is required (no [omitempty]). *)
Record Field := mkField {
  fieldName : string;
  fieldType : FieldType;
  required : bool;
}.

Definition hasType (t : FieldType) (v : Value) : bool :=
  match t, v with
  | TString, VString _ => true
  | TInt, VInt _ => true
  | TNumber, VInt _ => true
  | TNumber, VFloat _ => true
  | _, _ => false
  end.

(** Modelled from the spec: step 2 of [tools/call], the check of
    [raw_arguments] against the declared input shape.  [Some] is the reason
    for which decoding fails; it names the field. *)
Fixpoint checkShape (shape : list Field) (raw : RawArguments) : option string :=
  match shape with
  | [] => None
  | f :: rest =>
    match raw !! fieldName f with
    | None =>
      if required f then Some ("missing required field: " +:+ fieldName f)
      else checkShape rest raw
    | Some v =>
      if hasType (fieldType f) v then checkShape rest raw
      else Some ("type mismatch for field: " +:+ fieldName f)
    end
  end.

(** The two ways in which a declared field can be at fault in
    [raw_arguments]. *)
Definition missing (raw : RawArguments) (f : Field) : Prop :=
  required f = true ∧ raw !! fieldName f = None.

Definition mistyped (raw : RawArguments) (f : Field) : Prop :=
  ∃ v, raw !! fieldName f = Some v ∧ hasType (fieldType f) v = false.

(** An omitted optional field is left at the zero value of its Go type. *)
Definition getString (raw : RawArguments) (name : string) : string :=
  match raw !! name with Some (VString s) => s | _ => "" end.

Definition getInt (raw : RawArguments) (name : string) : Z :=
  match raw !! name with Some (VInt z) => z | _ => 0 end.


(** A registered tool: the shape of its input struct, the struct built from
    well-shaped arguments, and the handler function. *)
Record Tool (I O : Type) := mkTool {
  shape : list Field;
  build : RawArguments -> I;
  handler : I -> ret O;
}.
Arguments mkTool {I O} shape build handler.
Arguments shape {I O} t.
Arguments build {I O} t raw.
Arguments handler {I O} t input.

(** Modelled from the spec: steps 2 to 5 of [tools/call] for a resolved
    tool.  Decoding failure is [InvalidArguments] with the reason; otherwise
    the handler runs once, and its error, when it returns one, becomes
    [HandlerFailed] with the handler's message unchanged.  The second
    component counts the handler invocations.  A panicking handler produces
    no ToolCallResult. *)
Definition callTool {I O} (t : Tool I O) (raw : RawArguments) : option (Outcome O) * nat :=
  match checkShape (shape t) raw with
  | Some why => (Some (failure InvalidArguments why), 0%nat)
  | None =>
    match handler t (build t raw) with
    | Return out None => (Some (success out), 1%nat)
    | Return _ (Some msg) => (Some (failure HandlerFailed msg), 1%nat)
    | Panic _ => (None, 1%nat)
    end
  end.





(** The tools registered in the [main] functions, with the shapes declared
    by the [json] tags of their input structs. *)
Definition search_quotes (ToLower : string -> string)
  : Tool quotes.SearchQuotesInput quotes.SearchQuotesOutput :=
  mkTool [mkField "query" TString true; mkField "limit" TInt false]
         (fun raw => quotes.mkSearchQuotesInput (getString raw "query") (getInt raw "limit"))
         (quotes.searchQuotes ToLower).



End dispatcher.

(** The three programs: the identity given to [mcp.NewServer] and the
    routing table of [main]. *)
Definition servers : list (Implementation * (bool -> http.Handler -> http.Handler)) :=
  [ (moon.implementation, moon.serve);
    (quotes.implementation, quotes.serve);
    (weather.implementation, weather.serve) ].

(** The health document of the specification's scenario as text: the four
    members, in the key order of the encoder, and the encoder's final
    newline. *)
Definition healthText (server version : string) : string :=
  let q s := json.quote +:+ s +:+ json.quote in
  "{" +:+ q "mcp_endpoint" +:+ ":" +:+ q "/mcp" +:+ ","
      +:+ q "server" +:+ ":" +:+ q server +:+ ","
      +:+ q "status" +:+ ":" +:+ q "ok" +:+ ","
      +:+ q "version" +:+ ":" +:+ q version +:+ "}" +:+ String "010"%char "".

(** * Properties *)

(** ** The diagnostic response wrapper *)

Section ResponseWriterFacts.

Import moon.

Implicit Types (rw : responseWriter) (b : list byte) (chunks : list (list byte)).

Lemma Write_isStreaming b rw : isStreaming (Write b rw).2 = isStreaming rw.
Proof. reflexivity. Qed.

Lemma Write_forwards b rw :
  ResponseWriter (Write b rw).2 = (http.Write b (ResponseWriter rw)).2
  ∧ (Write b rw).1 = (http.Write b (ResponseWriter rw)).1.
Proof. split; reflexivity. Qed.

Lemma Write_sent b rw :
  http.sent (ResponseWriter (Write b rw).2) = http.sent (ResponseWriter rw) ++ b.
Proof.
  cbn. unfold http.WriteHeader. destruct (http.committed (ResponseWriter rw)); reflexivity.
Qed.

Lemma Write_streaming_body b rw : isStreaming rw = true → body (Write b rw).2 = body rw.
Proof. intros Hs. cbn. rewrite Hs. reflexivity. Qed.

Lemma Writes_isStreaming chunks rw : isStreaming (Writes chunks rw) = isStreaming rw.
Proof.
  revert rw. induction chunks as [|b chunks IH]; intros rw; [reflexivity|].
  cbn [Writes]. rewrite IH. apply Write_isStreaming.
Qed.

Lemma Writes_sent chunks rw :
  http.sent (ResponseWriter (Writes chunks rw))
  = http.sent (ResponseWriter rw) ++ concat chunks.
Proof.
  revert rw. induction chunks as [|b chunks IH]; intros rw; cbn [Writes concat].
  - by rewrite app_nil_r.
  - by rewrite IH, Write_sent, app_assoc.
Qed.

Lemma Writes_streaming_body chunks rw :
  isStreaming rw = true → body (Writes chunks rw) = body rw.
Proof.
  revert rw. induction chunks as [|b chunks IH]; intros rw Hs; [reflexivity|].
  cbn [Writes]. rewrite IH by (by rewrite Write_isStreaming).
  by apply Write_streaming_body.
Qed.

(** What one [Write] leaves in the capture buffer of a non-streaming
    response whose buffer is within the cap. *)
Lemma Write_capture b rw :
  isStreaming rw = false → bodyLen rw <= 1024 →
  body (Write b rw).2 = Some (take 1024 (default [] (body rw) ++ b)).
Proof.
  unfold bodyLen, len. intros Hs Hcap. cbn. rewrite Hs. cbn.
  set (body0 := match body rw with Some s => s | None => [] end).
  assert (Hb : default [] (body rw) = body0) by (subst body0; by destruct (body rw)).
  rewrite Hb in *. unfold len.
  destruct (Z.ltb_spec (Z.of_nat (length body0)) 1024) as [Hlt|Hge].
  - destruct (Z.gtb_spec (Z.of_nat (length b)) (1024 - Z.of_nat (length body0))) as [Hgt|Hle].
    + f_equal. rewrite take_app_ge by lia. f_equal. f_equal. lia.
    + f_equal. rewrite take_ge; [done|]. rewrite length_app. lia.
  - f_equal. rewrite take_app_le by lia. rewrite take_ge; [done|lia].
Qed.

Lemma take_take_app {A} (n : nat) (l k : list A) :
  take n (take n l ++ k) = take n (l ++ k).
Proof.
  destruct (decide (n ≤ length l)%nat) as [Hle|Hgt].
  - rewrite !take_app_le; [|lia|rewrite length_take; lia].
    by rewrite take_take, Nat.min_id.
  - by rewrite (take_ge l) by lia.
Qed.

Lemma Writes_capture chunks rw :
  isStreaming rw = false → bodyLen rw <= 1024 → chunks ≠ [] →
  body (Writes chunks rw) = Some (take 1024 (default [] (body rw) ++ concat chunks)).
Proof.
  revert rw. induction chunks as [|b chunks IH]; intros rw Hs Hcap Hne; [done|].
  cbn [Writes concat].
  pose proof (Write_capture b rw Hs Hcap) as Hb.
  destruct chunks as [|b' chunks].
  - cbn [Writes concat]. by rewrite app_nil_r.
  - rewrite IH; [| by rewrite Write_isStreaming | | done].
    + rewrite Hb. simpl default. by rewrite take_take_app, app_assoc.
    + unfold bodyLen, len. rewrite Hb. simpl default. rewrite length_take. lia.
Qed.

Lemma WriteHeader_sent (code : Z) (w : http.ResponseWriter) :
  http.sent (http.WriteHeader code w) = http.sent w.
Proof.
  unfold http.WriteHeader.
  by destruct (http.committed w), (http.validCode code && negb (http.informational code)).
Qed.


Lemma WriteHeader_committed (code : Z) (w : http.ResponseWriter) :
  is_Some (http.committed w) → http.WriteHeader code w = w.
Proof. intros [c Hc]. unfold http.WriteHeader. by rewrite Hc. Qed.

(** The call of [WriteHeader] that commits a response: the code is one
    net/http accepts as a final status, and the headers committed are those
    of the header map. *)
Lemma WriteHeader_commits (code : Z) (w : http.ResponseWriter) (h : http.Header) :
  http.committed w = None →
  http.sentHeader (http.WriteHeader code w) = Some h →
  h = http.header w
  ∧ http.committed (http.WriteHeader code w) = Some (code, http.header w)
  ∧ http.validCode code = true ∧ http.informational code = false.
Proof.
  unfold http.sentHeader, http.WriteHeader. intros Hc. rewrite Hc.
  destruct (http.validCode code) eqn:Hv, (http.informational code) eqn:Hi;
    cbn [andb negb http.committed]; rewrite ?Hc; cbn; intros [= <-]; done.
Qed.

(** Between two calls of [WriteHeader] the wrapper's mark does not move:
    on a committed response marked as streaming, header changes and writes
    leave the capture buffer and the commitment alone, and every write
    reaches the connection. *)
Lemma run_streaming (calls : list call) rw :
  (∀ code, CallWriteHeader code ∉ calls) →
  isStreaming rw = true →
  is_Some (http.committed (ResponseWriter rw)) →
  isStreaming (run calls rw) = true
  ∧ body (run calls rw) = body rw
  ∧ http.sent (ResponseWriter (run calls rw)) = http.sent (ResponseWriter rw) ++ written calls
  ∧ http.committed (ResponseWriter (run calls rw)) = http.committed (ResponseWriter rw).
Proof.
  revert rw. induction calls as [|c calls IH]; intros rw Hno Hs Hc.
  - unfold run, written. cbn. by rewrite app_nil_r.
  - assert (Hno' : ∀ code, CallWriteHeader code ∉ calls).
    { intros code Hin. apply (Hno code). by apply list_elem_of_further. }
    change (run (c :: calls) rw) with (run calls (step rw c)).
    destruct c as [change|code|b].
    + destruct (IH (step rw (CallHeader change)) Hno' Hs Hc) as (H1 & H2 & H3 & H4).
      split_and!; [exact H1|exact H2|exact H3|exact H4].
    + exfalso. apply (Hno code), list_elem_of_here.
    + assert (Hc' : http.committed (ResponseWriter (step rw (CallWrite b)))
                    = http.committed (ResponseWriter rw)).
      { cbn. by rewrite WriteHeader_committed. }
      destruct (IH (step rw (CallWrite b))) as (H1 & H2 & H3 & H4);
        [exact Hno'|exact Hs|by rewrite Hc'|].
      split_and!; [exact H1| | |by rewrite H4].
      * rewrite H2. cbn [step]. by apply Write_streaming_body.
      * rewrite H3. cbn [step]. rewrite Write_sent.
        unfold written. by rewrite <- app_assoc.
Qed.

(** C1, as stated, fails: a response is committed as an event stream by
    [WriteHeader]; the handler then changes the Content-Type in the header
    map and calls [WriteHeader] once more.  The connection ignores the
    second call and the committed type is still the event-stream type, but
    the wrapper takes its mark again from the header map, and the [Write]
    that follows is recorded in the capture buffer. *)
Lemma second_WriteHeader_resumes_capture :
  let w := http.SetHeader "Content-Type" "text/event-stream" http.fresh in
  let rw := WriteHeader 200 (wrap w) in
  let rw' := run [CallHeader (http.Set_ "Content-Type" "application/json");
                  CallWriteHeader 200;
                  CallWrite (bytes "data: 1")] rw in
  (http.Get "Content-Type" <$> http.sentHeader (ResponseWriter rw)) = Some "text/event-stream"
  ∧ (http.Get "Content-Type" <$> http.sentHeader (ResponseWriter rw')) = Some "text/event-stream"
  ∧ http.sent (ResponseWriter rw') = bytes "data: 1"
  ∧ body rw = None
  ∧ body rw' = Some (bytes "data: 1")
  ∧ bodyLen rw' = 7
  ∧ ¬ (bodyLen rw' = 0).
Proof.
  intros w rw rw'. split_and!; [vm_compute; reflexivity..|].
  vm_compute. discriminate.
Qed.

(** The same happens with a single call of [WriteHeader] when it comes
    after the commit: a first [Write] commits the response as an event
    stream, the Content-Type in the header map is changed, and the call of
    [WriteHeader] that follows finds a committed event-stream type but
    another type in the map; the [Write] after it is recorded. *)
Lemma WriteHeader_after_commit_captures :
  let w := http.SetHeader "Content-Type" "text/event-stream" http.fresh in
  let rw := run [CallWrite (bytes "data: 1");
                 CallHeader (http.Set_ "Content-Type" "application/json");
                 CallWriteHeader 200] (wrap w) in
  let rw' := run [CallWrite (bytes "data: 2")] rw in
  (http.Get "Content-Type" <$> http.sentHeader (ResponseWriter rw)) = Some "text/event-stream"
  ∧ isStreaming rw = false
  ∧ body rw = Some (bytes "data: 1")
  ∧ body rw' = Some (bytes "data: 1" ++ bytes "data: 2").
Proof. intros w rw rw'. split_and!; vm_compute; reflexivity. Qed.

(** C1, amended.  Streaming isolation holds up to the next [WriteHeader].
    When the call of [WriteHeader] through the wrapper is the one that
    commits the response, and the committed Content-Type is
    [text/event-stream], then whatever the handler does next short of
    calling [WriteHeader] again (writes, and changes of the header map in
    between), the wrapper stays marked as streaming, the capture buffer is
    the one [WriteHeader] found (no byte is recorded: on a wrapper that had
    captured nothing, the captured length stays 0), the connection has
    received every chunk, whole and in order, and the committed type is
    still the event-stream type. *)
Theorem streaming_isolation_until_WriteHeader (rw : responseWriter) (code : Z)
    (calls : list call) :
  http.committed (ResponseWriter rw) = None →
  (http.Get "Content-Type" <$> http.sentHeader (ResponseWriter (WriteHeader code rw)))
  = Some "text/event-stream" →
  (∀ code', CallWriteHeader code' ∉ calls) →
  let rw' := run calls (WriteHeader code rw) in
  WriteHeaderPanics code rw = false
  ∧ isStreaming rw' = true
  ∧ body rw' = body rw
  ∧ (body rw = None → bodyLen rw' = 0)
  ∧ http.sent (ResponseWriter rw') = http.sent (ResponseWriter rw) ++ written calls
  ∧ (http.Get "Content-Type" <$> http.sentHeader (ResponseWriter rw'))
    = Some "text/event-stream".
Proof.
  intros Hc Hct Hno rw'.
  cbn [WriteHeader ResponseWriter] in Hct.
  destruct (http.sentHeader (http.WriteHeader code (ResponseWriter rw))) as [h|] eqn:Hh;
    [|discriminate].
  destruct (WriteHeader_commits code (ResponseWriter rw) h Hc Hh) as (-> & Hcommit & Hv & Hi).
  injection Hct as Hct.
  assert (Hs : isStreaming (WriteHeader code rw) = true).
  { cbn. rewrite Hct. reflexivity. }
  destruct (run_streaming calls (WriteHeader code rw) Hno Hs) as (H1 & H2 & H3 & H4).
  { cbn [WriteHeader ResponseWriter]. by rewrite Hcommit. }
  assert (Hbody : body rw' = body rw) by (subst rw'; by rewrite H2).
  split_and!.
  - unfold WriteHeaderPanics, http.WriteHeaderPanics. by rewrite Hc, Hv.
  - exact H1.
  - exact Hbody.
  - intros Hnil. unfold bodyLen. by rewrite Hbody, Hnil.
  - subst rw'. rewrite H3. cbn [WriteHeader ResponseWriter]. by rewrite WriteHeader_sent.
  - subst rw'. unfold http.sentHeader in *. rewrite H4.
    cbn [WriteHeader ResponseWriter]. rewrite Hcommit. cbn. by rewrite Hct.
Qed.

Lemma streaming_isolation_until_WriteHeader_witness :
  let w := http.SetHeader "Content-Type" "text/event-stream" http.fresh in
  let calls := [CallWrite (bytes "event: message");
                CallHeader (http.Set_ "Content-Type" "application/json");
                CallWrite (bytes "data: {}")] in
  let rw' := run calls (WriteHeader 200 (wrap w)) in
  bodyLen rw' = 0
  ∧ http.sent (ResponseWriter rw') = bytes "event: message" ++ bytes "data: {}".
Proof.
  intros w calls rw'. subst rw'.
  destruct (streaming_isolation_until_WriteHeader (wrap w) 200 calls)
    as (_ & _ & _ & Hlen & Hsent & _).
  - reflexivity.
  - vm_compute. reflexivity.
  - intros code' Hin. subst calls.
    repeat (apply elem_of_cons in Hin as [Hin|Hin]; [discriminate Hin|]).
    by apply elem_of_nil in Hin.
  - split.
    + apply Hlen. reflexivity.
    + rewrite Hsent. reflexivity.
Defined.

(** C2. The capture cap.  On a non-streaming response whose capture buffer
    is within 1024 bytes (as it is on a new wrapper), after any run of
    [Write] calls the buffer is still within 1024 bytes, it holds the first
    1024 bytes of what it held followed by the chunks, and the connection
    has received every chunk whole, in order: the cap truncates nothing
    that is sent.  Each [Write] reports the result of the underlying
    [Write] on the entire slice. *)
Theorem capture_cap (rw : responseWriter) (chunks : list (list byte)) :
  isStreaming rw = false →
  bodyLen rw <= 1024 →
  let rw' := Writes chunks rw in
  bodyLen rw' <= 1024
  ∧ default [] (body rw') = take 1024 (default [] (body rw) ++ concat chunks)
  ∧ http.sent (ResponseWriter rw') = http.sent (ResponseWriter rw) ++ concat chunks
  ∧ (∀ b, (Write b rw').1 = (len b, None)
          ∧ ResponseWriter (Write b rw').2 = (http.Write b (ResponseWriter rw')).2).
Proof.
  intros Hs Hcap rw'.
  assert (Hbody : default [] (body rw') = take 1024 (default [] (body rw) ++ concat chunks)).
  { subst rw'. destruct chunks as [|b chunks].
    - cbn [Writes concat]. rewrite app_nil_r, take_ge; [done|].
      unfold bodyLen, len in Hcap. lia.
    - by rewrite Writes_capture. }
  split_and!.
  - unfold bodyLen, len. rewrite Hbody, length_take. lia.
  - exact Hbody.
  - subst rw'. apply Writes_sent.
  - intros b. split; reflexivity.
Qed.

Lemma capture_cap_witness :
  let chunks := [replicate 1000 "a"%byte; replicate 1000 "b"%byte] in
  let rw' := Writes chunks (wrap http.fresh) in
  bodyLen rw' <= 1024
  ∧ http.sent (ResponseWriter rw') = replicate 1000 "a"%byte ++ replicate 1000 "b"%byte.
Proof.
  intros chunks rw'. subst rw'.
  destruct (capture_cap (wrap http.fresh) chunks) as (Hlen & _ & Hsent & _).
  - reflexivity.
  - vm_compute. discriminate.
  - split; [exact Hlen|]. rewrite Hsent. vm_compute. reflexivity.
Defined.

End ResponseWriterFacts.

(** ** quotes-server: the handlers *)

Section QuotesFacts.

Import quotes.

Variable ToLower : string -> string.

Implicit Types (q : Quote) (qs results : list Quote) (query : string) (limit : Z).

Lemma effectiveLimit_range limit : 1 <= effectiveLimit limit <= 10.
Proof.
  unfold effectiveLimit.
  destruct (Z.leb_spec limit 0); [cbn; lia|].
  destruct (Z.gtb_spec limit 10); lia.
Qed.

Lemma effectiveLimit_default limit : limit <= 0 → effectiveLimit limit = 5.
Proof. unfold effectiveLimit. destruct (Z.leb_spec limit 0); [reflexivity|lia]. Qed.

Lemma effectiveLimit_cap limit : 10 < limit → effectiveLimit limit = 10.
Proof.
  unfold effectiveLimit. intros H.
  destruct (Z.leb_spec limit 0); [lia|].
  destruct (Z.gtb_spec limit 10); [reflexivity|lia].
Qed.

(** The loop returns the first [limit] matching quotes, in table order. *)
Lemma scan_take query limit qs results :
  len results < limit →
  scan ToLower query limit qs results
  = take (Z.to_nat limit) (results ++ filter (λ q, matches ToLower query q = true) qs).
Proof.
  unfold len. revert results.
  induction qs as [|q rest IH]; intros results Hlt; cbn [scan].
  - rewrite filter_nil, app_nil_r, take_ge; [done|lia].
  - rewrite filter_cons. destruct (matches ToLower query q) eqn:Hm.
    + rewrite decide_True by done. unfold len.
      set (found := filter _ rest).
      replace (results ++ q :: found) with ((results ++ [q]) ++ found)
        by (by rewrite <- app_assoc).
      destruct (Z.geb_spec (Z.of_nat (length (results ++ [q]))) limit) as [Hge|Hlt'].
      * symmetry. apply take_app_length'.
        rewrite length_app in *. cbn [length] in *. lia.
      * by rewrite IH.
    + rewrite decide_False by (by intros ?). by apply IH.
Qed.

Lemma searchQuotes_value query limit :
  query ≠ "" →
  searchQuotes ToLower (mkSearchQuotesInput query limit)
  = let results := take (Z.to_nat (effectiveLimit limit))
                        (filter (λ q, matches ToLower (ToLower query) q = true) quotes) in
    Return {| Quotes := results; Total := len results |} None.
Proof.
  intros Hq. unfold searchQuotes. cbn [Query Limit].
  rewrite bool_decide_eq_false_2 by done.
  fold (effectiveLimit limit).
  pose proof (effectiveLimit_range limit).
  rewrite scan_take by (unfold len; cbn [length]; lia). reflexivity.
Qed.

Lemma pick_in_range draw (l : list Quote) :
  l ≠ [] →
  ∃ idx q, rand.Intn draw (len l) = Some idx ∧ l !! Z.to_nat idx = Some q ∧ q ∈ l.
Proof.
  intros Hne. unfold rand.Intn, len.
  assert (0 < Z.of_nat (length l)) by (destruct l; [done|cbn; lia]).
  destruct (Z.leb_spec (Z.of_nat (length l)) 0); [lia|].
  pose proof (Z.mod_pos_bound draw (Z.of_nat (length l)) ltac:(lia)) as Hb.
  destruct (lookup_lt_is_Some_2 l (Z.to_nat (draw mod Z.of_nat (length l)))) as [q Hq]; [lia|].
  exists (draw mod Z.of_nat (length l)), q. split_and!; [done|done|].
  by eapply list_elem_of_lookup_2.
Qed.

End QuotesFacts.

(** The API reply and the request used to show that a fetched quote can be
    dropped. *)
Lemma api_quote_dropped_example :
  let reply := http.Response 200 (inl [quotes.mkApiQuote "Be yourself." "Anonymous"]) in
  let input := quotes.GetRandomQuoteInput.mk "wisdom" in
  quotes.fetchQuoteFromAPI reply = (quotes.mkQuote "Be yourself." "Anonymous" "", None)
  ∧ quotes.getRandomQuote strings.ToLowerASCII reply 0 input
    = Return (quotes.mkQuote
                "It is during our darkest moments that we must focus to see the light."
                "Aristotle" "wisdom") None.
Proof. split; vm_compute; reflexivity. Qed.

(** C3, as stated, fails.  It is not the case that whenever the API fetch
    succeeds the fetched quote is returned: with a successful fetch and the
    category [wisdom], the handler returns a quote of the local table. *)
Lemma api_quote_not_always_returned :
  ¬ (∀ reply draw input quote,
       quotes.fetchQuoteFromAPI reply = (quote, None) →
       quotes.getRandomQuote strings.ToLowerASCII reply draw input = Return quote None).
Proof.
  intros H.
  specialize (H (http.Response 200 (inl [quotes.mkApiQuote "Be yourself." "Anonymous"]))
                0 (quotes.GetRandomQuoteInput.mk "wisdom") _ eq_refl).
  vm_compute in H. discriminate H.
Qed.

(** C3, amended.  When the API fetch succeeds and the category argument is
    empty, the fetched quote is returned.  When the category argument is
    not empty, the result does not depend on the API reply at all: the
    filter is applied to the local table, and the handler returns either
    the error [no quotes found for category: ...] (no local quote has that
    category, compared in lower case) or a quote of the local table whose
    category equals the argument in lower case. *)
Theorem getRandomQuote_sources (ToLower : string -> string)
    (reply : http.GetResult (list quotes.apiQuote)) (draw : Z)
    (input : quotes.GetRandomQuoteInput.t) (quote : quotes.Quote) :
  quotes.fetchQuoteFromAPI reply = (quote, None) →
  let category := quotes.GetRandomQuoteInput.Category input in
  (category = "" → quotes.getRandomQuote ToLower reply draw input = Return quote None)
  ∧ (category ≠ "" →
     (∀ reply', quotes.getRandomQuote ToLower reply' draw input
                = quotes.getRandomQuote ToLower reply draw input)
     ∧ ((quotes.getRandomQuote ToLower reply draw input
         = Return quotes.zeroQuote (Some ("no quotes found for category: " +:+ category))
         ∧ ∀ q, q ∈ quotes.quotes → ToLower (quotes.Category q) ≠ ToLower category)
        ∨ (∃ q, quotes.getRandomQuote ToLower reply draw input = Return q None
                ∧ q ∈ quotes.quotes
                ∧ ToLower (quotes.Category q) = ToLower category))).
Proof.
  intros Hfetch category. split.
  - intros Hc. unfold quotes.getRandomQuote. rewrite Hfetch.
    fold category. rewrite Hc. reflexivity.
  - intros Hc.
    assert (Hfall : ∀ r, quotes.getRandomQuote ToLower r draw input
      = let filteredQuotes :=
            filter (λ q, ToLower (quotes.Category q) = ToLower category) quotes.quotes in
        if len filteredQuotes =? 0 then
          Return quotes.zeroQuote (Some ("no quotes found for category: " +:+ category))
        else
          match rand.Intn draw (len filteredQuotes) with
          | None => Panic "invalid argument to Intn"
          | Some idx =>
            match filteredQuotes !! Z.to_nat idx with
            | Some selectedQuote => Return selectedQuote None
            | None => Panic "index out of range"
            end
          end).
    { intros r. unfold quotes.getRandomQuote.
      destruct (quotes.fetchQuoteFromAPI r) as [qr er]. fold category.
      rewrite (bool_decide_eq_false_2 (category = "")) by done.
      rewrite andb_false_r.
      rewrite (bool_decide_eq_true_2 (category ≠ "")) by done.
      cbv zeta. by destruct (len _ =? 0). }
    split; [intros r; by rewrite !Hfall|].
    rewrite Hfall. cbv zeta.
    set (found := filter _ quotes.quotes).
    destruct (Z.eqb_spec (len found) 0) as [Hz|Hnz].
    + left. split; [done|]. intros q Hq Heq.
      assert (q ∈ found) as Hin by (apply list_elem_of_filter; done).
      destruct found; [by apply not_elem_of_nil in Hin|]. unfold len in Hz. cbn in Hz. lia.
    + right.
      destruct (pick_in_range draw found) as (idx & q & Hidx & Hq & Hin).
      { intros ->. by apply Hnz. }
      exists q. rewrite Hidx, Hq. split; [done|].
      by apply list_elem_of_filter in Hin as [? ?].
Qed.

Lemma getRandomQuote_sources_witness :
  let reply := http.Response 200 (inl [quotes.mkApiQuote "Be yourself." "Anonymous"]) in
  quotes.getRandomQuote strings.ToLowerASCII reply 3 (quotes.GetRandomQuoteInput.mk "")
  = Return (quotes.mkQuote "Be yourself." "Anonymous" "") None
  ∧ ∀ reply', quotes.getRandomQuote strings.ToLowerASCII reply' 3
                                    (quotes.GetRandomQuoteInput.mk "Courage")
              = quotes.getRandomQuote strings.ToLowerASCII reply 3
                                      (quotes.GetRandomQuoteInput.mk "Courage").
Proof.
  intros reply. split.
  - destruct (getRandomQuote_sources strings.ToLowerASCII reply 3
                (quotes.GetRandomQuoteInput.mk "") _ eq_refl) as [Hapi _].
    apply Hapi. reflexivity.
  - destruct (getRandomQuote_sources strings.ToLowerASCII reply 3
                (quotes.GetRandomQuoteInput.mk "Courage") _ eq_refl) as [_ Hlocal].
    apply Hlocal. discriminate.
Defined.

(** C4. Default and cap of the search limit.  For a non-empty query: with a
    limit of zero (the value of an omitted [limit]) or below, the handler
    returns exactly what it returns for the limit 5, which is at most 5
    quotes; with a limit above 10 it returns exactly what it returns for
    the limit 10, which is at most 10 quotes. *)
Theorem search_limit_default_and_cap (ToLower : string -> string) (query : string) (limit : Z) :
  query ≠ "" →
  (limit <= 0 →
     quotes.searchQuotes ToLower (quotes.mkSearchQuotesInput query limit)
     = quotes.searchQuotes ToLower (quotes.mkSearchQuotesInput query 5)
     ∧ ∃ out, quotes.searchQuotes ToLower (quotes.mkSearchQuotesInput query limit)
              = Return out None
              ∧ len (quotes.Quotes out) <= 5)
  ∧ (10 < limit →
     quotes.searchQuotes ToLower (quotes.mkSearchQuotesInput query limit)
     = quotes.searchQuotes ToLower (quotes.mkSearchQuotesInput query 10)
     ∧ ∃ out, quotes.searchQuotes ToLower (quotes.mkSearchQuotesInput query limit)
              = Return out None
              ∧ len (quotes.Quotes out) <= 10).
Proof.
  intros Hq. split; intros Hl; rewrite !searchQuotes_value by done; cbv zeta.
  - rewrite (effectiveLimit_default limit) by done. split; [reflexivity|].
    eexists. split; [reflexivity|]. cbn [quotes.Quotes]. unfold len.
    rewrite length_take. lia.
  - rewrite (effectiveLimit_cap limit) by done. split; [reflexivity|].
    eexists. split; [reflexivity|]. cbn [quotes.Quotes]. unfold len.
    rewrite length_take. lia.
Qed.

Lemma search_limit_default_and_cap_witness :
  quotes.searchQuotes strings.ToLowerASCII (quotes.mkSearchQuotesInput "the" 0)
  = quotes.searchQuotes strings.ToLowerASCII (quotes.mkSearchQuotesInput "the" 5)
  ∧ quotes.searchQuotes strings.ToLowerASCII (quotes.mkSearchQuotesInput "the" 25)
    = quotes.searchQuotes strings.ToLowerASCII (quotes.mkSearchQuotesInput "the" 10).
Proof.
  split.
  - destruct (search_limit_default_and_cap strings.ToLowerASCII "the" 0) as [Hdefault _];
      [discriminate|].
    apply Hdefault. lia.
  - destruct (search_limit_default_and_cap strings.ToLowerASCII "the" 25) as [_ Hcap];
      [discriminate|].
    apply Hcap. lia.
Defined.

(** C10. Shape of a search result.  Whatever [searchQuotes] returns, the
    [Total] field is the length of [Quotes], every returned quote contains
    the lower-cased query in its lower-cased text, author or category, and
    the returned quotes are a subsequence of the static table, in table
    order.  When no error is returned they are precisely the first
    matching quotes of the table, as many as the limit in force allows:
    the scan stops when the limit is reached. *)
Theorem search_result_shape (ToLower : string -> string)
    (input : quotes.SearchQuotesInput) (out : quotes.SearchQuotesOutput) (err : error) :
  quotes.searchQuotes ToLower input = Return out err →
  let query := ToLower (quotes.Query input) in
  quotes.Total out = len (quotes.Quotes out)
  ∧ Forall (λ q, quotes.matches ToLower query q = true) (quotes.Quotes out)
  ∧ quotes.Quotes out `sublist_of` quotes.quotes
  ∧ (err = None →
     quotes.Quotes out
     = take (Z.to_nat (quotes.effectiveLimit (quotes.Limit input)))
            (filter (λ q, quotes.matches ToLower query q = true) quotes.quotes)).
Proof.
  destruct input as [query0 limit]. cbn [quotes.Query quotes.Limit].
  destruct (decide (query0 = "")) as [->|Hq].
  - unfold quotes.searchQuotes. cbn [quotes.Query]. rewrite bool_decide_eq_true_2 by done.
    intros [= <- <-]. unfold quotes.zeroSearchQuotesOutput.
    cbn [quotes.Total quotes.Quotes].
    split_and!; [reflexivity|constructor|apply sublist_nil_l|intros [=]].
  - rewrite searchQuotes_value by done. cbv zeta. intros [= <- <-].
    cbn [quotes.Quotes quotes.Total]. split_and!; [done| | |done].
    + apply Forall_take, Forall_forall. intros q Hin.
      by apply list_elem_of_filter in Hin as [? ?].
    + etrans; [apply sublist_take|apply sublist_filter].
Qed.

Lemma search_result_shape_witness :
  ∃ out, quotes.searchQuotes strings.ToLowerASCII (quotes.mkSearchQuotesInput "EINSTEIN" 1)
         = Return out None
         ∧ quotes.Total out = 1
         ∧ quotes.Quotes out `sublist_of` quotes.quotes.
Proof.
  eexists. split; [vm_compute; reflexivity|]. split; [reflexivity|].
  eapply (search_result_shape strings.ToLowerASCII
            (quotes.mkSearchQuotesInput "EINSTEIN" 1) _ None).
  vm_compute. reflexivity.
Defined.

(** ** The dispatcher and argument errors *)

Section DispatcherFacts.

Import dispatcher.

Lemma prefix_refl (s : string) : String.prefix s s = true.
Proof. induction s as [|c s IH]; cbn; [done|]. by destruct (Ascii.ascii_dec c c). Qed.

Lemma Contains_refl (s : string) : strings.Contains s s = true.
Proof. destruct s; cbn [strings.Contains]; by rewrite prefix_refl. Qed.

Lemma Contains_app_r (p s : string) : strings.Contains (p +:+ s) s = true.
Proof.
  induction p as [|c p IH]; [apply Contains_refl|].
  change (String c p +:+ s) with (String c (p +:+ s)).
  cbn [strings.Contains]. by destruct (String.prefix s _).
Qed.

(** When a required field is missing, the check fails, and the reason it
    gives names a declared field that is at fault. *)
Lemma checkShape_missing (shape : list Field) (raw : RawArguments) :
  (∃ f, f ∈ shape ∧ missing raw f) →
  ∃ g why, g ∈ shape
    ∧ checkShape shape raw = Some why
    ∧ (missing raw g ∧ why = "missing required field: " +:+ fieldName g
       ∨ mistyped raw g ∧ why = "type mismatch for field: " +:+ fieldName g).
Proof.
  induction shape as [|f0 rest IH]; intros (f & Hin & Hreq & Hnone).
  - by apply not_elem_of_nil in Hin.
  - cbn [checkShape]. destruct (raw !! fieldName f0) as [v|] eqn:Hl.
    + destruct (hasType (fieldType f0) v) eqn:Ht.
      * destruct IH as (g & why & Hg & Hc & Hw).
        { apply elem_of_cons in Hin as [->|Hin]; [congruence|]. by exists f. }
        exists g, why. split_and!; [by apply list_elem_of_further|done|done].
      * exists f0, ("type mismatch for field: " +:+ fieldName f0).
        split_and!; [apply list_elem_of_here|done|]. right. split; [|done]. by exists v.
    + destruct (required f0) eqn:Hr.
      * exists f0, ("missing required field: " +:+ fieldName f0).
        split_and!; [apply list_elem_of_here|done|]. by left.
      * destruct IH as (g & why & Hg & Hc & Hw).
        { apply elem_of_cons in Hin as [->|Hin]; [congruence|]. by exists f. }
        exists g, why. split_and!; [by apply list_elem_of_further|done|done].
Qed.

(** The guard at the head of [searchQuotes]: an empty query is refused with
    an error that names the field, and nothing is searched. *)
Lemma searchQuotes_empty_query (ToLower : string -> string) (limit : Z) :
  quotes.searchQuotes ToLower (quotes.mkSearchQuotesInput "" limit)
  = Return quotes.zeroSearchQuotesOutput (Some "query is required").
Proof. reflexivity. Qed.

(** [search_quotes] called without [query]. *)
Lemma search_quotes_without_query (ToLower : string -> string) (raw : RawArguments) :
  raw !! "query" = None →
  callTool (search_quotes ToLower) raw
  = (Some (failure InvalidArguments "missing required field: query"), 0%nat).
Proof. intros Hq. unfold callTool. cbn [shape search_quotes checkShape fieldName required]. by rewrite Hq. Qed.

End DispatcherFacts.

(** C5. Missing required field.  For every tool and every [raw_arguments]
    in which a required field of the tool's declared input is missing,
    [tools/call] yields a failure of kind [InvalidArguments] whose message
    contains the name of a declared field that is at fault (missing though
    required, or of the wrong type); the handler is not invoked, and the
    outcome is the same whatever the handler is.  For [search_quotes] the
    handler has a guard of its own: on the input struct that arguments
    without [query] decode to, it returns the zero output with the error
    [query is required] instead of searching. *)
Theorem missing_required_field_rejected {I O : Type} (t : dispatcher.Tool I O)
    (raw : dispatcher.RawArguments) (ToLower : string → string) :
  (∃ f, f ∈ dispatcher.shape t ∧ dispatcher.missing raw f) →
  (∃ g why,
    g ∈ dispatcher.shape t
    ∧ (dispatcher.missing raw g ∨ dispatcher.mistyped raw g)
    ∧ strings.Contains why (dispatcher.fieldName g) = true
    ∧ dispatcher.callTool t raw
      = (Some (dispatcher.failure dispatcher.InvalidArguments why), 0%nat)
    ∧ ∀ handler' : I → ret O,
        dispatcher.callTool
          (dispatcher.mkTool (dispatcher.shape t) (dispatcher.build t) handler') raw
        = dispatcher.callTool t raw)
  ∧ (raw !! "query" = None →
     dispatcher.callTool (dispatcher.search_quotes ToLower) raw
     = (Some (dispatcher.failure dispatcher.InvalidArguments
                                 "missing required field: query"), 0%nat)
     ∧ dispatcher.handler (dispatcher.search_quotes ToLower)
                          (dispatcher.build (dispatcher.search_quotes ToLower) raw)
       = Return quotes.zeroSearchQuotesOutput (Some "query is required")).
Proof.
  intros Hmissing. split.
  - destruct (checkShape_missing _ raw Hmissing) as (g & why & Hg & Hcheck & Hwhy).
    exists g, why. split_and!.
    + done.
    + destruct Hwhy as [[? _]|[? _]]; [by left|by right].
    + destruct Hwhy as [[_ ->]|[_ ->]]; apply Contains_app_r.
    + unfold dispatcher.callTool. by rewrite Hcheck.
    + intros handler'. unfold dispatcher.callTool. cbn [dispatcher.shape]. by rewrite Hcheck.
  - intros Hq. split; [by apply search_quotes_without_query|].
    cbn [dispatcher.handler dispatcher.build dispatcher.search_quotes].
    unfold dispatcher.getString at 1. rewrite Hq. apply searchQuotes_empty_query.
Qed.

Lemma missing_required_field_rejected_witness :
  let raw : dispatcher.RawArguments := {[ "limit" := dispatcher.VInt 3 ]} in
  let tool := dispatcher.search_quotes strings.ToLowerASCII in
  dispatcher.callTool tool raw
  = (Some (dispatcher.failure dispatcher.InvalidArguments "missing required field: query"),
     0%nat)
  ∧ dispatcher.handler tool (dispatcher.build tool raw)
    = Return quotes.zeroSearchQuotesOutput (Some "query is required").
Proof.
  intros raw tool.
  destruct (missing_required_field_rejected tool raw strings.ToLowerASCII) as [_ Hsearch].
  - exists (dispatcher.mkField "query" dispatcher.TString true).
    split; [apply list_elem_of_here|]. split; [reflexivity|]. vm_compute. reflexivity.
  - apply Hsearch. vm_compute. reflexivity.
Defined.

(** ** weather-server: coordinate validation *)

Section WeatherFacts.

Import weather.


End WeatherFacts.



(** ** The HTTP surface *)

Section HttpFacts.

Lemma Get_SetHeader_eq (key value : string) (w : http.ResponseWriter) :
  http.Get key (http.header (http.SetHeader key value w)) = value.
Proof. unfold http.Get, http.SetHeader, http.Set_. cbn. by rewrite lookup_insert_eq. Qed.

Lemma Get_Set_ne (key key' value : string) (h : http.Header) :
  key ≠ key' → http.Get key' (http.Set_ key value h) = http.Get key' h.
Proof. intros Hne. unfold http.Get, http.Set_. by rewrite lookup_insert_ne. Qed.

Lemma Get_Set_eq (key value : string) (h : http.Header) :
  http.Get key (http.Set_ key value h) = value.
Proof. unfold http.Get, http.Set_. by rewrite lookup_insert_eq. Qed.

(** The first [Write] on a writer on which nothing is committed commits
    status 200 with the header map as it stands. *)
Lemma Encode_fresh (m : gmap string string) (w : http.ResponseWriter) :
  http.committed w = None →
  json.Encode m w
  = {| http.header := http.header w;
       http.committed := Some (http.StatusOK, http.header w);
       http.sent := http.sent w ++ bytes (json.Marshal m +:+ String "010"%char "") |}.
Proof.
  intros Hc. unfold json.Encode, http.Write, http.WriteHeader. rewrite Hc. reflexivity.
Qed.

End HttpFacts.

(** C7. Preflight.  For every request with method [OPTIONS], every wrapped
    handler (hence every tool registry behind it) and every writer on which
    nothing was committed or sent, the CORS middleware commits status 200
    together with the four CORS headers, sends no body byte, and produces
    the same response whatever the wrapped handler is: the request is not
    forwarded.  With CORS enabled this is what the routing table does with
    an [OPTIONS] request for [/mcp]. *)
Theorem preflight (next : http.Handler) (r : http.Request) (w : http.ResponseWriter) :
  http.Method r = "OPTIONS" →
  http.committed w = None →
  http.sent w = [] →
  let w' := corsMiddleware next r w in
  http.status w' = Some 200
  ∧ http.sent w' = []
  ∧ (∃ h, http.sentHeader w' = Some h
          ∧ http.Get "Access-Control-Allow-Origin" h = "*"
          ∧ http.Get "Access-Control-Allow-Methods" h = "GET, POST, OPTIONS"
          ∧ http.Get "Access-Control-Allow-Headers" h = "Content-Type, Authorization"
          ∧ http.Get "Access-Control-Expose-Headers" h
            = "Mcp-Session-Id, Content-Type, Cache-Control")
  ∧ (∀ next', corsMiddleware next' r w = w')
  ∧ (∀ server version, http.Path r = "/mcp" → mux true server version next r w = w').
Proof.
  intros Hm Hc Hs w'.
  assert (Hw : ∀ n, corsMiddleware n r w
    = http.WriteHeader http.StatusOK
        (http.SetHeader "Access-Control-Expose-Headers"
                        "Mcp-Session-Id, Content-Type, Cache-Control"
        (http.SetHeader "Access-Control-Allow-Headers" "Content-Type, Authorization"
        (http.SetHeader "Access-Control-Allow-Methods" "GET, POST, OPTIONS"
        (http.SetHeader "Access-Control-Allow-Origin" "*" w))))).
  { intros n. unfold corsMiddleware. by rewrite bool_decide_eq_true_2. }
  subst w'. rewrite !Hw. unfold http.WriteHeader.
    change (http.validCode http.StatusOK && negb (http.informational http.StatusOK)) with true.
  cbn [http.SetHeader http.committed http.header http.sent]. rewrite Hc.
  unfold http.status, http.sentHeader. cbn [http.committed http.sent fmap option_fmap option_map fst snd].
  split_and!.
  - reflexivity.
  - exact Hs.
  - eexists. split; [reflexivity|].
    split_and!.
    + rewrite !Get_Set_ne by done. apply Get_Set_eq.
    + rewrite !Get_Set_ne by done. apply Get_Set_eq.
    + rewrite !Get_Set_ne by done. apply Get_Set_eq.
    + apply Get_Set_eq.
  - intros next'. rewrite Hw. unfold http.WriteHeader.
    change (http.validCode http.StatusOK && negb (http.informational http.StatusOK)) with true.
    cbn [http.SetHeader http.committed http.header http.sent]. by rewrite Hc.
  - intros server version Hp. unfold mux. rewrite bool_decide_eq_true_2 by done.
    rewrite Hw. unfold http.WriteHeader.
    change (http.validCode http.StatusOK && negb (http.informational http.StatusOK)) with true.
    cbn [http.SetHeader http.committed http.header http.sent]. by rewrite Hc.
Qed.

Lemma preflight_witness :
  let r := {| http.Method := "OPTIONS"; http.Path := "/mcp"; http.RemoteAddr := "127.0.0.1:5000" |} in
  let w' := quotes.serve true (fun _ w => snd (http.Write (bytes "forwarded") w)) r http.fresh in
  http.status w' = Some 200 ∧ http.sent w' = [].
Proof.
  intros r w'.
  destruct (preflight (fun _ w => snd (http.Write (bytes "forwarded") w)) r http.fresh)
    as (Hstatus & Hsent & _ & _ & Hmux); [reflexivity..|].
  subst w'. unfold quotes.serve. rewrite Hmux by reflexivity. by split.
Defined.

(** C8. Health check.  For each of the three servers, with CORS on or off
    and whatever the MCP handler is, a [GET] request for [/health] on a
    writer on which nothing was committed or sent commits status 200 with
    Content-Type [application/json], and the body sent is the document
    with the four members [status], [server], [version] and [mcp_endpoint],
    where server name and version are those the MCP server was created
    with.  The response is the same whatever the MCP handler is. *)
Theorem health_check (impl : Implementation) (serve : bool → http.Handler → http.Handler)
    (corsFlag : bool) (handler : http.Handler) (r : http.Request) (w : http.ResponseWriter) :
  (impl, serve) ∈ servers →
  http.Method r = "GET" →
  http.Path r = "/health" →
  http.committed w = None →
  http.sent w = [] →
  let w' := serve corsFlag handler r w in
  http.status w' = Some 200
  ∧ (∃ h, http.sentHeader w' = Some h ∧ http.Get "Content-Type" h = "application/json")
  ∧ http.sent w' = bytes (healthText (Name impl) (Version impl))
  ∧ json.sortedEntries (healthDocument (Name impl) (Version impl))
    = [("mcp_endpoint", "/mcp"); ("server", Name impl);
       ("status", "ok"); ("version", Version impl)]
  ∧ (∀ handler', serve corsFlag handler' r w = w').
Proof.
  intros Hin _ Hp Hc Hs w'.
  assert (Hroute : ∀ server version h,
            mux corsFlag server version h r w = healthHandler corsFlag server version r w).
  { intros server version h. unfold mux. rewrite Hp. reflexivity. }
  assert (Hhealth : ∀ server version,
    let w0 := if corsFlag
              then http.SetHeader "Access-Control-Allow-Headers" "Content-Type, Authorization"
                     (http.SetHeader "Access-Control-Allow-Methods" "GET, POST, OPTIONS"
                        (http.SetHeader "Access-Control-Allow-Origin" "*" w))
              else w in
    let w1 := http.SetHeader "Content-Type" "application/json" w0 in
    healthHandler corsFlag server version r w
    = {| http.header := http.header w1;
         http.committed := Some (http.StatusOK, http.header w1);
         http.sent := bytes (json.Marshal (healthDocument server version)
                             +:+ String "010"%char "") |}).
  { intros server version w0 w1. unfold healthHandler. fold w0. fold w1.
    rewrite Encode_fresh; [|subst w1 w0; by destruct corsFlag].
    f_equal. replace (http.sent w1) with (http.sent w); [by rewrite Hs|].
    subst w1 w0. by destruct corsFlag. }
  assert (Hgoal : ∀ server version,
    json.sortedEntries (healthDocument server version)
      = [("mcp_endpoint", "/mcp"); ("server", server); ("status", "ok"); ("version", version)] →
    bytes (json.Marshal (healthDocument server version) +:+ String "010"%char "")
      = bytes (healthText server version) →
    let w' := mux corsFlag server version handler r w in
    http.status w' = Some 200
    ∧ (∃ h, http.sentHeader w' = Some h ∧ http.Get "Content-Type" h = "application/json")
    ∧ http.sent w' = bytes (healthText server version)
    ∧ json.sortedEntries (healthDocument server version)
      = [("mcp_endpoint", "/mcp"); ("server", server); ("status", "ok"); ("version", version)]
    ∧ (∀ handler', mux corsFlag server version handler' r w = w')).
  { intros server version Hentries Htext w''. subst w''.
    rewrite Hroute, Hhealth. cbv zeta.
    unfold http.status, http.sentHeader.
    cbn [http.committed http.sent fmap option_fmap option_map fst snd].
    split_and!; [reflexivity| |exact Htext|exact Hentries|].
    - eexists. split; [reflexivity|]. apply Get_SetHeader_eq.
    - intros handler'. rewrite Hroute, Hhealth. reflexivity. }
  unfold servers in Hin.
  repeat (apply elem_of_cons in Hin as [Hin|Hin]); [..|by apply elem_of_nil in Hin];
    injection Hin as -> ->; apply Hgoal; vm_compute; reflexivity.
Qed.

Lemma health_check_witness :
  let r := {| http.Method := "GET"; http.Path := "/health"; http.RemoteAddr := "127.0.0.1:5000" |} in
  let w' := weather.serve false (fun _ w => w) r http.fresh in
  http.status w' = Some 200
  ∧ http.sent w' = bytes (healthText "weather-server" "1.0.0").
Proof.
  intros r w'.
  destruct (health_check weather.implementation weather.serve false (fun _ w => w) r http.fresh)
    as (Hstatus & _ & Hsent & _); [|reflexivity..|].
  - unfold servers. do 2 apply list_elem_of_further. apply list_elem_of_here.
  - split; [exact Hstatus|exact Hsent].
Defined.

(** ** float64: digits *)

Lemma digits2_pos_size (p : positive) : digits2_pos p = Pos.size p.
Proof. induction p; cbn; congruence. Qed.

Lemma digits2_pos_bounds (p : positive) :
  2 ^ (Z.pos (digits2_pos p) - 1) <= Z.pos p < 2 ^ Z.pos (digits2_pos p).
Proof.
  induction p as [p IH|p IH|]; cbn [digits2_pos].
  - rewrite Pos2Z.inj_succ.
    replace (Z.succ (Z.pos (digits2_pos p)) - 1) with (Z.succ (Z.pos (digits2_pos p) - 1)) by lia.
    rewrite !Z.pow_succ_r by lia. lia.
  - rewrite Pos2Z.inj_succ.
    replace (Z.succ (Z.pos (digits2_pos p)) - 1) with (Z.succ (Z.pos (digits2_pos p) - 1)) by lia.
    rewrite !Z.pow_succ_r by lia. lia.
  - cbn. lia.
Qed.

Lemma Zdigits2_bounds (m : Z) :
  0 < m → 2 ^ (Zdigits2 m - 1) <= m < 2 ^ Zdigits2 m.
Proof. destruct m; [lia| |lia]. intros _. apply digits2_pos_bounds. Qed.

Lemma Zdigits2_pos (m : Z) : 0 < m → 0 < Zdigits2 m.
Proof. destruct m; cbn; lia. Qed.

Lemma pow2_lt_inv (a b : Z) : 0 <= b → 2 ^ a < 2 ^ b → a < b.
Proof. intros Hb H. apply Z.pow_lt_mono_r_iff in H; lia. Qed.

Lemma Zdigits2_unique (m d : Z) :
  2 ^ (d - 1) <= m < 2 ^ d → 0 < m → Zdigits2 m = d.
Proof.
  intros [Hlo Hhi] Hm.
  pose proof (Zdigits2_bounds m Hm) as [Hlo' Hhi'].
  pose proof (Zdigits2_pos m Hm).
  assert (0 < d).
  { destruct (Z.lt_trichotomy d 0) as [Hd|[->|Hd]]; [|cbn in Hhi; lia|done].
    rewrite (Z.pow_neg_r 2 d) in Hhi by lia. lia. }
  assert (d - 1 < Zdigits2 m) by (apply pow2_lt_inv; lia).
  assert (Zdigits2 m - 1 < d) by (apply pow2_lt_inv; lia).
  lia.
Qed.

Lemma pow2_split (a b : Z) : 0 <= a → 0 <= b → 2 ^ (a + b) = 2 ^ a * 2 ^ b.
Proof. intros. by rewrite Z.pow_add_r. Qed.

Lemma pow2_pos (a : Z) : 0 <= a → 0 < 2 ^ a.
Proof. intros. by apply Z.pow_pos_nonneg. Qed.

(** ** float64: shifting a mantissa *)

Lemma iter_pos_nat {A} (f : A → A) (p : positive) (x : A) :
  SpecFloat.iter_pos f p x = Nat.iter (Pos.to_nat p) f x.
Proof.
  revert x. induction p as [p IH|p IH|]; intros x; cbn [SpecFloat.iter_pos].
  - rewrite !IH, Pos2Nat.inj_xI.
    replace (S (2 * Pos.to_nat p)) with (Pos.to_nat p + (Pos.to_nat p + 1))%nat by lia.
    rewrite !Nat.iter_add. reflexivity.
  - rewrite !IH, Pos2Nat.inj_xO.
    replace (2 * Pos.to_nat p)%nat with (Pos.to_nat p + Pos.to_nat p)%nat by lia.
    rewrite Nat.iter_add. reflexivity.
  - reflexivity.
Qed.

Import f64 (inexact, sgn).

Lemma shr_1_spec (mrs : shr_record) :
  0 <= shr_m mrs →
  shr_m (shr_1 mrs) = shr_m mrs / 2
  ∧ inexact (shr_1 mrs) = inexact mrs || negb (shr_m mrs mod 2 =? 0).
Proof.
  destruct mrs as [m r s]. cbn [shr_m]. intros Hm. unfold inexact.
  destruct m as [|p|p]; [| |lia].
  - cbn. split; [done|]. by rewrite orb_false_r.
  - destruct p as [p|p|]; cbn [shr_1 shr_m shr_r shr_s].
    + split.
      * rewrite Pos2Z.inj_xI. apply Z.div_unique with 1; lia.
      * rewrite Pos2Z.inj_xI.
        replace ((2 * Z.pos p + 1) mod 2) with 1
          by (apply Z.mod_unique with (Z.pos p); lia).
        cbn. by rewrite orb_true_r.
    + split.
      * rewrite Pos2Z.inj_xO. apply Z.div_unique with 0; lia.
      * rewrite Pos2Z.inj_xO.
        replace ((2 * Z.pos p) mod 2) with 0
          by (apply Z.mod_unique with (Z.pos p); lia).
        cbn. by rewrite orb_false_r.
    + split; [done|]. cbn. by rewrite orb_true_r.
Qed.

Lemma shr_iter_spec (n : nat) (mrs : shr_record) :
  0 <= shr_m mrs →
  let mrs' := Nat.iter n shr_1 mrs in
  shr_m mrs' = shr_m mrs / 2 ^ Z.of_nat n
  ∧ inexact mrs' = inexact mrs || negb (shr_m mrs mod 2 ^ Z.of_nat n =? 0).
Proof.
  intros Hm. cbv zeta. induction n as [|n IH].
  - cbn. rewrite Z.div_1_r, Z.mod_1_r. cbn. split; [done|]. by rewrite orb_false_r.
  - rewrite Nat.iter_succ. destruct IH as [IHm IHi].
    set (mrs' := Nat.iter n shr_1 mrs) in *.
    assert (0 < 2 ^ Z.of_nat n) by (apply pow2_pos; lia).
    assert (Hm' : 0 <= shr_m mrs') by (rewrite IHm; apply Z.div_pos; lia).
    destruct (shr_1_spec mrs' Hm') as [H1 H2].
    rewrite Nat2Z.inj_succ, Z.pow_succ_r by lia.
    split.
    + rewrite H1, IHm. rewrite Z.div_div by lia. f_equal. lia.
    + rewrite H2, IHi, IHm. rewrite <- orb_assoc. f_equal.
      set (P := 2 ^ Z.of_nat n) in *. set (M := shr_m mrs) in *.
      pose proof (Z.div_mod M P ltac:(lia)) as HD.
      pose proof (Z.mod_pos_bound M P ltac:(lia)) as HB.
      pose proof (Z.div_mod (M / P) 2 ltac:(lia)) as HD2.
      pose proof (Z.mod_pos_bound (M / P) 2 ltac:(lia)) as HB2.
      assert (HM2 : M mod (2 * P) = M mod P + P * ((M / P) mod 2)).
      { symmetry. apply Z.mod_unique with (M / P / 2); [nia|nia]. }
      rewrite HM2.
      destruct (Z.eqb_spec (M mod P) 0), (Z.eqb_spec ((M / P) mod 2) 0),
        (Z.eqb_spec (M mod P + P * ((M / P) mod 2)) 0); cbn; try done; nia.
Qed.

(** ** float64: the format *)

Lemma fexp_eq (e : Z) : fexp 53 1024 e = Z.max (e - 53) (-1074).
Proof. reflexivity. Qed.

Lemma bounded_inv (m : positive) (e : Z) :
  bounded 53 1024 m e = true →
  -1074 <= e <= 971 ∧ Z.pos m < 2 ^ 53 ∧ (-1074 < e → 2 ^ 52 <= Z.pos m).
Proof.
  unfold bounded, canonical_mantissa. rewrite fexp_eq.
  intros [H1 H2]%andb_true_iff. apply Z.eqb_eq in H1. apply Z.leb_le in H2.
  pose proof (digits2_pos_bounds m) as [Hlo Hhi].
  set (d := Z.pos (digits2_pos m)) in *.
  assert (0 < d) by (subst d; lia).
  split; [lia|]. split.
  - assert (d <= 53) by lia.
    eapply Z.lt_le_trans; [exact Hhi|]. apply Z.pow_le_mono_r; lia.
  - intros He. assert (d = 53) as Hd by lia. rewrite Hd in Hlo. exact Hlo.
Qed.

Lemma bounded_intro (m : positive) (e : Z) :
  -1074 <= e <= 971 → Z.pos m < 2 ^ 53 → (-1074 < e → 2 ^ 52 <= Z.pos m) →
  bounded 53 1024 m e = true.
Proof.
  intros He Hm Hn. unfold bounded, canonical_mantissa. rewrite fexp_eq.
  apply andb_true_iff. split; [|apply Z.leb_le; lia]. apply Z.eqb_eq.
  pose proof (digits2_pos_bounds m) as [Hlo Hhi].
  set (d := Z.pos (digits2_pos m)) in *.
  assert (0 < d) by (subst d; lia).
  assert (d <= 53).
  { assert (d - 1 < 53); [|lia]. apply pow2_lt_inv; lia. }
  destruct (Z.eq_dec e (-1074)) as [->|Hne]; [lia|].
  assert (53 - 1 < d); [|lia].
  apply pow2_lt_inv; [lia|]. specialize (Hn ltac:(lia)). change (53 - 1) with 52. lia.
Qed.

(** ** float64: rounding *)

Lemma inexact_of_loc (m : Z) (l : location) :
  shr_m (shr_record_of_loc m l) = m
  ∧ (inexact (shr_record_of_loc m l) = false ↔ l = loc_Exact).
Proof. destruct l as [|[]]; cbn; split; try done; split; done. Qed.

Lemma round_nearest_even_bounds (mrs : shr_record) :
  let m := round_nearest_even (shr_m mrs) (loc_of_shr_record mrs) in
  shr_m mrs <= m <= shr_m mrs + 1 ∧ (inexact mrs = false → m = shr_m mrs).
Proof.
  destruct mrs as [m [] []]; cbn; try destruct (Z.even m); repeat split; try lia; done.
Qed.

Lemma shr_spec (mrs : shr_record) (e n : Z) :
  0 <= shr_m mrs → 0 <= n →
  ∃ mrs', shr mrs e n = (mrs', e + n)
    ∧ shr_m mrs' = shr_m mrs / 2 ^ n
    ∧ inexact mrs' = inexact mrs || negb (shr_m mrs mod 2 ^ n =? 0).
Proof.
  intros Hm Hn. unfold shr. destruct n as [|p|p]; [| |lia].
  - exists mrs. rewrite Z.add_0_r, Z.div_1_r, Z.mod_1_r. cbn. by rewrite orb_false_r.
  - exists (SpecFloat.iter_pos shr_1 p mrs). split; [done|].
    rewrite iter_pos_nat.
    destruct (shr_iter_spec (Pos.to_nat p) mrs Hm) as [H1 H2].
    rewrite positive_nat_Z in *. done.
Qed.

Lemma shr_nonpos (mrs : shr_record) (e n : Z) : n <= 0 → shr mrs e n = (mrs, e).
Proof. intros Hn. unfold shr. destruct n; [done|lia|done]. Qed.

(** What [binary_round_aux] computes: the mantissa [M] is cut down to the
    exponent [e'] of the format, giving [q]; rounding yields [m1], which is
    [q] or [q + 1]; a mantissa of [2 ^ 53] is renormalised. *)
Lemma binary_round_aux_spec (s : bool) (M E : Z) (l : location) :
  0 <= M → E <= fexp 53 1024 (Zdigits2 M + E) →
  let e' := fexp 53 1024 (Zdigits2 M + E) in
  let q := M / 2 ^ (e' - E) in
  ∃ m1, q <= m1 <= q + 1
    ∧ (l = loc_Exact → M mod 2 ^ (e' - E) = 0 → m1 = q)
    ∧ q < 2 ^ 53 ∧ (-1074 < e' → 2 ^ 52 <= q) ∧ -1074 <= e'
    ∧ binary_round_aux 53 1024 s M E l
      = if m1 =? 0 then S754_zero s
        else if m1 =? 2 ^ 53 then
               if e' + 1 <=? 971 then S754_finite s (Z.to_pos (2 ^ 52)) (e' + 1)
               else S754_infinity s
             else if e' <=? 971 then S754_finite s (Z.to_pos m1) e'
                  else S754_infinity s.
Proof.
  intros HM Hn e' q.
  assert (He' : -1074 <= e') by (subst e'; rewrite fexp_eq; lia).
  assert (HnE : E <= e') by (subst e'; exact Hn).
  assert (Hq0 : 0 <= q) by (subst q; apply Z.div_pos; [lia|apply pow2_pos; lia]).
  assert (HP : 0 < 2 ^ (e' - E)) by (apply pow2_pos; lia).
  (* the size of q *)
  assert (Hq : q < 2 ^ 53 ∧ (-1074 < e' → 2 ^ 52 <= q)).
  { destruct (Z.eq_dec M 0) as [->|HM0].
    - subst q. rewrite Z.div_0_l by lia. split; [lia|].
      subst e'. cbn [Zdigits2] in *. unfold fexp, emin in *. lia.
    - pose proof (Zdigits2_bounds M ltac:(lia)) as [Hlo Hhi].
      pose proof (Zdigits2_pos M ltac:(lia)) as Hd.
      set (d := Zdigits2 M) in *.
      assert (e' = Z.max (d + E - 53) (-1074)) as He'eq by (subst e'; apply fexp_eq).
      assert (E <= e') as Hn2 by (subst e'; exact Hn).
      clearbody e'. clear Hn.
      split.
      + subst q. apply Z.div_lt_upper_bound; [lia|].
        rewrite <- Z.pow_add_r by lia.
        eapply Z.lt_le_trans; [exact Hhi|]. apply Z.pow_le_mono_r; lia.
      + intros Hnorm. assert (e' - E = d - 53) as Hn' by lia.
        subst q. rewrite Hn'. apply Z.div_le_lower_bound; [apply pow2_pos; lia|].
        rewrite <- Z.pow_add_r by lia.
        replace (d - 53 + 52) with (d - 1) by lia. exact Hlo. }
  destruct Hq as [Hq53 Hq52].
  (* first shift *)
  unfold binary_round_aux, shr_fexp. fold e'.
  destruct (inexact_of_loc M l) as [Hm0 Hl0].
  destruct (shr_spec (shr_record_of_loc M l) E (e' - E)) as (mrs' & Hshr & Hm' & Hi');
    [lia|lia|].
  rewrite Hshr. replace (E + (e' - E)) with e' by lia.
  rewrite Hm0 in Hm', Hi'. fold q in Hm'.
  pose proof (round_nearest_even_bounds mrs') as [Hb Hex]. cbv zeta in Hb, Hex.
  set (m1 := round_nearest_even (shr_m mrs') (loc_of_shr_record mrs')) in *.
  rewrite Hm' in Hb, Hex.
  exists m1. split; [exact Hb|]. split.
  { intros -> Hmod. apply Hex. rewrite Hi'.
    destruct Hl0 as [_ ->]; [|done]. rewrite Hmod. done. }
  split; [exact Hq53|]. split; [exact Hq52|]. split; [exact He'|].
  (* second shift *)
  destruct (Z.eqb_spec m1 0) as [->|Hm10].
  - rewrite shr_nonpos; [done|]. cbn [Zdigits2]. rewrite fexp_eq. lia.
  - assert (0 < m1) by lia.
    destruct (Z.eqb_spec m1 (2 ^ 53)) as [Hm1|Hm1].
    + assert (Zdigits2 m1 = 54) as Hd by (rewrite Hm1; reflexivity).
      assert (Hfe : fexp 53 1024 (Zdigits2 m1 + e') - e' = 1).
      { rewrite Hd, fexp_eq. lia. }
      rewrite Hfe, Hm1. cbn [shr shr_record_of_loc SpecFloat.iter_pos shr_1 shr_m].
      change (Z.pos (Z.to_pos (2 ^ 52))) with (2 ^ 52). reflexivity.
    + assert (Hfe : fexp 53 1024 (Zdigits2 m1 + e') - e' = 0).
      { rewrite fexp_eq.
        pose proof (Zdigits2_bounds m1 ltac:(lia)) as [Hlo Hhi].
        pose proof (Zdigits2_pos m1 ltac:(lia)).
        assert (m1 < 2 ^ 53) by lia.
        assert (Zdigits2 m1 <= 53).
        { assert (Zdigits2 m1 - 1 < 53); [|lia]. apply pow2_lt_inv; lia. }
        destruct (Z.eq_dec e' (-1074)) as [Heq|Hne]; [lia|].
        assert (52 < Zdigits2 m1); [|lia].
        apply pow2_lt_inv; [lia|]. specialize (Hq52 ltac:(lia)). lia. }
      rewrite Hfe. cbn [shr shr_record_of_loc shr_m].
      destruct m1 as [|p|p]; [lia| |lia]. reflexivity.
Qed.

(** ** float64: values and bounds of the operations *)

Section Values.

Variable S : Z.
Hypothesis HS : 2200 <= S.

Abbreviation mag := (f64.mag S).
Abbreviation v := (f64.value S).
Abbreviation FZ := f64.wellformed.

Lemma mag_nonneg (x : float64) : FZ x → 0 <= mag x.
Proof.
  destruct x as [| | |s m e]; cbn [mag FZ]; [lia..|]. intros H%bounded_inv.
  assert (0 < 2 ^ (e + S)) by (apply pow2_pos; lia). nia.
Qed.

Lemma pow53 : 2 ^ 53 = 2 * 2 ^ 52.
Proof. reflexivity. Qed.

(** Upper bound: rounding does not step over a number of the format. *)
Lemma round_upper (s : bool) (M E : Z) (l : location) (num den : Z) (hi : float64) :
  0 <= M → 0 <= E + S → E <= fexp 53 1024 (Zdigits2 M + E) → 0 < den →
  M * 2 ^ (E + S) * den <= num →
  (l = loc_Exact → num = M * 2 ^ (E + S) * den) →
  (l ≠ loc_Exact → M * 2 ^ (E + S) * den < num) →
  FZ hi → num <= mag hi * den →
  let r := binary_round_aux 53 1024 s M E l in
  FZ r ∧ sgn r = s ∧ mag r <= mag hi.
Proof.
  intros HM HES Hn Hden Hlo Hex Hinex Hhi Hnum.
  destruct (binary_round_aux_spec s M E l HM Hn) as (m1 & Hm1 & Hm1q & Hq53 & Hq52 & He' & ->).
  cbv zeta in *.
  set (e' := fexp 53 1024 (Zdigits2 M + E)) in *.
  set (n := e' - E) in *.
  assert (Hn0 : 0 <= n) by (subst n; lia).
  set (q := M / 2 ^ n) in *.
  pose proof (pow2_pos n Hn0) as HPn.
  pose proof (pow2_pos (E + S) HES) as HPE.
  assert (HP : 2 ^ (e' + S) = 2 ^ n * 2 ^ (E + S)).
  { rewrite <- Z.pow_add_r by lia. f_equal. subst n. lia. }
  pose proof (Z.div_mod M (2 ^ n) ltac:(lia)) as HD. fold q in HD.
  pose proof (Z.mod_pos_bound M (2 ^ n) ltac:(lia)) as HB.
  set (rho := M mod 2 ^ n) in *.
  set (Pn := 2 ^ n) in *. set (PE := 2 ^ (E + S)) in *. set (P := 2 ^ (e' + S)) in *.
  assert (Hq0 : 0 <= q) by (subst q; apply Z.div_pos; lia).
  assert (HPpos : 0 < P) by (subst P; apply pow2_pos; lia).
  (* the rounded mantissa is below the bound *)
  assert (Hkey : m1 * P <= mag hi).
  { assert (HPEden : 0 < PE * den) by lia.
    assert (HqM : q * Pn <= M) by lia.
    assert (HqP : q * P * den <= num).
    { assert (q * Pn * (PE * den) <= M * (PE * den))
        by (apply Z.mul_le_mono_nonneg_r; lia).
      rewrite HP. lia. }
    assert (Hstrict : m1 = q + 1 → q * P * den < num).
    { intros Hm.
      assert (l = loc_Exact ∨ l ≠ loc_Exact) as [Hl|Hl] by (destruct l; [by left|by right]).
      - destruct (Z.eq_dec rho 0) as [Hr|Hr]; [specialize (Hm1q Hl Hr); lia|].
        assert (q * Pn < M) by lia.
        assert (q * Pn * (PE * den) < M * (PE * den))
          by (apply Z.mul_lt_mono_pos_r; lia).
        rewrite HP. lia.
      - specialize (Hinex Hl). rewrite HP. lia. }
    destruct (Z.eq_dec m1 q) as [->|Hne]; [nia|].
    assert (m1 = q + 1) as Hm by lia. specialize (Hstrict Hm). rewrite Hm.
    assert (Hlt : q * P < mag hi) by nia.
    destruct hi as [| | |sb mb eb]; cbn [mag FZ] in *; try lia.
    apply bounded_inv in Hhi as (Heb & Hmb & Hnb).
    destruct (Z.le_gt_cases e' eb) as [Hle|Hgt].
    - assert (2 ^ (eb + S) = 2 ^ (eb - e') * P) as Heq.
      { subst P. rewrite <- Z.pow_add_r by lia. f_equal. lia. }
      pose proof (pow2_pos (eb - e') ltac:(lia)).
      rewrite Heq in *. rewrite Z.mul_assoc in *.
      assert (Hq1 : q < Z.pos mb * 2 ^ (eb - e')).
      { apply (Z.mul_lt_mono_pos_r P); [done|]. lia. }
      assert (Hq2 : q + 1 <= Z.pos mb * 2 ^ (eb - e')) by lia.
      apply (Z.mul_le_mono_nonneg_r _ _ P) in Hq2; lia.
    - exfalso. specialize (Hq52 ltac:(lia)).
      assert (P = 2 ^ (e' - eb) * 2 ^ (eb + S)) as HPeq.
      { subst P. rewrite <- Z.pow_add_r by lia. f_equal. lia. }
      assert (2 <= 2 ^ (e' - eb)).
      { change 2 with (2 ^ 1) at 1. apply Z.pow_le_mono_r; lia. }
      pose proof (pow2_pos (eb + S) ltac:(lia)).
      rewrite pow53 in Hmb. set (T := 2 ^ 52) in *.
      set (A := 2 ^ (e' - eb)) in *. set (B := 2 ^ (eb + S)) in *.
      rewrite HPeq in Hlt. nia. }
  assert (Hhi1024 : mag hi < 2 ^ 53 * 2 ^ (971 + S)).
  { destruct hi as [| | |sb mb eb]; cbn [mag FZ] in *;
      try (assert (0 < 2 ^ 53 * 2 ^ (971 + S)); [apply Z.mul_pos_pos; apply pow2_pos; lia|lia]).
    apply bounded_inv in Hhi as (Heb & Hmb & Hnb).
    assert (2 ^ (eb + S) <= 2 ^ (971 + S)) by (apply Z.pow_le_mono_r; lia).
    pose proof (pow2_pos (eb + S) ltac:(lia)). nia. }
  destruct (Z.eqb_spec m1 0) as [Hm10|Hm10].
  { cbn. split; [done|]. split; [done|]. apply mag_nonneg, Hhi. }
  destruct (Z.eqb_spec m1 (2 ^ 53)) as [Hm153|Hm153].
  - assert (He971 : e' + 1 <= 971).
    { destruct (Z.le_gt_cases (e' + 1) 971); [done|]. exfalso.
      assert (2 ^ (971 + S) <= P) by (subst P; apply Z.pow_le_mono_r; lia).
      rewrite Hm153 in Hkey. set (T53 := 2 ^ 53) in *.
      assert (0 < T53) by (subst T53; apply pow2_pos; lia).
      assert (0 < 2 ^ (971 + S)) by (apply pow2_pos; lia). nia. }
    rewrite (proj2 (Z.leb_le _ _) He971). cbn [FZ sgn mag].
    split; [apply bounded_intro; [lia|reflexivity|done]|]. split; [done|].
    change (Z.pos (Z.to_pos (2 ^ 52))) with (2 ^ 52).
    replace (e' + 1 + S) with (1 + (e' + S)) by lia. rewrite Z.pow_add_r by lia.
    fold P. rewrite Hm153, pow53 in Hkey. change (2 ^ 1) with 2. lia.
  - assert (0 < m1 < 2 ^ 53) as Hm1r by lia.
    assert (He971 : e' <= 971).
    { destruct (Z.le_gt_cases e' 971); [done|]. exfalso.
      specialize (Hq52 ltac:(lia)).
      assert (HPeq : P = 2 ^ (e' - 971) * 2 ^ (971 + S)).
      { subst P. rewrite <- Z.pow_add_r by lia. f_equal. lia. }
      assert (2 <= 2 ^ (e' - 971)).
      { change 2 with (2 ^ 1) at 1. apply Z.pow_le_mono_r; lia. }
      pose proof (pow2_pos (971 + S) ltac:(lia)).
      rewrite pow53 in Hhi1024. set (T := 2 ^ 52) in *.
      set (A := 2 ^ (e' - 971)) in *. set (B := 2 ^ (971 + S)) in *.
      rewrite HPeq in Hkey. nia. }
    rewrite (proj2 (Z.leb_le _ _) He971). cbn [FZ sgn mag].
    rewrite Z2Pos.id by lia.
    split; [apply bounded_intro; [lia|lia|intros; specialize (Hq52 ltac:(lia)); lia]|].
    split; [done|]. exact Hkey.
Qed.

(** Lower bound: rounding does not step below a number of the format. *)
Lemma round_lower (s : bool) (M E : Z) (l : location) (num den : Z) (lo : float64) :
  0 <= M → 0 <= E + S → E <= fexp 53 1024 (Zdigits2 M + E) → 0 < den →
  num < (M + 1) * 2 ^ (E + S) * den →
  FZ lo → mag lo * den <= num →
  let r := binary_round_aux 53 1024 s M E l in
  FZ r → mag lo <= mag r.
Proof.
  intros HM HES Hn Hden Hup Hlo Hnum.
  destruct (binary_round_aux_spec s M E l HM Hn) as (m1 & Hm1 & Hm1q & Hq53 & Hq52 & He' & ->).
  cbv zeta in *.
  set (e' := fexp 53 1024 (Zdigits2 M + E)) in *.
  set (n := e' - E) in *.
  assert (Hn0 : 0 <= n) by (subst n; lia).
  set (q := M / 2 ^ n) in *.
  pose proof (pow2_pos n Hn0) as HPn.
  pose proof (pow2_pos (E + S) HES) as HPE.
  assert (HP : 2 ^ (e' + S) = 2 ^ n * 2 ^ (E + S)).
  { rewrite <- Z.pow_add_r by lia. f_equal. subst n. lia. }
  pose proof (Z.div_mod M (2 ^ n) ltac:(lia)) as HD. fold q in HD.
  pose proof (Z.mod_pos_bound M (2 ^ n) ltac:(lia)) as HB.
  set (rho := M mod 2 ^ n) in *.
  set (Pn := 2 ^ n) in *. set (PE := 2 ^ (E + S)) in *. set (P := 2 ^ (e' + S)) in *.
  assert (Hq0 : 0 <= q) by (subst q; apply Z.div_pos; lia).
  assert (HPpos : 0 < P) by (subst P; apply pow2_pos; lia).
  assert (Hkey : mag lo <= q * P).
  { assert (HPEden : 0 < PE * den) by lia.
    assert (HMq : M + 1 <= (q + 1) * Pn) by lia.
    assert (Hlt : mag lo * den < (q + 1) * P * den).
    { assert ((M + 1) * (PE * den) <= (q + 1) * Pn * (PE * den))
        by (apply Z.mul_le_mono_nonneg_r; lia).
      rewrite HP. lia. }
    assert (Hlt' : mag lo < (q + 1) * P).
    { apply (Z.mul_lt_mono_pos_r den); [done|]. lia. }
    destruct lo as [| | |sl ml el]; cbn [mag FZ] in *; try lia.
    apply bounded_inv in Hlo as (Hel & Hml & Hnl).
    destruct (Z.le_gt_cases e' el) as [Hle|Hgt].
    - assert (2 ^ (el + S) = 2 ^ (el - e') * P) as Heq.
      { subst P. rewrite <- Z.pow_add_r by lia. f_equal. lia. }
      pose proof (pow2_pos (el - e') ltac:(lia)).
      rewrite Heq in *. rewrite Z.mul_assoc in *.
      assert (Hq1 : Z.pos ml * 2 ^ (el - e') < q + 1).
      { apply (Z.mul_lt_mono_pos_r P); [done|]. lia. }
      assert (Hq2 : Z.pos ml * 2 ^ (el - e') <= q) by lia.
      apply (Z.mul_le_mono_nonneg_r _ _ P) in Hq2; lia.
    - specialize (Hq52 ltac:(lia)).
      assert (P = 2 ^ (e' - el) * 2 ^ (el + S)) as HPeq.
      { subst P. rewrite <- Z.pow_add_r by lia. f_equal. lia. }
      assert (2 <= 2 ^ (e' - el)).
      { change 2 with (2 ^ 1) at 1. apply Z.pow_le_mono_r; lia. }
      pose proof (pow2_pos (el + S) ltac:(lia)).
      rewrite pow53 in Hml. set (T := 2 ^ 52) in *.
      set (A := 2 ^ (e' - el)) in *. set (B := 2 ^ (el + S)) in *.
      rewrite HPeq. nia. }
  assert (Hm1P : q * P <= m1 * P) by (apply Z.mul_le_mono_nonneg_r; lia).
  destruct (Z.eqb_spec m1 0) as [Hm10|Hm10].
  { cbn [mag]. intros _. rewrite Hm10 in Hm1P. lia. }
  destruct (Z.eqb_spec m1 (2 ^ 53)) as [Hm153|Hm153].
  - destruct (Z.leb_spec (e' + 1) 971); [|done]. intros _. cbn [mag].
    change (Z.pos (Z.to_pos (2 ^ 52))) with (2 ^ 52).
    replace (e' + 1 + S) with (1 + (e' + S)) by lia. rewrite Z.pow_add_r by lia.
    fold P. rewrite Hm153, pow53 in Hm1P. change (2 ^ 1) with 2. lia.
  - destruct (Z.leb_spec e' 971); [|done]. intros _. cbn [mag].
    rewrite Z2Pos.id by lia. fold P. lia.
Qed.

Lemma v_mag (x : float64) : v x = if sgn x then - mag x else mag x.
Proof. reflexivity. Qed.

Lemma shl_align_spec (mx : positive) (ex ez : Z) :
  ez <= ex →
  let '(mz, ez') := shl_align mx ex ez in
  ez' = ez ∧ Z.pos mz = Z.pos mx * 2 ^ (ex - ez).
Proof.
  intros Hle. unfold shl_align.
  destruct (ez - ex) as [|d|d] eqn:Hd; [|lia|].
  - assert (ex = ez) as -> by lia. rewrite Z.sub_diag. cbn. split; lia.
  - split; [done|]. pose proof (shift_pos_correct d mx) as Hs.
    unfold shift_pos in Hs. rewrite Hs.
    replace (ex - ez) with (Z.pos d) by lia. change (Z.pow_pos 2 d) with (2 ^ Z.pos d). lia.
Qed.

Lemma shl_align_fst (mx : positive) (ex ez : Z) :
  ez <= ex → Z.pos (shl_align mx ex ez).1 = Z.pos mx * 2 ^ (ex - ez).
Proof.
  intros H. pose proof (shl_align_spec mx ex ez H) as Hs.
  destruct (shl_align mx ex ez). cbn. tauto.
Qed.

Lemma Zdigits2_ge53 (M : Z) : 2 ^ 52 <= M → 53 <= Zdigits2 M.
Proof.
  intros H. assert (0 < M) by lia.
  pose proof (Zdigits2_bounds M ltac:(lia)) as [_ Hhi].
  pose proof (Zdigits2_pos M ltac:(lia)).
  assert (52 < Zdigits2 M); [|lia]. apply pow2_lt_inv; lia.
Qed.

Lemma Zdigits2_mul_pow (m : positive) (k : Z) :
  0 <= k → Zdigits2 (Z.pos m * 2 ^ k) = Zdigits2 (Z.pos m) + k.
Proof.
  intros Hk. pose proof (Zdigits2_bounds (Z.pos m) ltac:(lia)) as [Hlo Hhi].
  pose proof (Zdigits2_pos (Z.pos m) ltac:(lia)).
  pose proof (pow2_pos k Hk).
  apply Zdigits2_unique; [|lia].
  replace (Zdigits2 (Z.pos m) + k - 1) with (Zdigits2 (Z.pos m) - 1 + k) by lia.
  rewrite !Z.pow_add_r by lia. nia.
Qed.

(** What [binary_round] rounds, and that it meets the precondition of the
    rounding lemmas. *)
Lemma binary_round_unfold (s : bool) (mx : positive) (ex : Z) :
  0 <= ex + S →
  ∃ M E, binary_round 53 1024 s mx ex = binary_round_aux 53 1024 s M E loc_Exact
    ∧ 0 < M ∧ 0 <= E + S
    ∧ M * 2 ^ (E + S) = Z.pos mx * 2 ^ (ex + S)
    ∧ E <= fexp 53 1024 (Zdigits2 M + E).
Proof.
  intros HexS. unfold binary_round.
  set (e1 := fexp 53 1024 (Z.pos (digits2_pos mx) + ex)).
  assert (He1 : e1 = Z.max (Zdigits2 (Z.pos mx) + ex - 53) (-1074)) by (subst e1; apply fexp_eq).
  destruct (Z.le_gt_cases e1 ex) as [Hle|Hgt].
  - pose proof (shl_align_spec mx ex e1 Hle) as Hs.
    destruct (shl_align mx ex e1) as [mz ez]. destruct Hs as [-> Hmz].
    exists (Z.pos mz), e1. split; [done|]. split; [lia|]. split; [lia|].
    split.
    + rewrite Hmz, <- Z.mul_assoc, <- Z.pow_add_r by lia. f_equal. f_equal. lia.
    + rewrite Hmz, Zdigits2_mul_pow by lia. rewrite fexp_eq. lia.
  - unfold shl_align. destruct (e1 - ex) as [|d|d] eqn:Hd; [lia| |lia].
    exists (Z.pos mx), ex. split; [done|]. split; [lia|]. split; [lia|].
    split; [done|]. change (ex <= e1). lia.
Qed.

Lemma binary_round_upper (s : bool) (mx : positive) (ex : Z) (hi : float64) :
  0 <= ex + S → FZ hi → Z.pos mx * 2 ^ (ex + S) <= mag hi * 1 →
  let r := binary_round 53 1024 s mx ex in
  FZ r ∧ sgn r = s ∧ mag r <= mag hi.
Proof.
  intros HexS Hhi Hh.
  destruct (binary_round_unfold s mx ex HexS) as (M & E & -> & HM & HES & Hval & Hn).
  assert (0 < 2 ^ (E + S)) by (apply pow2_pos; lia).
  apply (round_upper s M E loc_Exact (M * 2 ^ (E + S)) 1 hi); try lia; done.
Qed.

Lemma binary_round_lower (s : bool) (mx : positive) (ex : Z) (lo : float64) :
  0 <= ex + S → FZ lo → mag lo * 1 <= Z.pos mx * 2 ^ (ex + S) →
  let r := binary_round 53 1024 s mx ex in
  FZ r → mag lo <= mag r.
Proof.
  intros HexS Hlo Hl.
  destruct (binary_round_unfold s mx ex HexS) as (M & E & -> & HM & HES & Hval & Hn).
  assert (0 < 2 ^ (E + S)) by (apply pow2_pos; lia).
  apply (round_lower s M E loc_Exact (M * 2 ^ (E + S)) 1 lo); try lia; done.
Qed.

Lemma mag_v_nonneg (x : float64) : FZ x → 0 <= v x → mag x = v x.
Proof. intros H%mag_nonneg. unfold v. destruct (sgn x); lia. Qed.

Lemma mag_v_nonpos (x : float64) : FZ x → v x <= 0 → mag x = - v x.
Proof. intros H%mag_nonneg. unfold v. destruct (sgn x); lia. Qed.

(** From bounds on the magnitude to bounds on the signed value. *)
Lemma signed_bounds (s : bool) (r lo hi : float64) (X den : Z) :
  0 < den → 0 <= X →
  (∀ hi', FZ hi' → X <= mag hi' * den → FZ r ∧ sgn r = s ∧ mag r <= mag hi') →
  (∀ lo', FZ lo' → mag lo' * den <= X → FZ r → mag lo' <= mag r) →
  FZ lo → FZ hi →
  v lo * den <= (if s then - X else X) <= v hi * den →
  FZ r ∧ v lo <= v r <= v hi.
Proof.
  intros Hden HX Hup Hdown Hlo Hhi [Hl Hh]. destruct s.
  - assert (v lo <= 0) by nia.
    pose proof (mag_v_nonpos lo Hlo ltac:(lia)) as Hml.
    destruct (Hup lo Hlo ltac:(nia)) as (HFZ & Hsgn & Hmag).
    split; [done|]. unfold v at 2 3. rewrite Hsgn. split; [lia|].
    destruct (Z.le_gt_cases 0 (v hi)) as [Hpos|Hneg].
    + pose proof (mag_nonneg r HFZ). lia.
    + pose proof (mag_v_nonpos hi Hhi ltac:(lia)) as Hmh.
      pose proof (Hdown hi Hhi ltac:(nia) HFZ). lia.
  - assert (0 <= v hi) by nia.
    pose proof (mag_v_nonneg hi Hhi ltac:(lia)) as Hmh.
    destruct (Hup hi Hhi ltac:(nia)) as (HFZ & Hsgn & Hmag).
    split; [done|]. unfold v at 2 3. rewrite Hsgn. split; [|lia].
    destruct (Z.le_gt_cases (v lo) 0) as [Hneg|Hpos].
    + pose proof (mag_nonneg r HFZ). lia.
    + pose proof (mag_v_nonneg lo Hlo ltac:(lia)) as Hml.
      pose proof (Hdown lo Hlo ltac:(nia) HFZ). lia.
Qed.

Lemma binary_normalize_bounds (m e : Z) (lo hi : float64) :
  0 <= e + S → FZ lo → FZ hi →
  v lo * 1 <= m * 2 ^ (e + S) <= v hi * 1 →
  let r := binary_normalize 53 1024 m e false in
  FZ r ∧ v lo <= v r <= v hi.
Proof.
  intros HeS Hlo Hhi Hb. pose proof (pow2_pos (e + S) HeS) as HP.
  destruct m as [|p|p]; cbn [binary_normalize]; cbv zeta.
  - cbn. lia.
  - apply (signed_bounds false _ lo hi (Z.pos p * 2 ^ (e + S)) 1); try lia; try done.
    + intros hi' Hhi' Hle. by apply binary_round_upper.
    + intros lo' Hlo' Hle. by apply binary_round_lower.
  - apply (signed_bounds true _ lo hi (Z.pos p * 2 ^ (e + S)) 1); try lia; try done.
    + intros hi' Hhi' Hle. by apply binary_round_upper.
    + intros lo' Hlo' Hle. by apply binary_round_lower.
Qed.

(** Every small enough multiple of a power of two is a number of the
    format. *)
Lemma representable (s : bool) (a e : Z) :
  0 < a < 2 ^ 53 → -1074 <= e <= 971 →
  ∃ B, FZ B ∧ sgn B = s ∧ mag B = a * 2 ^ (e + S).
Proof.
  intros Ha He.
  pose proof (Zdigits2_bounds a ltac:(lia)) as [Hlo Hhi].
  pose proof (Zdigits2_pos a ltac:(lia)) as Hd.
  set (d := Zdigits2 a) in *.
  assert (d <= 53).
  { assert (d - 1 < 53); [|lia]. apply pow2_lt_inv; lia. }
  set (j := Z.min (53 - d) (e + 1074)).
  assert (0 <= j) by lia.
  pose proof (pow2_pos j ltac:(lia)) as Hj.
  exists (S754_finite s (Z.to_pos (a * 2 ^ j)) (e - j)).
  cbn [FZ sgn mag]. rewrite Z2Pos.id by nia.
  split; [|split; [done|]].
  - apply bounded_intro; [lia| |].
    + assert (2 ^ d * 2 ^ j <= 2 ^ 53).
      { rewrite <- Z.pow_add_r by lia. apply Z.pow_le_mono_r; lia. }
      nia.
    + intros Hn. assert (j = 53 - d) as Hj' by lia.
      assert (2 ^ 52 = 2 ^ (d - 1) * 2 ^ j) as ->.
      { rewrite <- Z.pow_add_r by lia. f_equal. lia. }
      nia.
  - rewrite <- Z.mul_assoc, <- Z.pow_add_r by lia. f_equal. f_equal. lia.
Qed.

Lemma representable_signed (z e : Z) :
  Z.abs z < 2 ^ 53 → -1074 <= e <= 971 → ∃ B, FZ B ∧ v B = z * 2 ^ (e + S).
Proof.
  intros Hz He. destruct (Z.lt_trichotomy z 0) as [Hneg|[->|Hpos]].
  - destruct (representable true (- z) e ltac:(lia) He) as (B & HB & Hs & Hm).
    exists B. split; [done|]. unfold v. rewrite Hs, Hm. lia.
  - exists (S754_zero false). split; [done|]. cbn. lia.
  - destruct (representable false z e ltac:(lia) He) as (B & HB & Hs & Hm).
    exists B. split; [done|]. unfold v. by rewrite Hs, Hm.
Qed.

(** Conversion of an integer below [2 ^ 53] in magnitude is exact. *)
Lemma of_Z_exact (z : Z) :
  Z.abs z < 2 ^ 53 →
  let r := binary_normalize 53 1024 z 0 false in
  FZ r ∧ v r = z * 2 ^ S.
Proof.
  intros Hz. destruct (representable_signed z 0 Hz ltac:(lia)) as (B & HB & HvB).
  rewrite Z.add_0_l in HvB.
  destruct (binary_normalize_bounds z 0 B B) as [HFZ Hv]; [lia|done|done| |].
  - rewrite Z.add_0_l. lia.
  - split; [done|]. cbv zeta in Hv. lia.
Qed.

Lemma v_finite (s : bool) (m : positive) (e : Z) :
  v (S754_finite s m e) = cond_Zopp s (Z.pos m * 2 ^ (e + S)).
Proof. unfold v. cbn [sgn mag]. by destruct s. Qed.

Lemma aligned_value (s : bool) (m : positive) (e ez : Z) :
  ez <= e → 0 <= ez + S →
  cond_Zopp s (Z.pos (shl_align m e ez).1) * 2 ^ (ez + S) = v (S754_finite s m e).
Proof.
  intros Hle HS'. rewrite v_finite, shl_align_fst by done.
  assert (2 ^ (e + S) = 2 ^ (e - ez) * 2 ^ (ez + S)) as ->.
  { rewrite <- Z.pow_add_r by lia. f_equal. lia. }
  destruct s; cbn [cond_Zopp]; lia.
Qed.

Lemma FZ_exp (s : bool) (m : positive) (e : Z) : FZ (S754_finite s m e) → -1074 <= e <= 971.
Proof. cbn. intros H%bounded_inv. lia. Qed.

Lemma add_bounds (x y lo hi : float64) :
  FZ x → FZ y → FZ lo → FZ hi →
  v lo <= v x + v y <= v hi →
  FZ (SFadd 53 1024 x y) ∧ v lo <= v (SFadd 53 1024 x y) <= v hi.
Proof.
  intros Hx Hy Hlo Hhi Hb.
  destruct x as [sx| | |sx mx ex], y as [sy| | |sy my ey]; try done.
  - cbn [SFadd]. assert (v (S754_zero sx) = 0) as Hx0 by (unfold v; cbn; by destruct sx).
    assert (v (S754_zero sy) = 0) as Hy0 by (unfold v; cbn; by destruct sy).
    destruct sx, sy; (split; [done|]); unfold v in *; cbn in *; lia.
  - cbn [SFadd]. split; [done|].
    assert (v (S754_zero sx) = 0) as Hx0 by (unfold v; cbn; by destruct sx). lia.
  - cbn [SFadd]. split; [done|].
    assert (v (S754_zero sy) = 0) as Hy0 by (unfold v; cbn; by destruct sy). lia.
  - cbn [SFadd]. pose proof (FZ_exp _ _ _ Hx). pose proof (FZ_exp _ _ _ Hy).
    apply binary_normalize_bounds; [lia|done|done|].
    rewrite Z.mul_add_distr_r, !aligned_value by lia. lia.
Qed.

Lemma sub_bounds (x y lo hi : float64) :
  FZ x → FZ y → FZ lo → FZ hi →
  v lo <= v x - v y <= v hi →
  FZ (SFsub 53 1024 x y) ∧ v lo <= v (SFsub 53 1024 x y) <= v hi.
Proof.
  intros Hx Hy Hlo Hhi Hb.
  destruct x as [sx| | |sx mx ex], y as [sy| | |sy my ey]; try done.
  - cbn [SFsub]. assert (v (S754_zero sx) = 0) as Hx0 by (unfold v; cbn; by destruct sx).
    assert (v (S754_zero sy) = 0) as Hy0 by (unfold v; cbn; by destruct sy).
    destruct sx, sy; (split; [done|]); unfold v in *; cbn in *; lia.
  - cbn [SFsub]. split; [done|].
    assert (v (S754_zero sx) = 0) as Hx0 by (unfold v; cbn; by destruct sx).
    rewrite v_finite in *. destruct sy; cbn [negb cond_Zopp] in *; lia.
  - cbn [SFsub]. split; [done|].
    assert (v (S754_zero sy) = 0) as Hy0 by (unfold v; cbn; by destruct sy). lia.
  - cbn [SFsub]. pose proof (FZ_exp _ _ _ Hx). pose proof (FZ_exp _ _ _ Hy).
    apply binary_normalize_bounds; [lia|done|done|].
    rewrite Z.mul_sub_distr_r, !aligned_value by lia. lia.
Qed.

Lemma v_zero (s : bool) : v (S754_zero s) = 0.
Proof. unfold v. cbn. by destruct s. Qed.

Lemma mul_bounds (x y lo hi : float64) :
  FZ x → FZ y → FZ lo → FZ hi →
  v lo * 2 ^ S <= v x * v y <= v hi * 2 ^ S →
  FZ (SFmul 53 1024 x y) ∧ v lo <= v (SFmul 53 1024 x y) <= v hi.
Proof.
  intros Hx Hy Hlo Hhi Hb. pose proof (pow2_pos S ltac:(lia)) as HPS.
  destruct x as [sx| | |sx mx ex], y as [sy| | |sy my ey]; try done;
    try (cbn [SFmul]; split; [done|]; rewrite ?v_zero in *; nia).
  cbn [SFmul].
  pose proof Hx as Hx'. pose proof Hy as Hy'. cbn [FZ] in Hx', Hy'.
  apply bounded_inv in Hx' as (Hex & Hmx & Hnx). apply bounded_inv in Hy' as (Hey & Hmy & Hny).
  assert (Hpow : 2 ^ (ex + S) * 2 ^ (ey + S) = 2 ^ (ex + ey + S) * 2 ^ S).
  { rewrite <- !Z.pow_add_r by lia. f_equal. lia. }
  pose proof (pow2_pos (ex + S) ltac:(lia)). pose proof (pow2_pos (ey + S) ltac:(lia)).
  pose proof (pow2_pos (ex + ey + S) ltac:(lia)).
  assert (HX : Z.pos (mx * my) * 2 ^ (ex + ey + S) * 2 ^ S
               = Z.pos mx * 2 ^ (ex + S) * (Z.pos my * 2 ^ (ey + S))).
  { rewrite Pos2Z.inj_mul. rewrite <- !Z.mul_assoc, <- Hpow. lia. }
  assert (Hpre : ex + ey <= fexp 53 1024 (Zdigits2 (Z.pos (mx * my)) + (ex + ey))).
  { rewrite fexp_eq.
    destruct (Z.le_gt_cases (ex + ey) (-1074)) as [Hs|Hs]; [lia|].
    assert (2 ^ 52 <= Z.pos (mx * my)); [|pose proof (Zdigits2_ge53 _ H2); lia].
    rewrite Pos2Z.inj_mul.
    destruct (Z.eq_dec ex (-1074)) as [Hex1|Hex1].
    - specialize (Hny ltac:(lia)). nia.
    - specialize (Hnx ltac:(lia)).
      assert (1 <= Z.pos my) by lia. nia. }
  set (X := Z.pos (mx * my) * 2 ^ (ex + ey + S) * 2 ^ S) in *.
  apply (signed_bounds (xorb sx sy) _ lo hi X (2 ^ S)); try done.
  - subst X. nia.
  - intros hi' Hhi' Hle.
    apply (round_upper _ _ _ loc_Exact X (2 ^ S) hi'); try lia; try done.
  - intros lo' Hlo' Hle.
    apply (round_lower _ _ _ loc_Exact X (2 ^ S) lo'); try lia; try done.
  - rewrite HX. rewrite !v_finite in Hb.
    destruct sx, sy; cbn [xorb cond_Zopp] in *; lia.
Qed.

(** The quotient and remainder [SFdiv_core_binary] computes. *)
Lemma div_core_spec (m1 m2 : positive) (e1 e2 : Z) :
  ∃ q e' l r,
    SFdiv_core_binary 53 1024 (Z.pos m1) e1 (Z.pos m2) e2 = (q, e', l)
    ∧ 0 <= q ∧ e' <= e1 - e2 ∧ Z.min (-1074) (e1 - e2) <= e'
    ∧ Z.pos m1 * 2 ^ (e1 - e2 - e') = q * Z.pos m2 + r
    ∧ 0 <= r < Z.pos m2
    ∧ (l = loc_Exact ↔ r = 0)
    ∧ e' <= fexp 53 1024 (Zdigits2 q + e').
Proof.
  unfold SFdiv_core_binary.
  set (d1 := Zdigits2 (Z.pos m1)). set (d2 := Zdigits2 (Z.pos m2)).
  set (e' := Z.min (fexp 53 1024 (d1 + e1 - (d2 + e2))) (e1 - e2)).
  assert (He' : e' = Z.min (Z.max (d1 + e1 - (d2 + e2) - 53) (-1074)) (e1 - e2))
    by (subst e'; by rewrite fexp_eq).
  set (s := e1 - e2 - e').
  assert (Hs : 0 <= s) by (subst s; lia).
  set (m' := match s with Z.pos _ => Z.shiftl (Z.pos m1) s | 0 => Z.pos m1 | Z.neg _ => 0 end).
  assert (Hm' : m' = Z.pos m1 * 2 ^ s).
  { subst m'. destruct s as [|p|p] eqn:Hsp; [cbn; lia| |lia].
    by rewrite Z.shiftl_mul_pow2. }
  pose proof (Z_div_mod m' (Z.pos m2) ltac:(lia)) as Hdm.
  destruct (Z.div_eucl m' (Z.pos m2)) as [q r]. destruct Hdm as [Hdm Hr].
  pose proof (pow2_pos s Hs) as HPs.
  assert (Hq0 : 0 <= q) by nia.
  exists q, e', (new_location (Z.pos m2) r), r.
  split; [done|]. split; [done|]. split; [lia|]. split; [lia|].
  split; [fold s; lia|]. split; [done|]. split.
  - unfold new_location, new_location_even, new_location_odd.
    destruct (Z.even (Z.pos m2)); destruct (Z.eqb_spec r 0); split; done.
  - rewrite fexp_eq.
    destruct (Z.le_gt_cases e' (-1074)) as [Hlow|Hhigh]; [lia|].
    (* the quotient has enough digits *)
    pose proof (Zdigits2_bounds (Z.pos m1) ltac:(lia)) as [Hlo1 Hhi1].
    pose proof (Zdigits2_bounds (Z.pos m2) ltac:(lia)) as [Hlo2 Hhi2].
    pose proof (Zdigits2_pos (Z.pos m1) ltac:(lia)).
    pose proof (Zdigits2_pos (Z.pos m2) ltac:(lia)).
    fold d1 in Hlo1, Hhi1, H. fold d2 in Hlo2, Hhi2, H0.
    set (k := d1 + s - d2).
    assert (Hk : 53 <= k) by (subst k s; lia).
    assert (Hq : 2 ^ (k - 1) <= q).
    { assert (2 ^ (k - 1) * 2 ^ d2 = 2 ^ (d1 - 1) * 2 ^ s) as Hpw.
      { rewrite <- !Z.pow_add_r by lia. f_equal. subst k. lia. }
      pose proof (pow2_pos (k - 1) ltac:(lia)). pose proof (pow2_pos d2 ltac:(lia)).
      pose proof (pow2_pos (d1 - 1) ltac:(lia)).
      assert (2 ^ (k - 1) * Z.pos m2 < (q + 1) * Z.pos m2) by nia.
      assert (2 ^ (k - 1) < q + 1) by nia. lia. }
    assert (0 < q) by (pose proof (pow2_pos (k - 1) ltac:(lia)); lia).
    pose proof (Zdigits2_bounds q ltac:(lia)) as [_ Hhiq].
    pose proof (Zdigits2_pos q ltac:(lia)).
    assert (k - 1 < Zdigits2 q) by (apply pow2_lt_inv; lia).
    subst k s. lia.
Qed.

Lemma div_bounds (x y lo hi : float64) :
  FZ x → FZ y → 0 < v y → FZ lo → FZ hi →
  v lo * v y <= v x * 2 ^ S <= v hi * v y →
  FZ (SFdiv 53 1024 x y) ∧ v lo <= v (SFdiv 53 1024 x y) <= v hi.
Proof.
  intros Hx Hy Hypos Hlo Hhi Hb. pose proof (pow2_pos S ltac:(lia)) as HPS.
  destruct y as [sy| | |sy my ey]; try done; [rewrite v_zero in Hypos; lia|].
  rewrite v_finite in Hypos, Hb.
  assert (sy = false) as ->.
  { destruct sy; [|done]. cbn [cond_Zopp] in Hypos.
    pose proof (FZ_exp _ _ _ Hy). pose proof (pow2_pos (ey + S) ltac:(lia)). nia. }
  cbn [cond_Zopp] in *.
  destruct x as [sx| | |sx mx ex]; try done.
  { cbn [SFdiv]. split; [done|]. rewrite v_zero in *. nia. }
  cbn [SFdiv]. rewrite xorb_false_r.
  pose proof (FZ_exp _ _ _ Hx) as Hex. pose proof (FZ_exp _ _ _ Hy) as Hey.
  destruct (div_core_spec mx my ex ey) as (q & e' & l & r & -> & Hq0 & He1 & He2 & Hqr & Hr & Hl & Hpre).
  pose proof (pow2_pos (ex + S) ltac:(lia)). pose proof (pow2_pos (ey + S) ltac:(lia)).
  pose proof (pow2_pos (e' + S) ltac:(lia)). pose proof (pow2_pos (ex - ey - e') ltac:(lia)).
  set (den := Z.pos my * 2 ^ (ey + S)) in *.
  set (X := Z.pos mx * 2 ^ (ex + S) * 2 ^ S) in *.
  assert (Hpw : 2 ^ (e' + S) * 2 ^ (ey + S) * 2 ^ (ex - ey - e') = 2 ^ (ex + S) * 2 ^ S).
  { rewrite <- !Z.pow_add_r by lia. f_equal. lia. }
  assert (HX : X = (q * Z.pos my + r) * (2 ^ (e' + S) * 2 ^ (ey + S))).
  { subst X. rewrite <- Hqr. rewrite <- !Z.mul_assoc. f_equal.
    rewrite <- Hpw. lia. }
  assert (Hden : 0 < den) by (subst den; nia).
  assert (HqX : q * 2 ^ (e' + S) * den <= X).
  { rewrite HX. subst den. nia. }
  assert (HqX' : X < (q + 1) * 2 ^ (e' + S) * den).
  { rewrite HX. subst den.
    assert (0 < 2 ^ (e' + S) * 2 ^ (ey + S)) by nia.
    set (W := 2 ^ (e' + S) * 2 ^ (ey + S)) in *.
    replace ((q + 1) * 2 ^ (e' + S) * (Z.pos my * 2 ^ (ey + S)))
      with ((q * Z.pos my + Z.pos my) * W) by (subst W; lia).
    apply Z.mul_lt_mono_pos_r; lia. }
  apply (signed_bounds sx _ lo hi X den); try done.
  - subst X. nia.
  - intros hi' Hhi' Hle.
    apply (round_upper _ _ _ l X den hi'); try lia; try done.
    + intros Hlx. apply Hl in Hlx. rewrite HX, Hlx. subst den. lia.
    + intros Hlx. assert (r ≠ 0) by (intros Hr0; apply Hlx, Hl, Hr0).
      rewrite HX. subst den.
      set (W := 2 ^ (e' + S) * 2 ^ (ey + S)) in *.
      assert (0 < W) by (subst W; nia).
      replace (q * 2 ^ (e' + S) * (Z.pos my * 2 ^ (ey + S)))
        with ((q * Z.pos my) * W) by (subst W; lia).
      apply Z.mul_lt_mono_pos_r; lia.
  - intros lo' Hlo' Hle.
    apply (round_lower _ _ _ l X den lo'); try lia; try done.
  - rewrite v_finite in Hb. subst X.
    destruct sx; cbn [cond_Zopp] in *; lia.
Qed.

(** ** float64: comparison *)

Lemma mag_compare (m1 m2 : positive) (e1 e2 : Z) :
  bounded 53 1024 m1 e1 = true → bounded 53 1024 m2 e2 = true →
  (Z.pos m1 * 2 ^ (e1 + S) ?= Z.pos m2 * 2 ^ (e2 + S))
  = match e1 ?= e2 with
    | Lt => Lt
    | Gt => Gt
    | Eq => Pos.compare_cont Eq m1 m2
    end.
Proof.
  intros (He1 & Hm1 & Hn1)%bounded_inv (He2 & Hm2 & Hn2)%bounded_inv.
  rewrite pow53 in *. set (T := 2 ^ 52) in *.
  destruct (Z.compare_spec e1 e2) as [->|Hlt|Hgt].
  - pose proof (pow2_pos (e2 + S) ltac:(lia)).
    change (Pos.compare_cont Eq m1 m2) with (Z.pos m1 ?= Z.pos m2).
    destruct (Z.compare_spec (Z.pos m1) (Z.pos m2)) as [Heq|Hl|Hg].
    + rewrite Heq. apply Z.compare_refl.
    + apply Z.compare_lt_iff. nia.
    + apply Z.compare_gt_iff. nia.
  - apply Z.compare_lt_iff. specialize (Hn2 ltac:(lia)).
    assert (2 ^ (e2 + S) = 2 ^ (e2 - e1) * 2 ^ (e1 + S)) as ->.
    { rewrite <- Z.pow_add_r by lia. f_equal. lia. }
    assert (2 <= 2 ^ (e2 - e1)).
    { change 2 with (2 ^ 1) at 1. apply Z.pow_le_mono_r; lia. }
    pose proof (pow2_pos (e1 + S) ltac:(lia)).
    set (A := 2 ^ (e2 - e1)) in *. set (B := 2 ^ (e1 + S)) in *.
    assert (0 < T) by (subst T; reflexivity).
    assert (Z.pos m1 * B < 2 * T * B) by nia.
    assert (2 * T * B <= T * A * B) by nia.
    assert (T * A * B <= Z.pos m2 * A * B) by nia. lia.
  - apply Z.compare_gt_iff. specialize (Hn1 ltac:(lia)).
    assert (2 ^ (e1 + S) = 2 ^ (e1 - e2) * 2 ^ (e2 + S)) as ->.
    { rewrite <- Z.pow_add_r by lia. f_equal. lia. }
    assert (2 <= 2 ^ (e1 - e2)).
    { change 2 with (2 ^ 1) at 1. apply Z.pow_le_mono_r; lia. }
    pose proof (pow2_pos (e2 + S) ltac:(lia)).
    set (A := 2 ^ (e1 - e2)) in *. set (B := 2 ^ (e2 + S)) in *.
    assert (0 < T) by (subst T; reflexivity).
    assert (Z.pos m2 * B < 2 * T * B) by nia.
    assert (2 * T * B <= T * A * B) by nia.
    assert (T * A * B <= Z.pos m1 * A * B) by nia. lia.
Qed.

Lemma mag_finite_pos (s : bool) (m : positive) (e : Z) :
  FZ (S754_finite s m e) → 0 < Z.pos m * 2 ^ (e + S).
Proof.
  intros H%FZ_exp. pose proof (pow2_pos (e + S) ltac:(lia)). nia.
Qed.

Lemma SFcompare_spec (x y : float64) :
  FZ x → FZ y → SFcompare x y = Some (v x ?= v y).
Proof.
  intros Hx Hy.
  destruct x as [sx| | |sx mx ex], y as [sy| | |sy my ey]; try done.
  - by rewrite !v_zero.
  - rewrite v_zero, v_finite. pose proof (mag_finite_pos _ _ _ Hy).
    cbn [SFcompare]. f_equal. symmetry.
    destruct sy; cbn [cond_Zopp]; [apply Z.compare_gt_iff|apply Z.compare_lt_iff]; lia.
  - rewrite v_zero, v_finite. pose proof (mag_finite_pos _ _ _ Hx).
    cbn [SFcompare]. f_equal. symmetry.
    destruct sx; cbn [cond_Zopp]; [apply Z.compare_lt_iff|apply Z.compare_gt_iff]; lia.
  - rewrite !v_finite. pose proof (mag_finite_pos _ _ _ Hx). pose proof (mag_finite_pos _ _ _ Hy).
    pose proof (mag_compare mx my ex ey Hx Hy) as Hc.
    cbn [SFcompare]. f_equal.
    destruct sx, sy; cbn [cond_Zopp].
    + rewrite Z.compare_opp.
      rewrite (Z.compare_antisym (Z.pos mx * 2 ^ (ex + S)) (Z.pos my * 2 ^ (ey + S))), Hc.
      by destruct (ex ?= ey).
    + symmetry. apply Z.compare_lt_iff. lia.
    + symmetry. apply Z.compare_gt_iff. lia.
    + rewrite Hc. by destruct (ex ?= ey).
Qed.

Lemma SFltb_spec (x y : float64) : FZ x → FZ y → SFltb x y = (v x <? v y).
Proof.
  intros Hx Hy. unfold SFltb, Z.ltb. rewrite SFcompare_spec by done.
  by destruct (v x ?= v y).
Qed.

Lemma SFleb_spec (x y : float64) : FZ x → FZ y → SFleb x y = (v x <=? v y).
Proof.
  intros Hx Hy. unfold SFleb, Z.leb. rewrite SFcompare_spec by done.
  by destruct (v x ?= v y).
Qed.

(** ** float64: truncation *)

Lemma toInt_spec (x : float64) :
  FZ x →
  ∃ z e, v x - f64.toInt x * 2 ^ S = z * 2 ^ (e + S)
    ∧ Z.abs z < 2 ^ 53 ∧ -1074 <= e <= 971
    ∧ (0 <= v x → 0 <= z ∧ 0 <= f64.toInt x)
    ∧ (v x <= 0 → z <= 0 ∧ f64.toInt x <= 0)
    ∧ Z.abs (z * 2 ^ (e + S)) < 2 ^ S
    ∧ Z.abs (f64.toInt x) * 2 ^ S <= Z.abs (v x)
    ∧ (f64.toInt x ≠ 0 → z = 0 ∨ -52 <= e).
Proof.
  intros Hx. pose proof (pow2_pos S ltac:(lia)) as HPS.
  destruct x as [sx| | |s m e]; try done.
  { exists 0, 0. rewrite v_zero. cbn. repeat split; lia. }
  pose proof (FZ_exp _ _ _ Hx) as He. pose proof Hx as Hx'. cbn [FZ] in Hx'.
  apply bounded_inv in Hx' as (_ & Hm & _).
  pose proof (mag_finite_pos _ _ _ Hx) as Hpos.
  rewrite v_finite. cbn [f64.toInt].
  destruct (Z.leb_spec 0 e) as [Hnn|Hneg].
  - exists 0, 0.
    assert (Z.pos m * 2 ^ (e + S) = Z.pos m * 2 ^ e * 2 ^ S) as Heq.
    { rewrite <- Z.mul_assoc, <- Z.pow_add_r by lia. done. }
    pose proof (pow2_pos e Hnn).
    destruct s; cbn [cond_Zopp]; rewrite Heq; repeat split; try lia; try nia.
  - set (P := 2 ^ (- e)). assert (0 < P) by (subst P; apply pow2_pos; lia).
    pose proof (Z.div_mod (Z.pos m) P ltac:(lia)) as HD.
    pose proof (Z.mod_pos_bound (Z.pos m) P ltac:(lia)) as HB.
    set (k := Z.pos m / P) in *. set (rr := Z.pos m mod P) in *.
    assert (Hk0 : 0 <= k) by (subst k; apply Z.div_pos; lia).
    pose proof (pow2_pos (e + S) ltac:(lia)) as HPe.
    assert (HPS' : 2 ^ S = P * 2 ^ (e + S)).
    { subst P. rewrite <- Z.pow_add_r by lia. f_equal. lia. }
    assert (Hval : Z.pos m * 2 ^ (e + S) - k * 2 ^ S = rr * 2 ^ (e + S)).
    { rewrite HPS'. nia. }
    assert (Hrr : rr * 2 ^ (e + S) < 2 ^ S) by (rewrite HPS'; nia).
    assert (Hkm : k * 2 ^ S <= Z.pos m * 2 ^ (e + S)) by nia.
    assert (Hgran : k ≠ 0 → -52 <= e).
    { intros Hk. assert (P <= Z.pos m) by nia.
      assert (- e < 53); [|lia]. apply pow2_lt_inv; [lia|]. fold P. lia. }
    exists (cond_Zopp s rr), e.
    destruct s; cbn [cond_Zopp]; repeat split; try lia; try nia.
Qed.

End Values.

(** ** moon-phase-server: the lunar cycle position *)

Section Pipeline.

Variable S : Z.
Hypothesis HS : 2200 <= S.

Abbreviation val := (f64.value S).
Abbreviation FZ := f64.wellformed.

Import moon.

Lemma of_Z_ok (z : Z) : Z.abs z < 2 ^ 53 → FZ (f64.of_Z z) ∧ val (f64.of_Z z) = z * 2 ^ S.
Proof. intros Hz. by apply of_Z_exact. Qed.

Lemma add_ok (x y lo hi : float64) :
  FZ x → FZ y → FZ lo → FZ hi → val lo <= val x + val y <= val hi →
  FZ (f64.add x y) ∧ val lo <= val (f64.add x y) <= val hi.
Proof. by apply add_bounds. Qed.

Lemma sub_ok (x y lo hi : float64) :
  FZ x → FZ y → FZ lo → FZ hi → val lo <= val x - val y <= val hi →
  FZ (f64.sub x y) ∧ val lo <= val (f64.sub x y) <= val hi.
Proof. by apply sub_bounds. Qed.

Lemma mul_ok (x y lo hi : float64) :
  FZ x → FZ y → FZ lo → FZ hi →
  val lo * 2 ^ S <= val x * val y <= val hi * 2 ^ S →
  FZ (f64.mul x y) ∧ val lo <= val (f64.mul x y) <= val hi.
Proof. by apply mul_bounds. Qed.

Lemma div_ok (x y lo hi : float64) :
  FZ x → FZ y → 0 < val y → FZ lo → FZ hi →
  val lo * val y <= val x * 2 ^ S <= val hi * val y →
  FZ (f64.div x y) ∧ val lo <= val (f64.div x y) <= val hi.
Proof. by apply div_bounds. Qed.

Lemma lt_ok (x y : float64) : FZ x → FZ y → f64.lt x y = (val x <? val y).
Proof. by apply SFltb_spec. Qed.

Lemma le_ok (x y : float64) : FZ x → FZ y → f64.le x y = (val x <=? val y).
Proof. by apply SFleb_spec. Qed.

Lemma synodicMonth_ok :
  FZ synodicMonth ∧ 16 * 2 ^ S <= val synodicMonth <= 32 * 2 ^ S.
Proof.
  assert (Hs : synodicMonth = S754_finite false 8312121758140212 (-48))
    by (vm_compute; reflexivity).
  rewrite Hs. split; [reflexivity|]. rewrite v_finite. cbn [cond_Zopp].
  assert (2 ^ S = 2 ^ 48 * 2 ^ (-48 + S)) as ->.
  { rewrite <- Z.pow_add_r by lia. f_equal. lia. }
  pose proof (pow2_pos (-48 + S) ltac:(lia)). lia.
Qed.

(** A float for a negative power of two. *)
Lemma neg_pow2_float (k : Z) :
  0 <= k <= 1074 → ∃ B, FZ B ∧ val B = - 2 ^ (S - k).
Proof.
  intros Hk. destruct (representable_signed S HS (-1) (- k)) as (B & HB & Hv); [done|lia|].
  exists B. split; [done|]. rewrite Hv. replace (- k + S) with (S - k) by lia. lia.
Qed.

Lemma Hour_Z : 60 * 60 * 1000000000 = Hour.
Proof. reflexivity. Qed.

(** The position before normalisation: a number of the format, of
    magnitude at most [2 ^ 14], of the sign of the duration, and not
    smaller in magnitude than [2 ^ -52] when the duration is negative. *)
Lemma raw_position (d : Z) :
  - 2 ^ 63 <= d < 2 ^ 63 →
  let x := f64.div (f64.div (Hours d) (f64.of_Z 24)) synodicMonth in
  FZ x ∧ - (2 ^ 14 * 2 ^ S) <= val x <= 2 ^ 14 * 2 ^ S
  ∧ (0 <= d → 0 <= val x) ∧ (d < 0 → val x <= - 2 ^ (S - 52)).
Proof.
  intros Hd. unfold Hours. cbv zeta. rewrite Hour_Z.
  pose proof (pow2_pos S ltac:(lia)) as HPS.
  assert (HH : 0 < Hour) by done.
  pose proof (Z.quot_rem' d Hour) as Hqr.
  set (h := Z.quot d Hour) in *. set (n := Z.rem d Hour) in *.
  assert (Hn : (0 <= d → 0 <= n < Hour ∧ 0 <= h) ∧ (d < 0 → - Hour < n <= 0 ∧ h <= 0)).
  { split; intros Hs.
    - pose proof (Z.rem_bound_pos d Hour Hs HH). pose proof (Z.quot_pos d Hour Hs HH). lia.
    - pose proof (Z.rem_bound_pos_neg d Hour HH ltac:(lia)).
      assert (Z.quot d Hour <= 0); [|lia].
      rewrite <- (Z.opp_involutive d), Z.quot_opp_l by lia.
      pose proof (Z.quot_pos (- d) Hour ltac:(lia) HH). lia. }
  assert (Hh : -2562048 <= h <= 2562048).
  { unfold Hour in *. change (2 ^ 63) with 9223372036854775808 in Hd. lia. }
  destruct (of_Z_ok h) as [Hx1 Hv1]; [change (2 ^ 53) with 9007199254740992; lia|].
  destruct (of_Z_ok n) as [Hx2 Hv2]; [unfold Hour in *; change (2 ^ 53) with 9007199254740992; lia|].
  destruct (of_Z_ok Hour) as [Hc Hvc]; [done|].
  destruct (of_Z_ok 24) as [H24 Hv24]; [done|].
  destruct (of_Z_ok 0) as [H0 Hv0]; [done|].
  destruct (of_Z_ok 1) as [H1 Hv1']; [done|].
  destruct (of_Z_ok (-1)) as [Hm1 Hvm1]; [done|].
  destruct (of_Z_ok 2562049) as [Hhi4 Hvhi4]; [done|].
  destruct (of_Z_ok (-2562049)) as [Hlo4 Hvlo4]; [done|].
  destruct (of_Z_ok 262144) as [Hhi5 Hvhi5]; [done|].
  destruct (of_Z_ok (-262144)) as [Hlo5 Hvlo5]; [done|].
  destruct (of_Z_ok 16384) as [Hhi6 Hvhi6]; [done|].
  destruct (of_Z_ok (-16384)) as [Hlo6 Hvlo6]; [done|].
  destruct synodicMonth_ok as [Hsyn Hvsyn].
  destruct (neg_pow2_float 42) as (B42 & HB42 & HvB42); [lia|].
  destruct (neg_pow2_float 47) as (B47 & HB47 & HvB47); [lia|].
  destruct (neg_pow2_float 52) as (B52 & HB52 & HvB52); [lia|].
  assert (HS42 : 2 ^ S = 2 ^ 42 * 2 ^ (S - 42)).
  { rewrite <- Z.pow_add_r by lia. f_equal. lia. }
  assert (HS47 : 2 ^ (S - 42) = 2 ^ 5 * 2 ^ (S - 47)).
  { rewrite <- Z.pow_add_r by lia. f_equal. lia. }
  assert (HS52 : 2 ^ (S - 47) = 2 ^ 5 * 2 ^ (S - 52)).
  { rewrite <- Z.pow_add_r by lia. f_equal. lia. }
  pose proof (pow2_pos (S - 52) ltac:(lia)) as HP52.
  change (2 ^ 42) with 4398046511104 in HS42. change (2 ^ 5) with 32 in HS47, HS52.
  change (2 ^ 18) with 262144 in *. change (2 ^ 14) with 16384 in *.
  set (P := 2 ^ S) in *. set (P42 := 2 ^ (S - 42)) in *.
  set (P47 := 2 ^ (S - 47)) in *. set (P52 := 2 ^ (S - 52)) in *.
  set (x1 := f64.of_Z h) in *. set (x2 := f64.of_Z n) in *.
  set (c := f64.of_Z Hour) in *.
  unfold Hour in Hvc, Hn, HH.
  destruct (Z.le_gt_cases 0 d) as [Hpos|Hneg].
  - (* the duration is not negative *)
    destruct Hn as [Hn _]. specialize (Hn Hpos).
    destruct (div_ok x2 c (f64.of_Z 0) (f64.of_Z 1)) as [Hx3 Hv3];
      [done|done|lia|done|done| |].
    { change (2 ^ S) with P. clearbody P P42 P47 P52. rewrite Hv0, Hv1', Hvc, Hv2. clear - HPS Hn. nia. }
    set (x3 := f64.div x2 c) in *.
    destruct (add_ok x1 x3 (f64.of_Z 0) (f64.of_Z 2562049)) as [Hx4 Hv4];
      [done|done|done|done| |].
    { change (2 ^ S) with P. clearbody P P42 P47 P52. rewrite Hv0, Hvhi4, Hv1. rewrite Hv0, Hv1' in Hv3. clear - HPS Hn Hh Hv3. nia. }
    set (x4 := f64.add x1 x3) in *.
    destruct (div_ok x4 (f64.of_Z 24) (f64.of_Z 0) (f64.of_Z 262144)) as [Hx5 Hv5];
      [done|done|lia|done|done| |].
    { change (2 ^ S) with P. clearbody P P42 P47 P52. rewrite Hv0, Hvhi5, Hv24. rewrite Hv0, Hvhi4 in Hv4. clear - HPS Hv4. nia. }
    set (x5 := f64.div x4 (f64.of_Z 24)) in *.
    destruct (div_ok x5 synodicMonth (f64.of_Z 0) (f64.of_Z 16384)) as [Hx6 Hv6];
      [done|done|lia|done|done| |].
    { change (2 ^ S) with P. clearbody P P42 P47 P52. rewrite Hv0, Hvhi6. rewrite Hv0, Hvhi5 in Hv5. clear - HPS Hv5 Hvsyn. nia. }
    rewrite Hv0, Hvhi6 in Hv6.
    split; [done|]. split; [lia|]. split; [lia|]. lia.
  - (* the duration is negative *)
    destruct Hn as [_ Hn]. specialize (Hn ltac:(lia)).
    destruct (div_ok x2 c (f64.of_Z (-1)) (f64.of_Z 0)) as [Hx3 Hv3];
      [done|done|lia|done|done| |].
    { change (2 ^ S) with P. clearbody P P42 P47 P52. rewrite Hv0, Hvm1, Hvc, Hv2. clear - HPS Hn. nia. }
    assert (Hv3' : h = 0 → val (f64.div x2 c) <= - P42).
    { intros Hh0. assert (n <= -1) by lia.
      destruct (div_ok x2 c (f64.of_Z (-1)) B42) as [_ Hv3'];
        [done|done|lia|done|done| |].
      - change (2 ^ S) with P. clearbody P P42 P47 P52. rewrite HvB42, Hvm1, Hvc, Hv2. clear - HPS Hn H HS42 HP52 HS47 HS52. nia.
      - rewrite HvB42 in Hv3'. lia. }
    set (x3 := f64.div x2 c) in *.
    destruct (add_ok x1 x3 (f64.of_Z (-2562049)) B42) as [Hx4 Hv4];
      [done|done|done|done| |].
    { change (2 ^ S) with P. clearbody P P42 P47 P52. rewrite HvB42, Hvlo4, Hv1. rewrite Hv0, Hvm1 in Hv3.
      destruct (Z.eq_dec h 0) as [Hh0|Hh0].
      - specialize (Hv3' Hh0). clear - HPS Hv3 Hv3' Hh0. nia.
      - assert (h <= -1) by lia. clear - HPS Hv3 Hh H HS42 HS47 HS52 HP52. nia. }
    set (x4 := f64.add x1 x3) in *.
    destruct (div_ok x4 (f64.of_Z 24) (f64.of_Z (-262144)) B47) as [Hx5 Hv5];
      [done|done|lia|done|done| |].
    { change (2 ^ S) with P. clearbody P P42 P47 P52. rewrite HvB47, Hvlo5, Hv24. rewrite HvB42, Hvlo4 in Hv4.
      clear - HPS Hv4 HS42 HS47 HS52 HP52. nia. }
    set (x5 := f64.div x4 (f64.of_Z 24)) in *.
    destruct (div_ok x5 synodicMonth (f64.of_Z (-16384)) B52) as [Hx6 Hv6];
      [done|done|lia|done|done| |].
    { change (2 ^ S) with P. clearbody P P42 P47 P52. rewrite HvB52, Hvlo6. rewrite HvB47, Hvlo5 in Hv5.
      clear - HPS Hv5 Hvsyn HS42 HS47 HS52 HP52. nia. }
    rewrite HvB52, Hvlo6 in Hv6.
    split; [done|]. split; [lia|]. split; [lia|]. lia.
Qed.

(** Normalisation brings the position into [0, 1). *)
Lemma normalised_position (x : float64) :
  FZ x → - (2 ^ 14 * 2 ^ S) <= val x <= 2 ^ 14 * 2 ^ S →
  (val x < 0 → val x <= - 2 ^ (S - 52)) →
  let y := f64.sub x (f64.of_Z (f64.toInt x)) in
  let cp := if f64.lt y (f64.of_Z 0) then f64.add y (f64.of_Z 1) else y in
  FZ cp ∧ 0 <= val cp < 2 ^ S.
Proof.
  intros Hx Hrange Hneg y cp.
  pose proof (pow2_pos S ltac:(lia)) as HPS.
  pose proof (pow2_pos (S - 52) ltac:(lia)) as HP52.
  assert (HS52 : 2 ^ S = 2 ^ 52 * 2 ^ (S - 52)).
  { rewrite <- Z.pow_add_r by lia. f_equal. lia. }
  destruct (toInt_spec S HS x Hx) as (z & e & Hval & Hz & He & Hpos & Hnp & Hsmall & Hk & Hgran).
  set (k := f64.toInt x) in *.
  change (2 ^ 14) with 16384 in Hrange.
  assert (Hkb : Z.abs k <= 16384) by nia.
  destruct (of_Z_ok k) as [Hfk Hvk]; [change (2 ^ 53) with 9007199254740992; lia|].
  destruct (of_Z_ok 0) as [H0 Hv0]; [done|].
  destruct (of_Z_ok 1) as [H1 Hv1]; [done|].
  destruct (representable_signed S HS z e Hz He) as (B & HB & HvB).
  destruct (sub_ok x (f64.of_Z k) B B) as [Hy Hvy]; [done|done|done|done|lia|].
  fold y in Hy, Hvy.
  assert (Hyv : val y = z * 2 ^ (e + S)) by lia.
  subst cp. rewrite lt_ok by done. rewrite Hv0.
  destruct (Z.ltb_spec (val y) (0 * 2 ^ S)) as [Hlt|Hge].
  - (* the fractional part is negative: one is added *)
    assert (Hxneg : val x < 0).
    { destruct (Z.lt_ge_cases (val x) 0); [done|].
      destruct (Hpos ltac:(lia)) as [Hz0 _].
      pose proof (pow2_pos (e + S) ltac:(lia)). nia. }
    specialize (Hneg Hxneg).
    assert (Hy52 : val y <= - 2 ^ (S - 52)).
    { destruct (Z.eq_dec k 0) as [Hk0|Hk0].
      - rewrite Hk0 in Hval. lia.
      - destruct (Hgran Hk0) as [Hz0|He52]; [rewrite Hz0 in Hyv; lia|].
        assert (z <= -1).
        { pose proof (pow2_pos (e + S) ltac:(lia)). nia. }
        assert (2 ^ (S - 52) <= 2 ^ (e + S)) by (apply Z.pow_le_mono_r; lia).
        pose proof (pow2_pos (e + S) ltac:(lia)). nia. }
    destruct (representable_signed S HS (2 ^ 52 - 1) (-52)) as (B1 & HB1 & HvB1);
      [done|lia|].
    replace (-52 + S) with (S - 52) in HvB1 by lia.
    destruct (add_ok y (f64.of_Z 1) (f64.of_Z 0) B1) as [Hcp Hvcp];
      [done|done|done|done| |].
    { rewrite Hv0, Hv1, HvB1. rewrite Hyv in *. lia. }
    split; [done|]. rewrite Hv0, HvB1 in Hvcp. lia.
  - split; [done|]. rewrite Hyv in *. lia.
Qed.

Lemma half_ok : FZ (f64.ratio 1 2) ∧ 2 * val (f64.ratio 1 2) = 2 ^ S.
Proof.
  assert (Hh : f64.ratio 1 2 = S754_finite false (2 ^ 52) (-53)) by (vm_compute; reflexivity).
  rewrite Hh. split; [reflexivity|]. rewrite v_finite. cbn [cond_Zopp].
  assert (2 ^ S = 2 ^ 53 * 2 ^ (-53 + S)) as ->.
  { rewrite <- Z.pow_add_r by lia. f_equal. lia. }
  change (Z.pos (2 ^ 52)) with (2 ^ 52). rewrite pow53. lia.
Qed.

(** The illumination of a normalised position lies in [0, 100]. *)
Lemma illumination_range (cp : float64) :
  FZ cp → 0 <= val cp < 2 ^ S →
  let illumination :=
    if f64.lt cp (f64.ratio 1 2) then f64.mul cp (f64.of_Z 2)
    else f64.mul (f64.sub (f64.of_Z 1) cp) (f64.of_Z 2) in
  FZ (f64.mul illumination (f64.of_Z 100))
  ∧ 0 <= val (f64.mul illumination (f64.of_Z 100)) <= 100 * 2 ^ S.
Proof.
  intros Hcp Hr illumination. subst illumination.
  pose proof (pow2_pos S ltac:(lia)) as HPS.
  destruct half_ok as [Hh Hvh].
  destruct (of_Z_ok 0) as [H0 Hv0]; [done|].
  destruct (of_Z_ok 1) as [H1 Hv1]; [done|].
  destruct (of_Z_ok 2) as [H2 Hv2]; [done|].
  destruct (of_Z_ok 100) as [H100 Hv100]; [done|].
  set (P := 2 ^ S) in *.
  assert (Hfin : ∀ i, FZ i → 0 <= val i <= P →
            FZ (f64.mul i (f64.of_Z 100)) ∧ 0 <= val (f64.mul i (f64.of_Z 100)) <= 100 * P).
  { intros i Hi Hvi.
    destruct (mul_ok i (f64.of_Z 100) (f64.of_Z 0) (f64.of_Z 100)) as [Hm Hvm];
      [done|done|done|done| |].
    - change (2 ^ S) with P. clearbody P. rewrite Hv0, Hv100. clear - HPS Hvi. nia.
    - split; [done|]. rewrite Hv0, Hv100 in Hvm. lia. }
  assert (Hdbl : ∀ i, FZ i → 0 <= 2 * val i <= P →
            FZ (f64.mul i (f64.of_Z 2)) ∧ 0 <= val (f64.mul i (f64.of_Z 2)) <= P).
  { intros i Hi Hvi.
    destruct (mul_ok i (f64.of_Z 2) (f64.of_Z 0) (f64.of_Z 1)) as [Hm Hvm];
      [done|done|done|done| |].
    - change (2 ^ S) with P. clearbody P. rewrite Hv0, Hv1, Hv2. clear - HPS Hvi. nia.
    - split; [done|]. rewrite Hv0, Hv1 in Hvm. lia. }
  rewrite lt_ok by done.
  destruct (Z.ltb_spec (val cp) (val (f64.ratio 1 2))) as [Hlt|Hge].
  - destruct (Hdbl cp Hcp ltac:(lia)) as [Hi Hvi]. by apply Hfin.
  - destruct (sub_ok (f64.of_Z 1) cp (f64.of_Z 0) (f64.ratio 1 2)) as [Hs Hvs];
      [done|done|done|done| |].
    { rewrite Hv0, Hv1. lia. }
    rewrite Hv0 in Hvs.
    destruct (Hdbl _ Hs ltac:(lia)) as [Hi Hvi]. by apply Hfin.
Qed.

End Pipeline.

(** ** moon-phase-server: calculateMoonPhase *)

(** At the reference new moon the position is 0: New Moon, not lit. *)
Example calculateMoonPhase_at_reference :
  let '(phase, illumination, _) := moon.calculateMoonPhase moon.knownNewMoon in
  phase = "New Moon" ∧ illumination = S754_zero false.
Proof. vm_compute. done. Qed.

(** One nanosecond earlier the fractional part is negative and 1 is added:
    the position is just below 1, and the switch ends in its default. *)
Example cyclePosition_before_reference :
  moon.cyclePosition (moon.knownNewMoon - 1) = S754_finite false 9007199254740988 (-53)
  ∧ (moon.calculateMoonPhase (moon.knownNewMoon - 1)).1.1 = "New Moon".
Proof. vm_compute. done. Qed.

(** 3 November 2025, 00:00 UTC: two days before a full moon. *)
Example calculateMoonPhase_2025_11_03 :
  (moon.calculateMoonPhase (1762128000 * 1000000000)).1
  = ("Waxing Gibbous", S754_finite false 5710640766044000 (-46)).
Proof. vm_compute. done. Qed.

(** No phase name occurs twice in the table: a name has one emoji. *)
Lemma phases_names_distinct : NoDup (moon.phases.*1).
Proof.
  unfold moon.phases. cbn [fmap list_fmap fst].
  repeat (apply NoDup_cons; split; [rewrite ?elem_of_cons, elem_of_nil; intuition discriminate|]).
  apply NoDup_nil_2.
Qed.

(** C9. Moon phase.  For every instant, [calculateMoonPhase] returns one of
    the eight phase names with the emoji of that phase, and an illumination
    between 0 and 100 inclusive; the position in the cycle from which both
    are taken is at least 0 and below 1.  The comparisons are those of
    [float64]. *)
Theorem calculateMoonPhase_ranges (t : moon.Time) :
  let '(phase, illumination, emoji) := moon.calculateMoonPhase t in
  (phase, emoji) ∈ moon.phases
  ∧ f64.le (f64.of_Z 0) illumination = true
  ∧ f64.le illumination (f64.of_Z 100) = true
  ∧ f64.le (f64.of_Z 0) (moon.cyclePosition t) = true
  ∧ f64.lt (moon.cyclePosition t) (f64.of_Z 1) = true.
Proof.
  set (d := moon.Sub t moon.knownNewMoon).
  assert (Hd : - 2 ^ 63 <= d < 2 ^ 63).
  { subst d. unfold moon.Sub, moon.minDuration, moon.maxDuration. lia. }
  assert (HS : 2200 <= 2200) by lia.
  destruct (raw_position 2200 HS d Hd) as (Hx & Hr & Hpos & Hneg).
  cbv zeta in Hx, Hr, Hpos, Hneg.
  pose proof (normalised_position 2200 HS _ Hx Hr) as Hn.
  cbv zeta in Hn.
  destruct Hn as [Hcp Hvcp].
  { intros Hlt. apply Hneg. destruct (Z.lt_ge_cases d 0) as [|Hge]; [done|].
    specialize (Hpos Hge). lia. }
  assert (Hcpeq : moon.cyclePosition t
    = let y := f64.sub (f64.div (f64.div (moon.Hours d) (f64.of_Z 24)) moon.synodicMonth)
                 (f64.of_Z (f64.toInt (f64.div (f64.div (moon.Hours d) (f64.of_Z 24))
                                               moon.synodicMonth))) in
      if f64.lt y (f64.of_Z 0) then f64.add y (f64.of_Z 1) else y) by reflexivity.
  cbv zeta in Hcpeq. rewrite <- Hcpeq in Hcp, Hvcp.
  unfold moon.calculateMoonPhase.
  set (cp := moon.cyclePosition t) in *.
  destruct (illumination_range 2200 HS cp Hcp Hvcp) as [Hi Hvi].
  destruct (of_Z_ok 2200 HS 0) as [H0 Hv0]; [done|].
  destruct (of_Z_ok 2200 HS 1) as [H1 Hv1]; [done|].
  destruct (of_Z_ok 2200 HS 100) as [H100 Hv100]; [done|].
  assert (Hnum :
    f64.le (f64.of_Z 0)
      (f64.mul (if f64.lt cp (f64.ratio 1 2) then f64.mul cp (f64.of_Z 2)
                else f64.mul (f64.sub (f64.of_Z 1) cp) (f64.of_Z 2)) (f64.of_Z 100)) = true
    ∧ f64.le
        (f64.mul (if f64.lt cp (f64.ratio 1 2) then f64.mul cp (f64.of_Z 2)
                  else f64.mul (f64.sub (f64.of_Z 1) cp) (f64.of_Z 2)) (f64.of_Z 100))
        (f64.of_Z 100) = true
    ∧ f64.le (f64.of_Z 0) cp = true
    ∧ f64.lt cp (f64.of_Z 1) = true).
  { rewrite !(le_ok 2200 HS), (lt_ok 2200 HS cp (f64.of_Z 1)) by done.
    rewrite ?Hv0, ?Hv1, ?Hv100.
    split_and!; [apply Z.leb_le|apply Z.leb_le|apply Z.leb_le|apply Z.ltb_lt]; lia. }
  cbv zeta.
  repeat (destruct (f64.lt cp (f64.ratio _ 16));
          [split; [unfold moon.phases;
                   repeat first [apply list_elem_of_here | apply list_elem_of_further]
                  |exact Hnum]|]).
  split; [apply list_elem_of_here|exact Hnum].
Qed.

(** * Further properties of the code *)

(** ** quotes-server: the source of a quote *)

Section RandomQuoteFacts.

Import quotes.

Variable ToLower : string → string.

Implicit Types (reply : http.GetResult (list apiQuote)) (draw : Z) (q : Quote).

(** What [fetchQuoteFromAPI] makes of each reply. *)
Lemma fetchQuoteFromAPI_cases reply :
  (∃ first rest, reply = http.Response 200 (inl (first :: rest))
     ∧ fetchQuoteFromAPI reply = (mkQuote (Q first) (A first) "", None))
  ∨ (∃ err, fetchQuoteFromAPI reply = (zeroQuote, Some err)
       ∧ ∀ first rest, reply ≠ http.Response 200 (inl (first :: rest))).
Proof.
  destruct reply as [err|code [[|first rest]|err]]; cbn [fetchQuoteFromAPI].
  - right. by eexists.
  - right. destruct (Z.eqb_spec code http.StatusOK) as [->|Hne]; cbn [negb]; by eexists.
  - destruct (Z.eqb_spec code http.StatusOK) as [->|Hne]; cbn [negb].
    + left. by exists first, rest.
    + right. eexists. split; [done|]. intros f r [= Hc _ _]. by apply Hne.
  - right. destruct (Z.eqb_spec code http.StatusOK) as [->|Hne]; cbn [negb]; by eexists.
Qed.

(** An index drawn for a non-empty slice is in range. *)
Lemma pick_lookup draw (l : list Quote) :
  l ≠ [] →
  ∃ q, l !! Z.to_nat (draw mod len l) = Some q ∧ q ∈ l
       ∧ rand.Intn draw (len l) = Some (draw mod len l).
Proof.
  intros Hne. destruct (pick_in_range draw l Hne) as (idx & q & Hidx & Hq & Hin).
  unfold rand.Intn in *. destruct (len l <=? 0); [done|]. injection Hidx as <-.
  by exists q.
Qed.

(** The local branch of [getRandomQuote], taken when the fetch failed or a
    category was given. *)
Lemma getRandomQuote_local reply draw input :
  let category := GetRandomQuoteInput.Category input in
  (fetchQuoteFromAPI reply).2 ≠ None ∨ category ≠ "" →
  let pool := if bool_decide (category ≠ "")
              then filter (λ q, ToLower (Category q) = ToLower category) quotes
              else quotes in
  (pool = []
   ∧ getRandomQuote ToLower reply draw input
     = Return zeroQuote (Some ("no quotes found for category: " +:+ category)))
  ∨ (∃ q, pool !! Z.to_nat (draw mod len pool) = Some q
          ∧ getRandomQuote ToLower reply draw input = Return q None).
Proof.
  intros category Hlocal pool. unfold getRandomQuote. fold category.
  destruct (fetchQuoteFromAPI reply) as [quote err]. cbn [snd] in Hlocal.
  assert (bool_decide (err = None) && bool_decide (category = "") = false) as ->.
  { apply andb_false_iff. destruct Hlocal as [He|Hc]; [left|right];
      by apply bool_decide_eq_false_2. }
  subst pool. destruct (bool_decide (category ≠ "")) eqn:Hcat.
  - set (found := filter _ quotes). destruct (decide (found = [])) as [->|Hne].
    + left. done.
    + right. destruct (pick_lookup draw found Hne) as (q & Hq & _ & Hidx).
      exists q. split; [done|].
      replace (len found =? 0) with false
        by (symmetry; apply Z.eqb_neq; destruct found; [done|unfold len; cbn [length]; lia]).
      by rewrite Hidx, Hq.
  - right. destruct (pick_lookup draw quotes) as (q & Hq & _ & Hidx); [done|].
    exists q. split; [done|]. by rewrite Hidx, Hq.
Qed.

End RandomQuoteFacts.

(** X1. [fetchQuoteFromAPI] returns a quote without error exactly when the
    reply has status 200 and a body that decodes to a non-empty array; the
    quote is then made of the first element and has no category.  On a
    transport error, another status, a body that does not decode or an
    empty array, it returns the zero [Quote] with an error. *)
Theorem fetchQuoteFromAPI_outcomes (reply : http.GetResult (list quotes.apiQuote)) :
  let '(quote, err) := quotes.fetchQuoteFromAPI reply in
  quotes.Category quote = ""
  ∧ (err = None ↔
     ∃ first rest, reply = http.Response 200 (inl (first :: rest))
       ∧ quote = quotes.mkQuote (quotes.Q first) (quotes.A first) "")
  ∧ (err ≠ None → quote = quotes.zeroQuote).
Proof.
  destruct (fetchQuoteFromAPI_cases reply)
    as [(first & rest & -> & ->)|(err & -> & Hne)].
  - split_and!; [done| |done]. split; [|done]. intros _. by exists first, rest.
  - split_and!; [done| |done]. split; [done|].
    intros (first & rest & Hr & _). exfalso. by eapply Hne.
Qed.

(** X2. [getRandomQuote] never panics, and a failing API never shows: for
    every reply, draw and input it either returns a quote without error
    (the API quote, when the fetch succeeded and no category was given;
    otherwise a quote of the local table, of the category asked for when
    one was given), or, for a category that no local quote has, the zero
    [Quote] with the error [no quotes found for category: ...]. *)
Theorem getRandomQuote_never_panics (ToLower : string → string)
    (reply : http.GetResult (list quotes.apiQuote)) (draw : Z)
    (input : quotes.GetRandomQuoteInput.t) :
  let category := quotes.GetRandomQuoteInput.Category input in
  (∃ q, quotes.getRandomQuote ToLower reply draw input = Return q None
        ∧ ((category = "" ∧ quotes.fetchQuoteFromAPI reply = (q, None))
           ∨ (q ∈ quotes.quotes
              ∧ (category ≠ "" → ToLower (quotes.Category q) = ToLower category))))
  ∨ (category ≠ ""
     ∧ quotes.getRandomQuote ToLower reply draw input
       = Return quotes.zeroQuote (Some ("no quotes found for category: " +:+ category))
     ∧ ∀ q, q ∈ quotes.quotes → ToLower (quotes.Category q) ≠ ToLower category).
Proof.
  intros category.
  destruct (decide ((quotes.fetchQuoteFromAPI reply).2 = None ∧ category = ""))
    as [[Herr Hc]|Hlocal].
  - left. destruct (quotes.fetchQuoteFromAPI reply) as [quote err] eqn:Hf.
    cbn [snd] in Herr. subst err. exists quote. split; [|by left].
    unfold quotes.getRandomQuote. rewrite Hf. fold category. by rewrite Hc.
  - assert (Hl : (quotes.fetchQuoteFromAPI reply).2 ≠ None ∨ category ≠ "").
    { destruct (decide ((quotes.fetchQuoteFromAPI reply).2 = None)); [right|left]; naive_solver. }
    destruct (getRandomQuote_local ToLower reply draw input Hl) as [[Hnil Hr]|(q & Hq & Hr)];
      fold category in Hnil || fold category in Hq.
    + right. destruct (bool_decide (category ≠ "")) eqn:Hcat; [|done].
      apply bool_decide_eq_true in Hcat. split_and!; [done|done|].
      intros q Hin Heq.
      assert (q ∈ filter (λ q, ToLower (quotes.Category q) = ToLower category) quotes.quotes)
        as Hq by (by apply list_elem_of_filter).
      rewrite Hnil in Hq. by apply not_elem_of_nil in Hq.
    + left. exists q. split; [done|]. right.
      apply list_elem_of_lookup_2 in Hq.
      destruct (bool_decide (category ≠ "")) eqn:Hcat.
      * apply list_elem_of_filter in Hq as [? ?]. done.
      * split; [done|]. apply bool_decide_eq_false in Hcat. done.
Qed.

(** X3. No local quote is out of reach.  When the fetch has failed and no
    category is given, every quote of the table is returned for some draw
    of the generator; when a category is given, so is every quote of the
    table whose category equals it in lower case. *)
Theorem every_local_quote_reachable (ToLower : string → string)
    (reply : http.GetResult (list quotes.apiQuote))
    (input : quotes.GetRandomQuoteInput.t) (q : quotes.Quote) :
  q ∈ quotes.quotes →
  let category := quotes.GetRandomQuoteInput.Category input in
  (category = "" ∧ (quotes.fetchQuoteFromAPI reply).2 ≠ None)
  ∨ (category ≠ "" ∧ ToLower (quotes.Category q) = ToLower category) →
  ∃ draw, 0 <= draw
    ∧ quotes.getRandomQuote ToLower reply draw input = Return q None.
Proof.
  intros Hin category Hcase.
  assert (Hl : (quotes.fetchQuoteFromAPI reply).2 ≠ None ∨ category ≠ "")
    by (destruct Hcase as [[_ ?]|[? _]]; [by left|by right]).
  pose proof (getRandomQuote_local ToLower reply) as Hlocal.
  set (pool := if bool_decide (category ≠ "")
               then filter (λ q, ToLower (quotes.Category q) = ToLower category) quotes.quotes
               else quotes.quotes).
  assert (Hpool : q ∈ pool).
  { subst pool. destruct Hcase as [[Hc _]|[Hc Heq]].
    - by rewrite bool_decide_eq_false_2 by (by intros []).
    - rewrite bool_decide_eq_true_2 by done. by apply list_elem_of_filter. }
  apply list_elem_of_lookup_1 in Hpool as [i Hi].
  pose proof (lookup_lt_Some _ _ _ Hi) as Hlt.
  exists (Z.of_nat i). split; [lia|].
  destruct (Hlocal (Z.of_nat i) input Hl) as [[Hnil _]|(q' & Hq' & Hr)];
    fold category in Hnil || fold category in Hq'; fold pool in Hnil || fold pool in Hq'.
  - rewrite Hnil in Hi. done.
  - rewrite Hr. unfold len in Hq'. rewrite Z.mod_small, Nat2Z.id in Hq' by lia. congruence.
Qed.

Lemma every_local_quote_reachable_witness :
  ∃ draw, 0 <= draw
    ∧ quotes.getRandomQuote strings.ToLowerASCII (http.GetFailed "timeout") draw
        (quotes.GetRandomQuoteInput.mk "PROGRAMMING")
      = Return (quotes.mkQuote "Talk is cheap. Show me the code." "Linus Torvalds" "programming")
               None.
Proof.
  apply (every_local_quote_reachable strings.ToLowerASCII (http.GetFailed "timeout")
           (quotes.GetRandomQuoteInput.mk "PROGRAMMING")).
  - unfold quotes.quotes. do 12 apply list_elem_of_further. apply list_elem_of_here.
  - right. split; [discriminate|]. vm_compute. reflexivity.
Defined.

(** X4. The category filter does not look at case, nor at the API.  Two
    non-empty categories that are equal in lower case get, for the same
    draw, the same quote, whatever the API replied to either call; or no
    local quote has that category, and each call fails with the message
    that quotes its own argument. *)
Theorem category_filter_ignores_case (ToLower : string → string)
    (reply reply' : http.GetResult (list quotes.apiQuote)) (draw : Z) (c c' : string) :
  c ≠ "" → c' ≠ "" → ToLower c = ToLower c' →
  (∃ q, quotes.getRandomQuote ToLower reply draw (quotes.GetRandomQuoteInput.mk c)
        = Return q None
        ∧ quotes.getRandomQuote ToLower reply' draw (quotes.GetRandomQuoteInput.mk c')
          = Return q None)
  ∨ (quotes.getRandomQuote ToLower reply draw (quotes.GetRandomQuoteInput.mk c)
     = Return quotes.zeroQuote (Some ("no quotes found for category: " +:+ c))
     ∧ quotes.getRandomQuote ToLower reply' draw (quotes.GetRandomQuoteInput.mk c')
       = Return quotes.zeroQuote (Some ("no quotes found for category: " +:+ c'))).
Proof.
  intros Hc Hc' Heq.
  pose proof (getRandomQuote_local ToLower reply draw (quotes.GetRandomQuoteInput.mk c)) as H1.
  pose proof (getRandomQuote_local ToLower reply' draw (quotes.GetRandomQuoteInput.mk c')) as H2.
  cbn [quotes.GetRandomQuoteInput.Category] in H1, H2.
  specialize (H1 (or_intror Hc)). specialize (H2 (or_intror Hc')).
  rewrite bool_decide_eq_true_2 in H1, H2 by done. cbv zeta in H1, H2.
  rewrite <- Heq in H2.
  destruct H1 as [[Hnil Hr]|(q & Hq & Hr)], H2 as [[Hnil' Hr']|(q' & Hq' & Hr')].
  - by right.
  - rewrite Hnil in Hq'. done.
  - rewrite Hnil' in Hq. done.
  - left. exists q. split; [done|]. congruence.
Qed.

Lemma category_filter_ignores_case_witness :
  ∃ q, quotes.getRandomQuote strings.ToLowerASCII (http.GetFailed "timeout") 7
         (quotes.GetRandomQuoteInput.mk "Wisdom") = Return q None
       ∧ quotes.getRandomQuote strings.ToLowerASCII
           (http.Response 200 (inl [quotes.mkApiQuote "Be yourself." "Anonymous"])) 7
           (quotes.GetRandomQuoteInput.mk "WISDOM") = Return q None.
Proof.
  destruct (category_filter_ignores_case strings.ToLowerASCII (http.GetFailed "timeout")
              (http.Response 200 (inl [quotes.mkApiQuote "Be yourself." "Anonymous"]))
              7 "Wisdom" "WISDOM") as [Hsame|[Hfail _]]; [discriminate|discriminate|reflexivity| |].
  - exact Hsame.
  - vm_compute in Hfail. discriminate Hfail.
Defined.

(** ** quotes-server: categories *)

Section CategoriesFacts.

Import quotes.

(** The keys of the set built by the first loop of [listCategories], from
    any table and any set to start with. *)
Lemma categorySet_keys (qs : list Quote) (m : gmap string bool) (c : string) :
  is_Some (foldl (λ categorySet q,
                    if bool_decide (Category q ≠ "") then <[Category q := true]> categorySet
                    else categorySet) m qs !! c)
  ↔ is_Some (m !! c) ∨ (c ≠ "" ∧ ∃ q, q ∈ qs ∧ Category q = c).
Proof.
  revert m. induction qs as [|q0 rest IH]; intros m; cbn [foldl].
  - split; [by left|]. intros [?|(_ & q & Hin & _)]; [done|]. by apply not_elem_of_nil in Hin.
  - rewrite IH. destruct (bool_decide_reflect (Category q0 ≠ "")) as [Hne|He].
    + destruct (decide (Category q0 = c)) as [<-|Hc].
      * rewrite lookup_insert_eq. split; [|by left]. intros _. right.
        split; [done|]. exists q0. split; [apply list_elem_of_here|done].
      * rewrite lookup_insert_ne by done. split.
        -- intros [?|(? & q & Hin & Hq)]; [by left|]. right. split; [done|].
           exists q. split; [by apply list_elem_of_further|done].
        -- intros [?|(? & q & Hin & Hq)]; [by left|]. right. split; [done|].
           exists q. split; [|done]. apply elem_of_cons in Hin as [->|Hin]; [done|done].
    + split.
      * intros [?|(? & q & Hin & Hq)]; [by left|]. right. split; [done|].
        exists q. split; [by apply list_elem_of_further|done].
      * intros [?|(Hc & q & Hin & Hq)]; [by left|]. right. split; [done|].
        exists q. split; [|done]. apply elem_of_cons in Hin as [->|Hin]; [|done].
        exfalso. apply He. by rewrite Hq.
Qed.

(** The second loop appends the keys in the order it visits them. *)
Lemma append_each (l acc : list string) :
  foldl (λ categories c, categories ++ [c]) acc l = acc ++ l.
Proof.
  revert acc. induction l as [|c l IH]; intros acc; cbn [foldl].
  - by rewrite app_nil_r.
  - by rewrite IH, <- app_assoc.
Qed.

Lemma elem_of_keys (m : gmap string bool) (c : string) :
  c ∈ (map_to_list m).*1 ↔ is_Some (m !! c).
Proof.
  rewrite list_elem_of_fmap. split.
  - intros ([k v] & -> & Hin%elem_of_map_to_list). by exists v.
  - intros [v Hv]. exists (c, v). split; [done|]. by apply elem_of_map_to_list.
Qed.

(** What [listCategories] returns, for an order that visits each key
    once. *)
Lemma listCategories_spec (order : list string → list string) :
  (∀ l, order l ≡ₚ l) →
  ∃ categories,
    listCategories order = Return {| Categories := categories |} None
    ∧ NoDup categories
    ∧ (∀ c, c ∈ categories ↔ c ≠ "" ∧ ∃ q, q ∈ quotes ∧ Category q = c).
Proof.
  intros Horder. eexists. split; [reflexivity|]. rewrite append_each, app_nil_l.
  split.
  - rewrite Horder. apply NoDup_fst_map_to_list.
  - intros c. rewrite Horder, elem_of_keys, categorySet_keys, lookup_empty.
    split; [intros [[? [=]]|?]; done|by right].
Qed.

End CategoriesFacts.

(** X5. [listCategories] returns, without error, each category of the
    quote table exactly once and nothing else, whatever the order in which
    the map is visited: the six categories that the description of
    [get_random_quote]'s argument lists, in some order. *)
Theorem listCategories_complete (order : list string → list string) :
  (∀ l, order l ≡ₚ l) →
  ∃ categories,
    quotes.listCategories order = Return {| quotes.Categories := categories |} None
    ∧ NoDup categories
    ∧ (∀ c, c ∈ categories ↔ c ≠ "" ∧ ∃ q, q ∈ quotes.quotes ∧ quotes.Category q = c)
    ∧ categories
      ≡ₚ ["motivation"; "wisdom"; "programming"; "innovation"; "life"; "courage"].
Proof.
  intros Horder.
  destruct (listCategories_spec order Horder) as (categories & Hr & Hnd & Hin).
  exists categories. split_and!; [done..|].
  apply NoDup_Permutation; [done| |].
  - repeat (apply NoDup_cons; split;
            [rewrite ?elem_of_cons, elem_of_nil; intuition discriminate|]).
    apply NoDup_nil_2.
  - intros c. rewrite Hin. split.
    + intros (Hne & q & Hq & <-). unfold quotes.quotes in Hq.
      repeat (apply elem_of_cons in Hq as [->|Hq];
              [cbn [quotes.Category]; rewrite ?elem_of_cons; tauto|]).
      by apply elem_of_nil in Hq.
    + intros Hc. rewrite !elem_of_cons, elem_of_nil in Hc.
      assert (Hat : ∀ i q, quotes.quotes !! i = Some q → quotes.Category q ≠ "" →
                c = quotes.Category q →
                c ≠ "" ∧ ∃ q, q ∈ quotes.quotes ∧ quotes.Category q = c).
      { intros i q Hq Hne ->. split; [done|]. exists q. split; [|done].
        by eapply list_elem_of_lookup_2. }
      destruct Hc as [->|[->|[->|[->|[->|[->|[]]]]]]].
      * eapply (Hat 0%nat); [reflexivity|discriminate|reflexivity].
      * eapply (Hat 5%nat); [reflexivity|discriminate|reflexivity].
      * eapply (Hat 12%nat); [reflexivity|discriminate|reflexivity].
      * eapply (Hat 1%nat); [reflexivity|discriminate|reflexivity].
      * eapply (Hat 3%nat); [reflexivity|discriminate|reflexivity].
      * eapply (Hat 6%nat); [reflexivity|discriminate|reflexivity].
Qed.

Lemma listCategories_complete_witness :
  ∃ categories,
    quotes.listCategories reverse = Return {| quotes.Categories := categories |} None
    ∧ NoDup categories
    ∧ categories
      ≡ₚ ["motivation"; "wisdom"; "programming"; "innovation"; "life"; "courage"].
Proof.
  destruct (listCategories_complete reverse) as (categories & Hr & Hnd & _ & Hp).
  - intros l. apply reverse_Permutation.
  - exists categories. split_and!; assumption.
Defined.

(** X6. The two tools agree on what a category is.  Every category that
    [listCategories] returns is accepted by [getRandomQuote]: for every
    reply of the API and every draw it returns, without error, a quote of
    the local table that has exactly this category up to case. *)
Theorem listed_category_is_served (order : list string → list string)
    (ToLower : string → string) (reply : http.GetResult (list quotes.apiQuote))
    (draw : Z) (categories : list string) (c : string) :
  (∀ l, order l ≡ₚ l) →
  quotes.listCategories order = Return {| quotes.Categories := categories |} None →
  c ∈ categories →
  ∃ q, quotes.getRandomQuote ToLower reply draw (quotes.GetRandomQuoteInput.mk c)
       = Return q None
       ∧ q ∈ quotes.quotes
       ∧ ToLower (quotes.Category q) = ToLower c.
Proof.
  intros Horder Hlist Hc.
  destruct (listCategories_spec order Horder) as (categories' & Hr & _ & Hin).
  rewrite Hr in Hlist. injection Hlist as ->.
  apply Hin in Hc as (Hne & q0 & Hq0 & Hcat).
  destruct (getRandomQuote_local ToLower reply draw (quotes.GetRandomQuoteInput.mk c))
    as [[Hnil _]|(q & Hq & Hret)]; [by right| |];
    cbn [quotes.GetRandomQuoteInput.Category] in *;
    rewrite bool_decide_eq_true_2 in * by done.
  - assert (q0 ∈ filter (λ q, ToLower (quotes.Category q) = ToLower c) quotes.quotes) as Hq
      by (apply list_elem_of_filter; by rewrite Hcat).
    rewrite Hnil in Hq. by apply not_elem_of_nil in Hq.
  - exists q. split; [done|].
    apply list_elem_of_lookup_2, list_elem_of_filter in Hq as [? ?]. done.
Qed.

Lemma listed_category_is_served_witness :
  ∃ q, quotes.getRandomQuote strings.ToLowerASCII (http.GetFailed "timeout") 4
         (quotes.GetRandomQuoteInput.mk "courage") = Return q None
       ∧ q ∈ quotes.quotes
       ∧ strings.ToLowerASCII (quotes.Category q) = strings.ToLowerASCII "courage".
Proof.
  eapply (listed_category_is_served (λ l, l) strings.ToLowerASCII (http.GetFailed "timeout") 4
            _ "courage").
  - intros l. reflexivity.
  - vm_compute. reflexivity.
  - do 1 apply list_elem_of_further. apply list_elem_of_here.
Defined.

(** ** quotes-server: search *)

Section SearchFacts.

Import quotes.

Variable ToLower : string → string.

(** The limit in force never goes down when the limit asked for goes up
    from 1. *)
Lemma effectiveLimit_mono (limit limit' : Z) :
  1 <= limit <= limit' → effectiveLimit limit <= effectiveLimit limit'.
Proof.
  unfold effectiveLimit. intros H.
  destruct (Z.leb_spec limit 0), (Z.leb_spec limit' 0); try lia.
  destruct (Z.gtb_spec limit 10), (Z.gtb_spec limit' 10); lia.
Qed.

End SearchFacts.

(** X7. A larger limit only adds results at the end.  For a non-empty
    query and limits [1 <= limit <= limit'], what [searchQuotes] returns
    for [limit] is an initial part of what it returns for [limit']. *)
Theorem search_limit_extends (ToLower : string → string) (query : string) (limit limit' : Z) :
  query ≠ "" → 1 <= limit <= limit' →
  ∃ out out',
    quotes.searchQuotes ToLower (quotes.mkSearchQuotesInput query limit) = Return out None
    ∧ quotes.searchQuotes ToLower (quotes.mkSearchQuotesInput query limit') = Return out' None
    ∧ quotes.Quotes out `prefix_of` quotes.Quotes out'
    ∧ quotes.Total out <= quotes.Total out'.
Proof.
  intros Hq Hl. rewrite !searchQuotes_value by done. cbv zeta.
  do 2 eexists. split; [reflexivity|]. split; [reflexivity|].
  cbn [quotes.Quotes quotes.Total].
  pose proof (effectiveLimit_mono limit limit' Hl) as Hm.
  pose proof (effectiveLimit_range limit) as Hr.
  set (found := filter _ quotes.quotes).
  assert (Hp : take (Z.to_nat (quotes.effectiveLimit limit)) found
               `prefix_of` take (Z.to_nat (quotes.effectiveLimit limit')) found).
  { replace (take (Z.to_nat (quotes.effectiveLimit limit)) found)
      with (take (Z.to_nat (quotes.effectiveLimit limit))
                 (take (Z.to_nat (quotes.effectiveLimit limit')) found)).
    - apply prefix_take.
    - rewrite take_take. f_equal. lia. }
  split; [done|]. unfold len. apply prefix_length in Hp. lia.
Qed.

Lemma search_limit_extends_witness :
  ∃ out out',
    quotes.searchQuotes strings.ToLowerASCII (quotes.mkSearchQuotesInput "code" 2)
    = Return out None
    ∧ quotes.searchQuotes strings.ToLowerASCII (quotes.mkSearchQuotesInput "code" 4)
      = Return out' None
    ∧ quotes.Quotes out `prefix_of` quotes.Quotes out'.
Proof.
  destruct (search_limit_extends strings.ToLowerASCII "code" 2 4)
    as (out & out' & H1 & H2 & Hp & _); [discriminate|lia|].
  exists out, out'. split_and!; assumption.
Defined.

(** X8. A search comes back empty only when nothing matches.  For a
    non-empty query, [searchQuotes] returns no error, and it returns at
    least one quote exactly when some quote of the table contains the
    lower-cased query in its lower-cased text, author or category; the
    first quote returned is then the first such quote of the table.  The
    query counts only through its lower-cased form. *)
Theorem search_finds_what_matches (ToLower : string → string) (query : string) (limit : Z) :
  query ≠ "" →
  ∃ out,
    quotes.searchQuotes ToLower (quotes.mkSearchQuotesInput query limit) = Return out None
    ∧ (1 <= quotes.Total out
       ↔ ∃ q, q ∈ quotes.quotes ∧ quotes.matches ToLower (ToLower query) q = true)
    ∧ head (quotes.Quotes out)
      = head (filter (λ q, quotes.matches ToLower (ToLower query) q = true) quotes.quotes)
    ∧ (∀ query', query' ≠ "" → ToLower query' = ToLower query →
         quotes.searchQuotes ToLower (quotes.mkSearchQuotesInput query' limit)
         = Return out None).
Proof.
  intros Hq. rewrite searchQuotes_value by done. cbv zeta.
  eexists. split; [reflexivity|]. cbn [quotes.Quotes quotes.Total].
  pose proof (effectiveLimit_range limit) as Hr.
  set (found := filter _ quotes.quotes).
  split_and!.
  - unfold len. rewrite length_take. split.
    + intros Hlen. destruct found as [|q rest] eqn:Hf; [cbn in Hlen; lia|].
      assert (q ∈ found) as Hin by (rewrite Hf; apply list_elem_of_here).
      apply list_elem_of_filter in Hin as [? ?]. by exists q.
    + intros (q & Hin & Hm).
      assert (q ∈ found) as Hf by (by apply list_elem_of_filter).
      destruct found; [by apply not_elem_of_nil in Hf|]. cbn [length]. lia.
  - destruct found; [by rewrite take_nil|].
    destruct (Z.to_nat (quotes.effectiveLimit limit)) eqn:Hn; [lia|done].
  - intros query' Hq' Heq. rewrite searchQuotes_value by done. cbv zeta.
    by rewrite Heq.
Qed.

Lemma search_finds_what_matches_witness :
  ∃ out,
    quotes.searchQuotes strings.ToLowerASCII (quotes.mkSearchQuotesInput "GANDHI" 0)
    = Return out None
    ∧ head (quotes.Quotes out)
      = Some (quotes.mkQuote "Be the change you wish to see in the world."
                             "Mahatma Gandhi" "motivation").
Proof.
  destruct (search_finds_what_matches strings.ToLowerASCII "GANDHI" 0)
    as (out & Hr & _ & Hhead & _); [discriminate|].
  exists out. split; [exact Hr|]. rewrite Hhead. vm_compute. reflexivity.
Defined.

(** ** weather-server: descriptions, requests and replies *)

Section WeatherMore.

Import weather.

(** Every entry of the description table has a code from 0 to 99 and a
    description that is neither empty nor the fallback. *)
Lemma weatherCodeDescriptions_entries :
  map_Forall (λ code desc, 0 <= code <= 99 ∧ desc ≠ "" ∧ desc ≠ "Unknown")
             weatherCodeDescriptions.
Proof.
  apply map_Forall_to_list.
  let l := eval vm_compute in (map_to_list weatherCodeDescriptions) in
  replace (map_to_list weatherCodeDescriptions) with l by (vm_compute; reflexivity). repeat (apply Forall_cons; split; [cbn; split_and!; [lia|lia|done|done]|]).
  apply Forall_nil_2.
Qed.

(** The loop of [getForecast] from index [k] on, when the slices it reads
    without a check are long enough. *)
Lemma buildDaily_from (d : Daily.t) (m k : nat) (acc : list DailyForecast.t) :
  (k + m)%nat = length (Daily.Time d) →
  (∀ i, (k ≤ i < length (Daily.Time d) `min` length (Daily.Temperature2mMax d))%nat →
        (i < length (Daily.Temperature2mMin d))%nat
        ∧ (i < length (Daily.WeatherCode d))%nat
        ∧ (i < length (Daily.PrecipitationSum d))%nat) →
  ∃ more,
    buildDaily d (seq k m) acc = Some (acc ++ more)
    ∧ length more
      = (length (Daily.Time d) `min` length (Daily.Temperature2mMax d) - k)%nat
    ∧ ∀ j e, more !! j = Some e →
        Daily.Time d !! (k + j)%nat = Some (DailyForecast.Date e)
        ∧ Daily.Temperature2mMax d !! (k + j)%nat = Some (DailyForecast.TempMax e)
        ∧ Daily.Temperature2mMin d !! (k + j)%nat = Some (DailyForecast.TempMin e)
        ∧ Daily.WeatherCode d !! (k + j)%nat = Some (DailyForecast.WeatherCode e)
        ∧ Daily.PrecipitationSum d !! (k + j)%nat = Some (DailyForecast.PrecipitationSum e)
        ∧ DailyForecast.Description e = getWeatherDescription (DailyForecast.WeatherCode e).
Proof.
  revert k acc. induction m as [|m IH]; intros k acc Hlen Hlong; cbn [seq buildDaily].
  - exists []. rewrite app_nil_r. split_and!; [done|cbn; lia|]. intros j e Hj. done.
  - unfold len. destruct (Z.leb_spec (Z.of_nat (length (Daily.Temperature2mMax d))) (Z.of_nat k))
      as [Hbreak|Hgo].
    + exists []. rewrite app_nil_r. split_and!; [done|cbn; lia|]. intros j e Hj. done.
    + destruct (Hlong k) as (Hmin & Hcode & Hprec); [lia|].
      destruct (lookup_lt_is_Some_2 (Daily.Time d) k) as [date Hdate]; [lia|].
      destruct (lookup_lt_is_Some_2 (Daily.Temperature2mMax d) k) as [tmax Htmax]; [lia|].
      destruct (lookup_lt_is_Some_2 (Daily.Temperature2mMin d) k) as [tmin Htmin]; [lia|].
      destruct (lookup_lt_is_Some_2 (Daily.WeatherCode d) k) as [code Hcod]; [lia|].
      destruct (lookup_lt_is_Some_2 (Daily.PrecipitationSum d) k) as [precip Hpre]; [lia|].
      rewrite Hdate, Htmax, Htmin, Hcod, Hpre.
      destruct (IH (Datatypes.S k)
                  (acc ++ [DailyForecast.mk date tmax tmin code (getWeatherDescription code) precip]))
        as (more & Hrun & Hmore & Hentries); [lia|intros i Hi; apply Hlong; lia|].
      eexists (_ :: more). rewrite Hrun, <- app_assoc. split_and!; [done|cbn [length]; lia|].
      intros [|j] e Hj.
      * injection Hj as <-. rewrite Nat.add_0_r. by cbn.
      * cbn in Hj. replace (k + Datatypes.S j)%nat with (Datatypes.S k + j)%nat by lia.
        by apply Hentries.
Qed.

(** The loop panics when one of those slices ends before the loop does. *)
Lemma buildDaily_short (d : Daily.t) (m k : nat) (acc : list DailyForecast.t) :
  (k + m)%nat = length (Daily.Time d) →
  (∃ i, (k ≤ i < length (Daily.Time d) `min` length (Daily.Temperature2mMax d))%nat
        ∧ ((length (Daily.Temperature2mMin d) ≤ i)%nat
           ∨ (length (Daily.WeatherCode d) ≤ i)%nat
           ∨ (length (Daily.PrecipitationSum d) ≤ i)%nat)) →
  buildDaily d (seq k m) acc = None.
Proof.
  revert k acc. induction m as [|m IH]; intros k acc Hlen (i & Hi & Hshort); cbn [seq buildDaily].
  - lia.
  - unfold len. destruct (Z.leb_spec (Z.of_nat (length (Daily.Temperature2mMax d))) (Z.of_nat k))
      as [Hbreak|Hgo]; [lia|].
    destruct (Daily.Time d !! k) as [date|]; [|done].
    destruct (Daily.Temperature2mMax d !! k) as [tmax|]; [|done].
    destruct (Daily.Temperature2mMin d !! k) as [tmin|] eqn:Htmin; [|done].
    destruct (Daily.WeatherCode d !! k) as [code|] eqn:Hcod; [|done].
    destruct (Daily.PrecipitationSum d !! k) as [precip|] eqn:Hpre; [|done].
    apply lookup_lt_Some in Htmin, Hcod, Hpre.
    apply IH; [lia|]. exists i. split; [|done]. lia.
Qed.

(** [getForecast] on a reply with status 200 and a body that decodes. *)
Lemma getForecast_reply
    (get : apiRequest → http.GetResult OpenMeteoForecastResponse.t)
    (input : GetForecastInput.t) (request : apiRequest)
    (apiResp : OpenMeteoForecastResponse.t) :
  (getForecast get input).1 = [request] →
  get request = http.Response 200 (inl apiResp) →
  let d := OpenMeteoForecastResponse.Daily apiResp in
  (getForecast get input).2
  = match buildDaily d (seq 0 (length (Daily.Time d))) [] with
    | None => Panic "index out of range"
    | Some daily =>
      Return (ForecastOutput.mk (OpenMeteoForecastResponse.Latitude apiResp)
                                (OpenMeteoForecastResponse.Longitude apiResp) daily) None
    end.
Proof.
  intros Hreq Hget d. unfold getForecast in *.
  destruct (validateCoordinates _ _); [done|].
  set (req := ForecastRequest _ _ _) in *.
  assert (req = request) as ->.
  { destruct (get req) as [err|code [apiResp'|err]]; [by injection Hreq|..];
      destruct (negb (code =? http.StatusOK)); try (by injection Hreq).
    destruct (buildDaily _ _ _); by injection Hreq. }
  rewrite Hget. cbn [negb Z.eqb]. fold d. by destruct (buildDaily _ _ _).
Qed.

End WeatherMore.
(** X9. [getWeatherDescription] never returns the empty string, and it
    returns [Unknown] exactly for the codes that the table does not have:
    no entry of the table is itself [Unknown].  Every code below 0 or above
    99 is unknown. *)
Theorem unknown_weather_codes (code : Z) :
  weather.getWeatherDescription code ≠ ""
  ∧ (weather.getWeatherDescription code = "Unknown"
     ↔ weather.weatherCodeDescriptions !! code = None)
  ∧ (code < 0 ∨ 99 < code → weather.getWeatherDescription code = "Unknown").
Proof.
  unfold weather.getWeatherDescription.
  destruct (weather.weatherCodeDescriptions !! code) as [desc|] eqn:Hl.
  - destruct (weatherCodeDescriptions_entries code desc Hl) as (Hr & Hne & Hun).
    split_and!; [done|split; done|lia].
  - split_and!; [done|split; done|done].
Qed.

(** X10. The number of forecast days asked of the API.  For coordinates
    that pass validation, [getForecast] sends exactly one request, for the
    coordinates given, and the number of days in it is between 1 and 7: 3
    when [days] is zero (omitted) or negative, 7 when [days] exceeds 7, and
    [days] itself otherwise. *)
Theorem forecast_days_clamped
    (get : weather.apiRequest → http.GetResult weather.OpenMeteoForecastResponse.t)
    (latitude longitude : float64) (days : Z) :
  weather.validateCoordinates latitude longitude = None →
  ∃ forecast_days,
    (weather.getForecast get (weather.GetForecastInput.mk latitude longitude days)).1
    = [weather.ForecastRequest latitude longitude forecast_days]
    ∧ 1 <= forecast_days <= 7
    ∧ (days <= 0 → forecast_days = 3)
    ∧ (7 < days → forecast_days = 7)
    ∧ (1 <= days <= 7 → forecast_days = days).
Proof.
  intros Hv. unfold weather.getForecast.
  cbn [weather.GetForecastInput.Latitude weather.GetForecastInput.Longitude
       weather.GetForecastInput.Days].
  rewrite Hv.
  set (d0 := if days <=? 0 then 3 else days).
  set (d1 := if d0 >? 7 then 7 else d0).
  exists d1. split.
  - destruct (get _) as [err|code [apiResp|err]]; [done|..];
      destruct (negb (code =? http.StatusOK)); try done.
    by destruct (weather.buildDaily _ _ _).
  - subst d1 d0. destruct (Z.leb_spec days 0), (Z.gtb_spec 3 7); try lia;
      destruct (Z.gtb_spec days 7); lia.
Qed.

Lemma forecast_days_clamped_witness :
  (weather.getForecast (λ _, http.GetFailed "timeout")
     (weather.GetForecastInput.mk (f64.of_Z 45) (f64.of_Z 9) 30)).1
  = [weather.ForecastRequest (f64.of_Z 45) (f64.of_Z 9) 7].
Proof.
  destruct (forecast_days_clamped (λ _, http.GetFailed "timeout") (f64.of_Z 45) (f64.of_Z 9) 30)
    as (d & Hreq & _ & _ & Hcap & _); [vm_compute; reflexivity|].
  rewrite Hreq, Hcap by lia. reflexivity.
Defined.

(** X11. The daily forecasts of a well-formed reply.  When the reply has
    status 200 and, in its decoded body, the slices of minima, weather
    codes and precipitation sums are at least as long as the shorter of
    the slices of dates and maxima, [getForecast] returns without error or
    panic; it returns one entry for each index below that shorter length,
    however many days were asked for, made of the values at that index and
    of the description of its weather code, and the coordinates are the
    ones in the reply. *)
Theorem forecast_entries
    (get : weather.apiRequest → http.GetResult weather.OpenMeteoForecastResponse.t)
    (input : weather.GetForecastInput.t) (request : weather.apiRequest)
    (apiResp : weather.OpenMeteoForecastResponse.t) :
  (weather.getForecast get input).1 = [request] →
  get request = http.Response 200 (inl apiResp) →
  let d := weather.OpenMeteoForecastResponse.Daily apiResp in
  let n := (length (weather.Daily.Time d) `min` length (weather.Daily.Temperature2mMax d))%nat in
  (n ≤ length (weather.Daily.Temperature2mMin d))%nat →
  (n ≤ length (weather.Daily.WeatherCode d))%nat →
  (n ≤ length (weather.Daily.PrecipitationSum d))%nat →
  ∃ out,
    (weather.getForecast get input).2 = Return out None
    ∧ weather.ForecastOutput.Latitude out = weather.OpenMeteoForecastResponse.Latitude apiResp
    ∧ weather.ForecastOutput.Longitude out = weather.OpenMeteoForecastResponse.Longitude apiResp
    ∧ length (weather.ForecastOutput.Daily out) = n
    ∧ ∀ i e, weather.ForecastOutput.Daily out !! i = Some e →
        weather.Daily.Time d !! i = Some (weather.DailyForecast.Date e)
        ∧ weather.Daily.Temperature2mMax d !! i = Some (weather.DailyForecast.TempMax e)
        ∧ weather.Daily.Temperature2mMin d !! i = Some (weather.DailyForecast.TempMin e)
        ∧ weather.Daily.WeatherCode d !! i = Some (weather.DailyForecast.WeatherCode e)
        ∧ weather.Daily.PrecipitationSum d !! i
          = Some (weather.DailyForecast.PrecipitationSum e)
        ∧ weather.DailyForecast.Description e
          = weather.getWeatherDescription (weather.DailyForecast.WeatherCode e).
Proof.
  intros Hreq Hget d n Hmin Hcode Hprec.
  destruct (buildDaily_from d (length (weather.Daily.Time d)) 0 [])
    as (more & Hrun & Hlen & Hentries); [done|intros i Hi; fold n in Hi; lia|].
  rewrite app_nil_l in Hrun. rewrite Nat.sub_0_r in Hlen. fold n in Hlen.
  rewrite (getForecast_reply get input request apiResp Hreq Hget). cbv zeta. fold d.
  rewrite Hrun. eexists. split; [reflexivity|].
  cbn [weather.ForecastOutput.Latitude weather.ForecastOutput.Longitude
       weather.ForecastOutput.Daily].
  split_and!; [done|done|done|]. intros i e Hi. by apply (Hentries i e).
Qed.

Lemma forecast_entries_witness :
  let input := weather.GetForecastInput.mk (f64.of_Z 45) (f64.of_Z 9) 1 in
  let apiResp :=
    weather.OpenMeteoForecastResponse.mk (f64.of_Z 45) (f64.of_Z 9)
      (weather.Daily.mk ["2025-11-03"; "2025-11-04"] [f64.of_Z 12; f64.of_Z 11]
                        [f64.of_Z 5; f64.of_Z 4] [3; 61] [f64.of_Z 0; f64.of_Z 2]) in
  ∃ out,
    (weather.getForecast (λ _, http.Response 200 (inl apiResp)) input).2 = Return out None
    ∧ length (weather.ForecastOutput.Daily out) = 2%nat.
Proof.
  intros input apiResp.
  destruct (forecast_entries (λ _, http.Response 200 (inl apiResp)) input
              (weather.ForecastRequest (f64.of_Z 45) (f64.of_Z 9) 1) apiResp)
    as (out & Hr & _ & _ & Hlen & _);
    [vm_compute; reflexivity|reflexivity|cbn; lia..|].
  exists out. split; [exact Hr|exact Hlen].
Defined.

(** X12. Only the slice of maxima is checked against the index.  When the
    reply has status 200 and the slice of minima, of weather codes or of
    precipitation sums is shorter than both the slice of dates and the
    slice of maxima, [getForecast] panics with an index out of range. *)
Theorem forecast_short_slice_panics
    (get : weather.apiRequest → http.GetResult weather.OpenMeteoForecastResponse.t)
    (input : weather.GetForecastInput.t) (request : weather.apiRequest)
    (apiResp : weather.OpenMeteoForecastResponse.t) :
  (weather.getForecast get input).1 = [request] →
  get request = http.Response 200 (inl apiResp) →
  let d := weather.OpenMeteoForecastResponse.Daily apiResp in
  let n := (length (weather.Daily.Time d) `min` length (weather.Daily.Temperature2mMax d))%nat in
  (length (weather.Daily.Temperature2mMin d) < n)%nat
  ∨ (length (weather.Daily.WeatherCode d) < n)%nat
  ∨ (length (weather.Daily.PrecipitationSum d) < n)%nat →
  (weather.getForecast get input).2 = Panic "index out of range".
Proof.
  intros Hreq Hget d n Hshort.
  assert (Hrun : weather.buildDaily d (seq 0 (length (weather.Daily.Time d))) [] = None).
  { apply buildDaily_short; [done|]. fold n.
    destruct Hshort as [H|[H|H]].
    - exists (length (weather.Daily.Temperature2mMin d)). split; [lia|]. left. lia.
    - exists (length (weather.Daily.WeatherCode d)). split; [lia|]. right. left. lia.
    - exists (length (weather.Daily.PrecipitationSum d)). split; [lia|]. right. right. lia. }
  rewrite (getForecast_reply get input request apiResp Hreq Hget). cbv zeta. fold d.
  by rewrite Hrun.
Qed.

Lemma forecast_short_slice_panics_witness :
  let input := weather.GetForecastInput.mk (f64.of_Z 45) (f64.of_Z 9) 2 in
  let apiResp :=
    weather.OpenMeteoForecastResponse.mk (f64.of_Z 45) (f64.of_Z 9)
      (weather.Daily.mk ["2025-11-03"; "2025-11-04"] [f64.of_Z 12; f64.of_Z 11]
                        [f64.of_Z 5; f64.of_Z 4] [3] [f64.of_Z 0; f64.of_Z 2]) in
  (weather.getForecast (λ _, http.Response 200 (inl apiResp)) input).2
  = Panic "index out of range".
Proof.
  intros input apiResp.
  apply (forecast_short_slice_panics (λ _, http.Response 200 (inl apiResp)) input
           (weather.ForecastRequest (f64.of_Z 45) (f64.of_Z 9) 2) apiResp).
  - vm_compute. reflexivity.
  - reflexivity.
  - right. left. cbn. lia.
Defined.

(** X13. [getCurrentWeather] never panics and sends at most one request.
    Whenever it returns an error, the output is the zero value; when it
    returns none, it has sent exactly one request, for the coordinates
    given, the reply had status 200 and a body that decoded, and every
    field of the output comes from the reply: the coordinates are those of
    the reply (not those of the input), temperature, wind speed, wind
    direction, weather code and time are those of its [current_weather],
    the description is the one of the reply's weather code, and [IsDay]
    holds exactly when the reply's [is_day] is 1. *)
Theorem current_weather_outcomes
    (get : weather.apiRequest → http.GetResult weather.OpenMeteoCurrentResponse.t)
    (input : weather.GetCurrentWeatherInput.t) :
  let request := weather.CurrentRequest (weather.GetCurrentWeatherInput.Latitude input)
                                        (weather.GetCurrentWeatherInput.Longitude input) in
  ∃ requests out err,
    weather.getCurrentWeather get input = (requests, Return out err)
    ∧ (requests = [] ∨ requests = [request])
    ∧ (err ≠ None → out = weather.zeroCurrentWeatherOutput)
    ∧ (err = None →
       requests = [request]
       ∧ ∃ apiResp, get request = http.Response 200 (inl apiResp)
           ∧ let current := weather.OpenMeteoCurrentResponse.CurrentWeather apiResp in
             weather.Latitude out = weather.OpenMeteoCurrentResponse.Latitude apiResp
             ∧ weather.Longitude out = weather.OpenMeteoCurrentResponse.Longitude apiResp
             ∧ weather.Temperature out = weather.CurrentWeather.Temperature current
             ∧ weather.WindSpeed out = weather.CurrentWeather.WindSpeed current
             ∧ weather.WindDirection out = weather.CurrentWeather.WindDirection current
             ∧ weather.WeatherCode out = weather.CurrentWeather.WeatherCode current
             ∧ weather.Description out
               = weather.getWeatherDescription (weather.CurrentWeather.WeatherCode current)
             ∧ (weather.IsDay out = true ↔ weather.CurrentWeather.IsDay current = 1)
             ∧ weather.Time out = weather.CurrentWeather.Time current).
Proof.
  intros request. unfold weather.getCurrentWeather. fold request.
  destruct (weather.validateCoordinates _ _) as [msg|].
  { do 3 eexists. split; [reflexivity|]. split_and!; [by left|done|done]. }
  destruct (get request) as [e|code [apiResp|e]] eqn:Hg.
  - do 3 eexists. split; [reflexivity|]. split_and!; [by right|done|done].
  - destruct (Z.eqb_spec code http.StatusOK) as [->|Hne]; cbn [negb].
    + do 3 eexists. split; [reflexivity|]. split_and!; [by right|done|].
      intros _. split; [done|]. exists apiResp. cbn.
      split_and!; [reflexivity..|apply Z.eqb_eq|reflexivity].
    + do 3 eexists. split; [reflexivity|]. split_and!; [by right|done|done].
  - destruct (negb (code =? http.StatusOK));
      do 3 eexists; (split; [reflexivity|]); split_and!; done || by right.
Qed.

(** X14. Which coordinates pass validation.  For numbers of the format
    (zeros and finite floats) the check accepts exactly the closed ranges:
    it returns no error if and only if the latitude lies between -90 and
    90 and the longitude between -180 and 180, bounds included (values are
    scaled by [2 ^ S]).  An infinite latitude is refused.  NaN is not: a
    NaN coordinate is treated as the coordinate 0 is. *)
Theorem coordinates_accepted (S : Z) (latitude longitude : float64) :
  2200 <= S →
  (f64.wellformed latitude → f64.wellformed longitude →
   (weather.validateCoordinates latitude longitude = None
    ↔ - 90 * 2 ^ S <= f64.value S latitude <= 90 * 2 ^ S
      ∧ - 180 * 2 ^ S <= f64.value S longitude <= 180 * 2 ^ S))
  ∧ (∀ s, weather.validateCoordinates (S754_infinity s) longitude
          = Some "latitude must be between -90 and 90")
  ∧ weather.validateCoordinates S754_nan longitude
    = weather.validateCoordinates (S754_zero false) longitude
  ∧ weather.validateCoordinates latitude S754_nan
    = weather.validateCoordinates latitude (S754_zero false).
Proof.
  intros HS. split_and!.
  - intros Hlat Hlon. unfold weather.validateCoordinates, f64.gt.
    change (SFltb ?x ?y) with (f64.lt x y).
    destruct (of_Z_ok S HS (-90)) as [H1 V1]; [done|].
    destruct (of_Z_ok S HS 90) as [H2 V2]; [done|].
    destruct (of_Z_ok S HS (-180)) as [H3 V3]; [done|].
    destruct (of_Z_ok S HS 180) as [H4 V4]; [done|].
    rewrite !(lt_ok S HS) by done. rewrite V1, V2, V3, V4.
    destruct (Z.ltb_spec (f64.value S latitude) (-90 * 2 ^ S)),
             (Z.ltb_spec (90 * 2 ^ S) (f64.value S latitude)),
             (Z.ltb_spec (f64.value S longitude) (-180 * 2 ^ S)),
             (Z.ltb_spec (180 * 2 ^ S) (f64.value S longitude));
      cbn [orb]; split; try done; try lia.
  - intros s. unfold weather.validateCoordinates. by destruct s.
  - unfold weather.validateCoordinates. cbn [f64.lt f64.gt orb]. 
    unfold f64.lt, f64.gt. by destruct longitude as [[]|[]| |[] ? ?].
  - unfold weather.validateCoordinates, f64.lt, f64.gt.
    destruct (SFltb latitude _ || SFltb _ latitude); [done|].
    by destruct latitude.
Qed.

Lemma coordinates_accepted_witness :
  weather.validateCoordinates (f64.of_Z 90) (f64.of_Z (-180)) = None.
Proof.
  destruct (coordinates_accepted 2200 (f64.of_Z 90) (f64.of_Z (-180))) as [Hfinite _]; [lia|].
  apply Hfinite; [reflexivity|reflexivity|].
  vm_compute. repeat split; discriminate.
Defined.

(** ** The HTTP surface: other routes and methods *)

Section HttpMore.

Lemma append_assoc (s t u : string) : (s +:+ t) +:+ u = s +:+ (t +:+ u).
Proof.
  induction s as [|c s IH]; [done|].
  change (String c ((s +:+ t) +:+ u) = String c (s +:+ (t +:+ u))). by rewrite IH.
Qed.

Lemma length_append (s t : string) :
  String.length (s +:+ t) = (String.length s + String.length t)%nat.
Proof.
  induction s as [|c s IH]; [done|].
  change (String c s +:+ t) with (String c (s +:+ t)). cbn [String.length]. by rewrite IH.
Qed.

Lemma append_nil_r (s : string) : s +:+ "" = s.
Proof.
  induction s as [|c s IH]; [done|].
  change (String c s +:+ "") with (String c (s +:+ "")). by rewrite IH.
Qed.

(** What [first] can return: a length from 0 to 4, and for a length of 2
    or more a range of second bytes within the continuation bytes. *)
Lemma first_spec (s0 sz lo hi : Z) :
  utf8.first s0 = (sz, (lo, hi)) →
  0 <= sz <= 4 ∧ (2 <= sz → 128 <= lo ∧ hi <= 191) ∧ (sz = 1 ↔ s0 < 128).
Proof.
  unfold utf8.first.
  repeat match goal with
         | |- context [if ?b then _ else _] => destruct b eqn:?
         end;
    intros [= <- <- <-];
    repeat match goal with
           | H : (_ <? _) = true |- _ => apply Z.ltb_lt in H
           | H : (_ <? _) = false |- _ => apply Z.ltb_ge in H
           | H : (_ =? _) = true |- _ => apply Z.eqb_eq in H
           | H : (_ =? _) = false |- _ => apply Z.eqb_neq in H
           end; lia.
Qed.

Lemma append_cons (c : ascii) (s t : string) : String c s +:+ t = String c (s +:+ t).
Proof. reflexivity. Qed.

Ltac bool_cases :=
  repeat match goal with
         | |- context [if ?b then _ else _] => destruct b eqn:?
         end;
  repeat match goal with
         | H : (_ <? _) = true |- _ => apply Z.ltb_lt in H
         | H : (_ <? _) = false |- _ => apply Z.ltb_ge in H
         | H : (_ <=? _) = true |- _ => apply Z.leb_le in H
         | H : (_ <=? _) = false |- _ => apply Z.leb_gt in H
         | H : (_ =? _) = true |- _ => apply Z.eqb_eq in H
         | H : (_ =? _) = false |- _ => apply Z.eqb_neq in H
         end.

(** A string that is empty or starts with an ASCII byte cannot continue a
    sequence begun before it. *)
Lemma Decode_app (c : ascii) (p t : string) :
  (t = "" ∨ ∃ c' t', t = String c' t' ∧ utf8.byteOf c' < 128) →
  utf8.DecodeRuneInString (String c (p +:+ t)) = utf8.DecodeRuneInString (String c p).
Proof.
  intros [->|(c' & t' & -> & Hc')]; [by rewrite append_nil_r|].
  unfold utf8.DecodeRuneInString.
  destruct (utf8.first (utf8.byteOf c)) as [sz [lo hi]] eqn:Hf.
  destruct (first_spec _ _ _ _ Hf) as (Hsz & Hlo & _).
  destruct (Z.eqb_spec sz 1) as [|H1]; [done|].
  destruct (Z.eqb_spec sz 0) as [|H0]; [done|].
  assert (128 <= lo ∧ hi <= 191) as [Hlo' Hhi'] by (apply Hlo; lia). clear Hlo.
  assert (Hnc : utf8.notContinuation (utf8.byteOf c') = true).
  { unfold utf8.notContinuation. destruct (Z.ltb_spec (utf8.byteOf c') 128); [done|lia]. }
  assert (Hlt : (utf8.byteOf c' <? lo) = true) by (apply Z.ltb_lt; lia).
  destruct p as [|c1 [|c2 [|c3 p]]];
    rewrite ?append_cons; cbn [String.length];
    rewrite ?length_append; cbn [String.length];
    change ("" +:+ String c' t') with (String c' t');
    rewrite ?Hlt, ?Hnc; cbn [orb];
    bool_cases; first [reflexivity | lia].
Qed.

(** The width that [DecodeRuneInString] reports is within the string. *)
Lemma Decode_size (c : ascii) (s : string) :
  1 <= (utf8.DecodeRuneInString (String c s)).2 <= Z.of_nat (String.length (String c s)).
Proof.
  unfold utf8.DecodeRuneInString.
  destruct (utf8.first (utf8.byteOf c)) as [sz [lo hi]] eqn:Hf.
  destruct (first_spec _ _ _ _ Hf) as (Hsz & _ & _).
  destruct s as [|c1 [|c2 [|c3 s]]]; cbn [String.length];
    bool_cases; cbn [snd]; lia.
Qed.

Lemma escapeFrom_zero (copy : bool) (s : string) :
  json.escapeFrom 0 copy s = json.escapeFrom 0 true s.
Proof. by destruct s. Qed.

(** Text that follows a string is escaped on its own when it is empty or
    starts with an ASCII byte. *)
Lemma escapeFrom_app (p t : string) (skip : nat) (copy : bool) :
  (t = "" ∨ ∃ c' t', t = String c' t' ∧ utf8.byteOf c' < 128) →
  (skip ≤ String.length p)%nat →
  json.escapeFrom skip copy (p +:+ t) = json.escapeFrom skip copy p +:+ json.escapeString t.
Proof.
  intros Ht. revert skip copy. induction p as [|c p IH]; intros skip copy Hskip.
  - cbn [String.length] in Hskip. assert (skip = 0%nat) as -> by lia.
    change ("" +:+ t) with t. by rewrite escapeFrom_zero.
  - rewrite append_cons. cbn [String.length] in Hskip.
    destruct skip as [|skip].
    + cbn [json.escapeFrom]. rewrite (Decode_app c p t Ht).
      pose proof (Decode_size c p) as Hsize. cbn [String.length] in Hsize.
      destruct (utf8.DecodeRuneInString (String c p)) as [r size]. cbn [snd] in Hsize.
      bool_cases; rewrite IH by lia; by rewrite ?append_assoc.
    + cbn [json.escapeFrom]. rewrite IH by lia. by rewrite append_assoc.
Qed.

Lemma escapeString_app (s t : string) :
  (t = "" ∨ ∃ c' t', t = String c' t' ∧ utf8.byteOf c' < 128) →
  json.escapeString (s +:+ t) = json.escapeString s +:+ json.escapeString t.
Proof. intros Ht. apply escapeFrom_app; [done|]. unfold json.escapeString. lia. Qed.

(** An ASCII byte at the head is escaped on its own. *)
Lemma escapeString_cons (c : ascii) (s : string) :
  utf8.byteOf c < 128 →
  json.escapeString (String c s) = json.escape c +:+ json.escapeString s.
Proof.
  intros Hc. unfold json.escapeString. cbn [json.escapeFrom].
  by destruct (Z.ltb_spec (utf8.byteOf c) utf8.RuneSelf); [|unfold utf8.RuneSelf in *; lia].
Qed.

(** The document of the catch-all handler, as the encoder writes it. *)
Lemma notFound_text (path : string) :
  json.Marshal {[ "error" := "Not Found";
                  "message" := "Path " +:+ path +:+ " not found. Try /health or /mcp" ]}
  = "{" +:+ json.quote +:+ "error" +:+ json.quote +:+ ":"
        +:+ json.quote +:+ "Not Found" +:+ json.quote +:+ ","
        +:+ json.quote +:+ "message" +:+ json.quote +:+ ":"
        +:+ json.quote +:+ "Path " +:+ json.escapeString path
        +:+ " not found. Try /health or /mcp" +:+ json.quote +:+ "}".
Proof.
  unfold json.Marshal.
  set (rest := " not found. Try /health or /mcp").
  set (message := "Path " +:+ path +:+ rest).
  assert (Hentries : json.sortedEntries {[ "error" := "Not Found"; "message" := message ]}
                     = [("error", "Not Found"); ("message", message)])
    by (vm_compute; reflexivity).
  rewrite Hentries. cbn [json.encodeEntries]. unfold json.encodeString.
  assert (Hmessage : json.escapeString message
                     = "Path " +:+ json.escapeString path +:+ rest).
  { subst message. rewrite !append_cons. change ("" +:+ path +:+ rest) with (path +:+ rest).
    rewrite !escapeString_cons by (vm_compute; reflexivity).
    rewrite escapeString_app by (right; eexists _, _; split; [reflexivity|vm_compute; reflexivity]).
    replace (json.escapeString rest) with rest by (vm_compute; reflexivity).
    reflexivity. }
  rewrite Hmessage.
  replace (json.escapeString "error") with "error" by (vm_compute; reflexivity).
  replace (json.escapeString "Not Found") with "Not Found" by (vm_compute; reflexivity).
  replace (json.escapeString "message") with "message" by (vm_compute; reflexivity).
  rewrite <- !append_assoc. reflexivity.
Qed.

End HttpMore.

(** X15. Unknown routes.  A request for a clean path other than [/mcp]
    and [/health] is answered with status 404, Content-Type
    [application/json] and a JSON document whose [message] quotes the path;
    the MCP handler is not called, the answer does not depend on the
    method, and no CORS header is added, whether CORS is enabled or not. *)
Theorem unknown_route_is_404 (corsFlag : bool) (server version : string)
    (handler : http.Handler) (r : http.Request) (w : http.ResponseWriter) :
  cleanPath (http.Path r) = true →
  http.Path r ≠ "/mcp" → http.Path r ≠ "/health" →
  http.committed w = None → http.sent w = [] →
  let w' := mux corsFlag server version handler r w in
  http.status w' = Some 404
  ∧ (∃ h, http.sentHeader w' = Some h
          ∧ http.Get "Content-Type" h = "application/json"
          ∧ ∀ key, key ≠ "Content-Type" → h !! key = http.header w !! key)
  ∧ http.sent w'
    = bytes ("{" +:+ json.quote +:+ "error" +:+ json.quote +:+ ":"
                 +:+ json.quote +:+ "Not Found" +:+ json.quote +:+ ","
                 +:+ json.quote +:+ "message" +:+ json.quote +:+ ":"
                 +:+ json.quote +:+ "Path " +:+ json.escapeString (http.Path r)
                 +:+ " not found. Try /health or /mcp" +:+ json.quote +:+ "}"
                 +:+ String "010"%char "")
  ∧ (∀ corsFlag' handler' r',
       http.Path r' = http.Path r →
       mux corsFlag' server version handler' r' w = w').
Proof.
  intros _ Hmcp Hhealth Hc Hs w'.
  assert (Hroute : ∀ c h r', http.Path r' = http.Path r →
            mux c server version h r' w
            = {| http.header := http.Set_ "Content-Type" "application/json" (http.header w);
                 http.committed :=
                   Some (404, http.Set_ "Content-Type" "application/json" (http.header w));
                 http.sent := bytes (json.Marshal
                   {[ "error" := "Not Found";
                      "message" := "Path " +:+ http.Path r
                                   +:+ " not found. Try /health or /mcp" ]}
                   +:+ String "010"%char "") |}).
  { intros c h r' Hp. unfold mux. rewrite Hp.
    rewrite !bool_decide_eq_false_2 by done.
    unfold notFoundHandler, json.Encode, http.Write, http.WriteHeader, http.SetHeader.
    change (http.validCode 404 && negb (http.informational 404)) with true.
    cbn [http.committed http.header http.sent snd]. rewrite Hc, Hp.
    cbn [http.committed http.header http.sent snd]. by rewrite Hs. }
  subst w'. rewrite (Hroute corsFlag handler r eq_refl).
  unfold http.status, http.sentHeader.
  cbn [http.committed http.sent fmap option_fmap option_map fst snd].
  split_and!.
  - reflexivity.
  - eexists. split; [reflexivity|]. split; [apply Get_Set_eq|].
    intros key Hkey. unfold http.Set_. by rewrite lookup_insert_ne.
  - rewrite notFound_text. by rewrite <- !append_assoc.
  - intros c h r' Hp. by apply Hroute.
Qed.

Lemma unknown_route_is_404_witness :
  let r := {| http.Method := "OPTIONS"; http.Path := "/metrics"; http.RemoteAddr := "" |} in
  let w' := moon.serve true (λ _ w, w) r http.fresh in
  http.status w' = Some 404
  ∧ ∃ h, http.sentHeader w' = Some h ∧ http.Get "Content-Type" h = "application/json".
Proof.
  intros r w'.
  destruct (unknown_route_is_404 true "moon-phase-server" "1.0.0" (λ _ w, w) r http.fresh)
    as (Hstatus & (h & Hh & Htype & _) & _ & _);
    [vm_compute; reflexivity|discriminate|discriminate|done|done|].
  split; [exact Hstatus|]. exists h. split; [exact Hh|exact Htype].
Defined.

(** X16. Requests that are not preflights.  For a method other than
    [OPTIONS] the CORS middleware calls the wrapped handler once, on a
    writer that differs from the one it was given only in the four CORS
    headers: nothing is committed or sent by the middleware itself, and
    every other header is left as it was. *)
Theorem cors_forwards_other_methods (next : http.Handler) (r : http.Request)
    (w : http.ResponseWriter) :
  http.Method r ≠ "OPTIONS" →
  ∃ w0,
    corsMiddleware next r w = next r w0
    ∧ http.committed w0 = http.committed w
    ∧ http.sent w0 = http.sent w
    ∧ http.Get "Access-Control-Allow-Origin" (http.header w0) = "*"
    ∧ http.Get "Access-Control-Allow-Methods" (http.header w0) = "GET, POST, OPTIONS"
    ∧ http.Get "Access-Control-Allow-Headers" (http.header w0) = "Content-Type, Authorization"
    ∧ http.Get "Access-Control-Expose-Headers" (http.header w0)
      = "Mcp-Session-Id, Content-Type, Cache-Control"
    ∧ ∀ key, key ∉ ["Access-Control-Allow-Origin"; "Access-Control-Allow-Methods";
                    "Access-Control-Allow-Headers"; "Access-Control-Expose-Headers"] →
             http.header w0 !! key = http.header w !! key.
Proof.
  intros Hm. eexists. split.
  { unfold corsMiddleware. rewrite bool_decide_eq_false_2 by done. reflexivity. }
  cbn [http.SetHeader http.committed http.sent http.header].
  split_and!; [done|done|..].
  - rewrite !Get_Set_ne by done. apply Get_Set_eq.
  - rewrite !Get_Set_ne by done. apply Get_Set_eq.
  - rewrite !Get_Set_ne by done. apply Get_Set_eq.
  - apply Get_Set_eq.
  - intros key Hkey. rewrite !not_elem_of_cons in Hkey.
    destruct Hkey as (? & ? & ? & ? & _). unfold http.Set_.
    by rewrite !lookup_insert_ne.
Qed.

Lemma cors_forwards_other_methods_witness :
  let r := {| http.Method := "POST"; http.Path := "/mcp"; http.RemoteAddr := "" |} in
  let next : http.Handler := λ _ w, (http.Write (bytes "{}") w).2 in
  ∃ w0,
    corsMiddleware next r http.fresh = next r w0
    ∧ http.sent w0 = []
    ∧ http.Get "Access-Control-Allow-Origin" (http.header w0) = "*".
Proof.
  intros r next.
  destruct (cors_forwards_other_methods next r http.fresh)
    as (w0 & Hw & _ & Hsent & Horigin & _); [discriminate|].
  exists w0. split_and!; [exact Hw|exact Hsent|exact Horigin].
Defined.

(** X17. The health route and CORS.  [/health] has no preflight branch:
    its answer is the same for every method, [OPTIONS] included.  On a
    writer with no header set, the headers it commits are Content-Type
    alone when CORS is disabled and, when CORS is enabled, Content-Type
    with the three headers Allow-Origin, Allow-Methods and Allow-Headers;
    Access-Control-Expose-Headers, which the middleware sets on [/mcp], is
    never among them. *)
Theorem health_headers (corsFlag : bool) (server version : string)
    (handler : http.Handler) (r : http.Request) (w : http.ResponseWriter) :
  http.Path r = "/health" →
  http.committed w = None →
  http.header w = ∅ →
  let w' := mux corsFlag server version handler r w in
  http.sentHeader w'
  = Some (if corsFlag
          then {[ "Content-Type" := ["application/json"];
                  "Access-Control-Allow-Origin" := ["*"];
                  "Access-Control-Allow-Methods" := ["GET, POST, OPTIONS"];
                  "Access-Control-Allow-Headers" := ["Content-Type, Authorization"] ]}
          else {[ "Content-Type" := ["application/json"] ]})
  ∧ (∀ h, http.sentHeader w' = Some h → h !! "Access-Control-Expose-Headers" = None)
  ∧ (∀ r', http.Path r' = "/health" → mux corsFlag server version handler r' w = w').
Proof.
  intros Hp Hc Hh w'.
  assert (Hroute : ∀ r', http.Path r' = "/health" →
            mux corsFlag server version handler r' w
            = json.Encode (healthDocument server version)
                (http.SetHeader "Content-Type" "application/json"
                   (if corsFlag
                    then http.SetHeader "Access-Control-Allow-Headers" "Content-Type, Authorization"
                           (http.SetHeader "Access-Control-Allow-Methods" "GET, POST, OPTIONS"
                              (http.SetHeader "Access-Control-Allow-Origin" "*" w))
                    else w))).
  { intros r' Hp'. unfold mux. rewrite Hp'. reflexivity. }
  assert (Hsent : http.sentHeader w'
    = Some (if corsFlag
            then {[ "Content-Type" := ["application/json"];
                    "Access-Control-Allow-Origin" := ["*"];
                    "Access-Control-Allow-Methods" := ["GET, POST, OPTIONS"];
                    "Access-Control-Allow-Headers" := ["Content-Type, Authorization"] ]}
            else {[ "Content-Type" := ["application/json"] ]})).
  { subst w'. rewrite (Hroute r Hp). rewrite Encode_fresh by (by destruct corsFlag).
    unfold http.sentHeader.
    cbn [http.committed fmap option_fmap option_map snd]. f_equal.
    destruct corsFlag; cbn [http.SetHeader http.header]; rewrite Hh;
      unfold http.Set_; vm_compute; reflexivity. }
  split_and!.
  - exact Hsent.
  - intros h. rewrite Hsent. intros [= <-]. by destruct corsFlag.
  - intros r' Hp'. subst w'. by rewrite !Hroute.
Qed.

Lemma health_headers_witness :
  let r := {| http.Method := "OPTIONS"; http.Path := "/health"; http.RemoteAddr := "" |} in
  let w' := quotes.serve true (λ _ w, w) r http.fresh in
  http.sentHeader w'
  = Some {[ "Content-Type" := ["application/json"];
            "Access-Control-Allow-Origin" := ["*"];
            "Access-Control-Allow-Methods" := ["GET, POST, OPTIONS"];
            "Access-Control-Allow-Headers" := ["Content-Type, Authorization"] ]}
  ∧ ∀ h, http.sentHeader w' = Some h → h !! "Access-Control-Expose-Headers" = None.
Proof.
  intros r w'.
  destruct (health_headers true "quotes-server" "1.0.0" (λ _ w, w) r http.fresh)
    as (Hheaders & Hexpose & _); [done..|].
  split; [exact Hheaders|exact Hexpose].
Defined.

(** ** The diagnostic response wrapper: what it misses *)

(** X18. Streaming is recognised by exact comparison only.  When the
    Content-Type at the time of [WriteHeader] is anything but exactly
    [text/event-stream] (a parameter such as a charset is enough), the
    response is not marked as streaming, and a run of writes is captured
    like any other body: the buffer holds the first 1024 bytes. *)
Theorem inexact_content_type_is_captured (rw : moon.responseWriter) (code : Z)
    (chunks : list (list byte)) :
  http.Get "Content-Type" (http.header (moon.ResponseWriter rw)) ≠ "text/event-stream" →
  moon.bodyLen rw <= 1024 →
  let rw' := moon.Writes chunks (moon.WriteHeader code rw) in
  moon.isStreaming rw' = false
  ∧ default [] (moon.body rw')
    = take 1024 (default [] (moon.body rw) ++ concat chunks).
Proof.
  intros Hct Hcap rw'.
  assert (Hs : moon.isStreaming (moon.WriteHeader code rw) = false).
  { cbn. by apply bool_decide_eq_false_2. }
  split.
  - subst rw'. by rewrite Writes_isStreaming.
  - subst rw'. destruct chunks as [|b chunks].
    + cbn [moon.Writes concat moon.WriteHeader moon.body].
      rewrite app_nil_r, take_ge; [done|]. unfold moon.bodyLen, len in Hcap. lia.
    + by rewrite Writes_capture.
Qed.

Lemma inexact_content_type_is_captured_witness :
  let w := http.SetHeader "Content-Type" "text/event-stream; charset=utf-8" http.fresh in
  let rw' := moon.Writes [bytes "data: 1"; bytes "data: 2"]
                         (moon.WriteHeader 200 (moon.wrap w)) in
  moon.isStreaming rw' = false
  ∧ default [] (moon.body rw') = bytes "data: 1" ++ bytes "data: 2".
Proof.
  intros w rw'. subst rw'.
  destruct (inexact_content_type_is_captured (moon.wrap w) 200 [bytes "data: 1"; bytes "data: 2"])
    as [Hs Hb]; [vm_compute; discriminate|vm_compute; discriminate|].
  split; [exact Hs|]. rewrite Hb. vm_compute. reflexivity.
Defined.

(** X19. A status committed by the first write is not recorded.  When a
    handler writes through a new wrapper without calling [WriteHeader], the
    connection commits status 200 with the headers as they stand, but the
    wrapper's status code remains 0 and its header copy [nil]; the response
    is not marked as streaming whatever its Content-Type is, so the body
    is captured (its first 1024 bytes) even for an event stream. *)
Theorem implicit_status_is_not_recorded (w : http.ResponseWriter)
    (chunks : list (list byte)) :
  http.committed w = None → chunks ≠ [] →
  let rw' := moon.Writes chunks (moon.wrap w) in
  http.committed (moon.ResponseWriter rw') = Some (200, http.header w)
  ∧ moon.statusCode rw' = 0
  ∧ moon.headers rw' = None
  ∧ moon.isStreaming rw' = false
  ∧ moon.body rw' = Some (take 1024 (concat chunks)).
Proof.
  intros Hc Hne rw'.
  assert (Hfields : ∀ cs rw, moon.statusCode (moon.Writes cs rw) = moon.statusCode rw
                             ∧ moon.headers (moon.Writes cs rw) = moon.headers rw).
  { induction cs as [|b cs IH]; intros rw; [done|]. cbn [moon.Writes].
    destruct (IH (moon.Write b rw).2) as [-> ->]. done. }
  assert (Hcommit : ∀ cs rw st, http.committed (moon.ResponseWriter rw) = Some st →
            http.committed (moon.ResponseWriter (moon.Writes cs rw)) = Some st).
  { induction cs as [|b cs IH]; intros rw st Hst; [done|]. cbn [moon.Writes].
    apply IH. cbn. unfold http.WriteHeader. by rewrite Hst. }
  split_and!.
  - subst rw'. destruct chunks as [|b chunks]; [done|]. cbn [moon.Writes].
    apply Hcommit. cbn. unfold http.WriteHeader. by rewrite Hc.
  - subst rw'. by destruct (Hfields chunks (moon.wrap w)) as [-> _].
  - subst rw'. by destruct (Hfields chunks (moon.wrap w)) as [_ ->].
  - subst rw'. by rewrite Writes_isStreaming.
  - subst rw'. rewrite Writes_capture; [done|done| |done]. vm_compute. discriminate.
Qed.

Lemma implicit_status_is_not_recorded_witness :
  let w := http.SetHeader "Content-Type" "text/event-stream" http.fresh in
  let rw' := moon.Writes [bytes "data: 1"] (moon.wrap w) in
  http.status (moon.ResponseWriter rw') = Some 200
  ∧ moon.statusCode rw' = 0
  ∧ moon.body rw' = Some (bytes "data: 1").
Proof.
  intros w rw'. subst rw'.
  destruct (implicit_status_is_not_recorded w [bytes "data: 1"])
    as (Hcommit & Hcode & _ & _ & Hbody); [done|done|].
  split_and!; [|exact Hcode|].
  - unfold http.status. by rewrite Hcommit.
  - rewrite Hbody. vm_compute. reflexivity.
Defined.



(** ** time: the calendar *)

Section CalendarFacts.

Import time.

Lemma isLeap_spec (y : Z) :
  isLeap y = true ↔ y mod 4 = 0 ∧ (y mod 100 ≠ 0 ∨ y mod 400 = 0).
Proof.
  unfold isLeap. rewrite andb_true_iff, orb_true_iff, negb_true_iff.
  rewrite !Z.eqb_eq, Z.eqb_neq. tauto.
Qed.

(** The year of the era from the day of the era. *)
Lemma yoe_of_doe (yoe doy : Z) :
  0 <= yoe <= 399 → 0 <= doy <= 365 →
  (doy = 365 → (yoe + 1) mod 4 = 0 ∧ ((yoe + 1) mod 100 ≠ 0 ∨ yoe = 399)) →
  let doe := yoe * 365 + yoe / 4 - yoe / 100 + doy in
  0 <= doe < 146097
  ∧ (doe - doe / 1460 + doe / 36524 - doe / 146096) / 365 = yoe.
Proof.
  intros Hy Hd Hleap doe. subst doe.
  split; Z.to_euclidean_division_equations; lia.
Qed.

(** The month, counted from March, and the day from the day of the year. *)
Lemma month_of_doy (mp d : Z) :
  0 <= mp <= 11 → 1 <= d <= 31 →
  (mp = 11 → d <= 29) → (mp = 1 ∨ mp = 3 ∨ mp = 6 ∨ mp = 8 → d <= 30) →
  let doy := (153 * mp + 2) / 5 + d - 1 in
  0 <= doy <= 365 ∧ (doy = 365 → mp = 11 ∧ d = 29)
  ∧ (5 * doy + 2) / 153 = mp ∧ doy - (153 * mp + 2) / 5 + 1 = d.
Proof.
  intros Hmp Hd H11 H30 doy. subst doy.
  assert (mp = 0 ∨ mp = 1 ∨ mp = 2 ∨ mp = 3 ∨ mp = 4 ∨ mp = 5 ∨ mp = 6 ∨ mp = 7
          ∨ mp = 8 ∨ mp = 9 ∨ mp = 10 ∨ mp = 11) as Hc by lia.
  destruct Hc as [->|[->|[->|[->|[->|[->|[->|[->|[->|[->|[->| ->]]]]]]]]]]];
    (repeat split; Z.to_euclidean_division_equations; lia).
Qed.

(** A day of the calendar is found again from its number. *)
Lemma civil_days (y m d : Z) :
  1 <= m <= 12 → 1 <= d <= daysIn m y →
  civilFromDays (daysFromCivil y m d) = (y, m, d).
Proof.
  intros Hm Hd. unfold daysFromCivil. cbv zeta.
  set (y' := if m <=? 2 then y - 1 else y).
  set (era := y' / 400). set (yoe := y' - era * 400).
  set (mp := if m >? 2 then m - 3 else m + 9).
  assert (Hyoe : 0 <= yoe <= 399) by (subst yoe era; Z.to_euclidean_division_equations; lia).
  assert (Hmp : 0 <= mp <= 11 ∧ m = (if mp <? 10 then mp + 3 else mp - 9)
                ∧ y = (if m <=? 2 then y' + 1 else y')).
  { subst mp y'. destruct (Z.gtb_spec m 2), (Z.leb_spec m 2); try lia.
    - destruct (Z.ltb_spec (m - 3) 10); lia.
    - destruct (Z.ltb_spec (m + 9) 10); lia. }
  destruct Hmp as (Hmp & Hm' & Hy').
  assert (Hlen : 1 <= d <= 31 ∧ (mp = 11 → d <= 29 ∧ (d = 29 → isLeap y = true))
                 ∧ (mp = 1 ∨ mp = 3 ∨ mp = 6 ∨ mp = 8 → d <= 30)).
  { unfold daysIn in Hd. subst mp.
    assert (m = 1 ∨ m = 2 ∨ m = 3 ∨ m = 4 ∨ m = 5 ∨ m = 6 ∨ m = 7 ∨ m = 8
            ∨ m = 9 ∨ m = 10 ∨ m = 11 ∨ m = 12) as Hc by lia.
    destruct Hc as [E|[E|[E|[E|[E|[E|[E|[E|[E|[E|[E|E]]]]]]]]]]]; rewrite E in *;
      cbn in Hd |- *; try lia.
    destruct (isLeap y); repeat split; try lia; try done. }
  destruct Hlen as (Hd31 & H11 & H30).
  destruct (month_of_doy mp d Hmp Hd31 ltac:(intros E; apply H11; exact E) H30)
    as (Hdoy & Hdoy365 & Hrmp & Hrd).
  set (doy := (153 * mp + 2) / 5 + d - 1) in *.
  destruct (yoe_of_doe yoe doy Hyoe Hdoy) as [Hdoe Hryoe].
  { intros E. destruct (Hdoy365 E) as [E11 E29]. destruct (H11 E11) as [_ Hl].
    specialize (Hl E29). apply isLeap_spec in Hl.
    assert (m = 2) by (subst mp; destruct (Z.gtb_spec m 2); lia).
    rewrite Hy' in Hl. destruct (Z.leb_spec m 2); [|lia].
    subst yoe era. clear - Hl. Z.to_euclidean_division_equations. lia. }
  set (doe := yoe * 365 + yoe / 4 - yoe / 100 + doy) in *.
  unfold civilFromDays. cbv zeta.
  replace (era * 146097 + doe - 719468 + 719468) with (doe + era * 146097) by lia.
  rewrite Z.div_add by lia. rewrite (Z.div_small doe) by lia. rewrite Z.add_0_l.
  replace (doe + era * 146097 - era * 146097) with doe by lia.
  rewrite Hryoe.
  replace (doe - (365 * yoe + yoe / 4 - yoe / 100)) with doy by (subst doe; lia).
  rewrite Hrmp, Hrd, <- Hm'. f_equal. f_equal.
  rewrite Hy'. subst yoe. destruct (m <=? 2); lia.
Qed.

(** Every number of days is the number of a day of the calendar. *)
Lemma days_civil (z : Z) :
  let '(y, m, d) := civilFromDays z in
  daysFromCivil y m d = z ∧ 1 <= m <= 12 ∧ 1 <= d <= daysIn m y.
Proof.
  unfold civilFromDays. cbv zeta.
  set (z' := z + 719468). set (era := z' / 146097). set (doe := z' - era * 146097).
  assert (Hdoe : 0 <= doe < 146097) by (subst doe era; Z.to_euclidean_division_equations; lia).
  set (yoe := (doe - doe / 1460 + doe / 36524 - doe / 146096) / 365).
  set (doy := doe - (365 * yoe + yoe / 4 - yoe / 100)).
  assert (Hyoe : 0 <= yoe <= 399 ∧ 0 <= doy <= 365
                 ∧ (doy = 365 → (yoe + 1) mod 4 = 0 ∧ ((yoe + 1) mod 100 ≠ 0 ∨ yoe = 399))).
  { subst doy yoe. repeat split; Z.to_euclidean_division_equations; lia. }
  destruct Hyoe as (Hyoe & Hdoy & Hleap).
  set (mp := (5 * doy + 2) / 153).
  set (d := doy - (153 * mp + 2) / 5 + 1).
  assert (Hmp : 0 <= mp <= 11 ∧ 1 <= d <= 31 ∧ (mp = 11 → d <= 29 ∧ (d = 29 → doy = 365))
                ∧ (mp = 1 ∨ mp = 3 ∨ mp = 6 ∨ mp = 8 → d <= 30)).
  { subst d mp. clear - Hdoy. repeat split; Z.to_euclidean_division_equations; lia. }
  destruct Hmp as (Hmp & Hd & H11 & H30).
  set (m := if mp <? 10 then mp + 3 else mp - 9).
  set (y := if m <=? 2 then yoe + era * 400 + 1 else yoe + era * 400).
  assert (Hm : 1 <= m <= 12 ∧ (if m >? 2 then m - 3 else m + 9) = mp
               ∧ (if m <=? 2 then y - 1 else y) = yoe + era * 400).
  { subst y m. destruct (Z.ltb_spec mp 10).
    - destruct (Z.gtb_spec (mp + 3) 2), (Z.leb_spec (mp + 3) 2); lia.
    - destruct (Z.gtb_spec (mp - 9) 2), (Z.leb_spec (mp - 9) 2); lia. }
  destruct Hm as (Hm & Hmp' & Hy').
  split_and!; [|lia|lia|lia|].
  - unfold daysFromCivil. cbv zeta. rewrite Hmp', Hy'.
    replace ((yoe + era * 400) / 400) with era
      by (symmetry; rewrite Z.div_add by lia; rewrite Z.div_small by lia; lia).
    replace (yoe + era * 400 - era * 400) with yoe by lia.
    fold mp. subst d doy doe z'. lia.
  - unfold daysIn.
    assert (mp = 0 ∨ mp = 1 ∨ mp = 2 ∨ mp = 3 ∨ mp = 4 ∨ mp = 5 ∨ mp = 6 ∨ mp = 7
            ∨ mp = 8 ∨ mp = 9 ∨ mp = 10 ∨ mp = 11) as Hc by lia.
    assert (Hfeb : m = 2 → d = 29 → isLeap y = true).
    { intros E2 E29. assert (mp = 11) as E11 by (subst m; destruct (Z.ltb_spec mp 10); lia).
      destruct (H11 E11) as [_ H365]. specialize (Hleap (H365 E29)).
      apply isLeap_spec. subst y. rewrite E2. cbn [Z.leb Z.compare Pos.compare Pos.compare_cont].
      clear - Hleap Hyoe. Z.to_euclidean_division_equations. lia. }
    assert (Hmm : m = if mp <? 10 then mp + 3 else mp - 9) by done.
    clearbody m d y.
    destruct Hc as [E|[E|[E|[E|[E|[E|[E|[E|[E|[E|[E|E]]]]]]]]]]]; rewrite E in *;
      vm_compute in Hmm; rewrite Hmm in *; cbn [Z.eqb Pos.eqb orb]; try lia.
    destruct (isLeap y) eqn:Hl; [lia|].
    destruct (H11 eq_refl) as [H29 _].
    destruct (decide (d = 29)) as [E29|]; [|lia]. by specialize (Hfeb eq_refl E29).
Qed.

(** The number of a day grows with the day of the month. *)
Lemma daysFromCivil_day (y m d : Z) : daysFromCivil y m d = daysFromCivil y m 1 + (d - 1).
Proof. unfold daysFromCivil. cbv zeta. lia. Qed.

(** [Date] at midnight, for a month from 1 to 12. *)
Lemma Date_midnight (y m d : Z) :
  1 <= m <= 12 → Date y m d 0 0 0 0 = daysFromCivil y m d * Day.
Proof.
  intros Hm. unfold Date. cbv zeta.
  replace ((m - 1) / 12) with 0 by (Z.to_euclidean_division_equations; lia).
  replace ((m - 1) mod 12 + 1) with m by (Z.to_euclidean_division_equations; lia).
  replace (y + 0) with y by lia. rewrite (daysFromCivil_day y m d). ring.
Qed.

(** In UTC, adding days to a date moves the instant by as many times 24
    hours. *)
Lemma AddDate_days (k : Z) (t : Time) : AddDate 0 0 k t = t + k * Day.
Proof.
  unfold AddDate. pose proof (days_civil (t / Day)) as Hc.
  destruct (civilFromDays (t / Day)) as [[y m] d]. destruct Hc as (Hz & Hm & Hd).
  unfold Date. cbv zeta. rewrite !Z.add_0_r.
  replace ((m - 1) / 12) with 0 by (Z.to_euclidean_division_equations; lia).
  replace ((m - 1) mod 12 + 1) with m by (Z.to_euclidean_division_equations; lia).
  rewrite Z.add_0_r. rewrite (daysFromCivil_day y m d) in Hz.
  assert (HD : Day = 86400000000000) by reflexivity.
  pose proof (Z.div_mod t Day ltac:(lia)) as Ht. rewrite HD in *. lia.
Qed.

Lemma daysIn_bounds (m y : Z) : 28 <= daysIn m y <= 31.
Proof.
  unfold daysIn. destruct (m =? 2), (isLeap y); [lia|lia|..];
    destruct ((m =? 4) || (m =? 6) || (m =? 9) || (m =? 11)); lia.
Qed.

(** From the first of a month to the first of the next there are as many
    days as the month has. *)
Lemma month_length (y m : Z) :
  1 <= m <= 12 →
  daysFromCivil (y + m / 12) (m mod 12 + 1) 1 = daysFromCivil y m 1 + daysIn m y.
Proof.
  intros Hm.
  assert (m = 1 ∨ m = 2 ∨ m = 3 ∨ m = 4 ∨ m = 5 ∨ m = 6 ∨ m = 7 ∨ m = 8
          ∨ m = 9 ∨ m = 10 ∨ m = 11 ∨ m = 12) as Hc by lia.
  unfold daysIn.
  destruct (isLeap y) eqn:Hl;
    [apply isLeap_spec in Hl
    |assert (¬ (y mod 4 = 0 ∧ (y mod 100 ≠ 0 ∨ y mod 400 = 0)))
       by (rewrite <- isLeap_spec; congruence)].
  all: destruct Hc as [E|[E|[E|[E|[E|[E|[E|[E|[E|[E|[E|E]]]]]]]]]]]; rewrite E;
    match goal with
    | |- context [Z.div ?a 12] =>
      let q := eval vm_compute in (Z.div a 12) in
      let r := eval vm_compute in (Z.modulo a 12 + 1) in
      change (Z.div a 12) with q; change (Z.modulo a 12 + 1) with r
    end;
    unfold daysFromCivil; cbn [Z.eqb Pos.eqb orb Z.leb Z.gtb Z.compare Pos.compare
                               Pos.compare_cont]; cbv zeta.
  all: Z.to_euclidean_division_equations; lia.
Qed.

(** The first day of the next month comes as many days later as the month
    has. *)
Lemma next_month (y m : Z) :
  1 <= m <= 12 →
  AddDate 0 1 0 (Date y m 1 0 0 0 0) = Date y m 1 0 0 0 0 + daysIn m y * Day.
Proof.
  intros Hm. rewrite (Date_midnight y m 1 Hm). unfold AddDate.
  assert (HD : Day = 86400000000000) by reflexivity.
  rewrite Z.div_mul by lia. rewrite Z.mod_mul by lia.
  pose proof (daysIn_bounds m y).
  rewrite civil_days; [|lia|lia].
  unfold Date. cbv zeta.
  replace (m + 1 - 1) with m by lia. replace (y + 0 + m / 12) with (y + m / 12) by lia.
  rewrite month_length by done. ring.
Qed.

End CalendarFacts.
(** ** time: dates as text *)

Section DateText.

Import time.

Lemma digit_round (c : ascii) (v : Z) :
  digitVal c = Some v → 0 <= v <= 9 ∧ digitChar v = c.
Proof.
  unfold digitVal, digitChar. cbv zeta.
  destruct (Z.leb_spec 48 (Z.of_N (N_of_ascii c))); [|done].
  destruct (Z.leb_spec (Z.of_N (N_of_ascii c)) 57); [|done].
  cbn [andb]. intros [= <-]. split; [lia|].
  replace (48 + Z.to_N (Z.of_N (N_of_ascii c) - 48))%N with (N_of_ascii c) by lia.
  apply ascii_N_embedding.
Qed.

(** Two and four digits, zero-padded. *)
Lemma appendInt_2 (a b : Z) :
  0 <= a <= 9 → 0 <= b <= 9 →
  appendInt (10 * a + b) 2 = String (digitChar a) (String (digitChar b) "").
Proof.
  intros Ha Hb. unfold appendInt. cbv zeta.
  rewrite Z.abs_eq by lia.
  destruct (Z.ltb_spec (10 * a + b) 0); [lia|].
  change (10 ^ Z.of_nat 2) with 100.
  destruct (Z.ltb_spec (10 * a + b) 100); [|lia].
  cbn [lowDigits].
  replace ((10 * a + b) mod 10) with b by (Z.to_euclidean_division_equations; lia).
  replace ((10 * a + b) / 10) with a by (Z.to_euclidean_division_equations; lia).
  replace (a mod 10) with a by (Z.to_euclidean_division_equations; lia).
  reflexivity.
Qed.

Lemma appendInt_4 (a b c d : Z) :
  0 <= a <= 9 → 0 <= b <= 9 → 0 <= c <= 9 → 0 <= d <= 9 →
  appendInt (1000 * a + 100 * b + 10 * c + d) 4
  = String (digitChar a) (String (digitChar b) (String (digitChar c) (String (digitChar d) ""))).
Proof.
  intros Ha Hb Hc Hd. unfold appendInt. cbv zeta.
  set (y := 1000 * a + 100 * b + 10 * c + d).
  rewrite Z.abs_eq by lia.
  destruct (Z.ltb_spec y 0); [lia|].
  change (10 ^ Z.of_nat 4) with 10000.
  destruct (Z.ltb_spec y 10000); [|lia].
  cbn [lowDigits].
  replace (y mod 10) with d by (subst y; Z.to_euclidean_division_equations; lia).
  replace (y / 10) with (100 * a + 10 * b + c)
    by (subst y; Z.to_euclidean_division_equations; lia).
  replace ((100 * a + 10 * b + c) mod 10) with c by (Z.to_euclidean_division_equations; lia).
  replace ((100 * a + 10 * b + c) / 10) with (10 * a + b)
    by (Z.to_euclidean_division_equations; lia).
  replace ((10 * a + b) mod 10) with b by (Z.to_euclidean_division_equations; lia).
  replace ((10 * a + b) / 10) with a by (Z.to_euclidean_division_equations; lia).
  replace (a mod 10) with a by (Z.to_euclidean_division_equations; lia).
  reflexivity.
Qed.

(** The text of a day of the calendar at midnight UTC. *)
Lemma Format_midnight (y m d : Z) :
  1 <= m <= 12 → 1 <= d <= daysIn m y →
  Format 0 (Date y m d 0 0 0 0)
  = appendInt y 4 +:+ "-" +:+ appendInt m 2 +:+ "-" +:+ appendInt d 2.
Proof.
  intros Hm Hd. unfold Format. rewrite Date_midnight by done.
  assert (HD : Day = 86400000000000) by reflexivity.
  replace (daysFromCivil y m d * Day + 0 * Second) with (daysFromCivil y m d * Day) by lia.
  rewrite Z.div_mul by lia. by rewrite civil_days.
Qed.

(** What [Parse] accepts, and the instant it returns. *)
Lemma Parse_inl (errorText : string → string) (value : string) (t : Time) :
  Parse errorText value = inl t →
  ∃ a b c d e f g h,
    value = String (digitChar a) (String (digitChar b) (String (digitChar c)
              (String (digitChar d) (String "-" (String (digitChar e) (String (digitChar f)
                (String "-" (String (digitChar g) (String (digitChar h) "")))))))))
    ∧ 0 <= a <= 9 ∧ 0 <= b <= 9 ∧ 0 <= c <= 9 ∧ 0 <= d <= 9
    ∧ 0 <= e <= 9 ∧ 0 <= f <= 9 ∧ 0 <= g <= 9 ∧ 0 <= h <= 9
    ∧ 1 <= 10 * e + f <= 12
    ∧ 1 <= 10 * g + h <= daysIn (10 * e + f) (1000 * a + 100 * b + 10 * c + d)
    ∧ t = Date (1000 * a + 100 * b + 10 * c + d) (10 * e + f) (10 * g + h) 0 0 0 0.
Proof.
  unfold Parse. intros Hp.
  rewrite <- (string_of_list_ascii_of_string value).
  destruct (list_ascii_of_string value)
    as [|y1 [|y2 [|y3 [|y4 [|h1 [|m1 [|m2 [|h2 [|d1 [|d2 [|? ?]]]]]]]]]]]; try done.
  destruct (digitVal y1) as [a|] eqn:Ea; [|done].
  destruct (digitVal y2) as [b|] eqn:Eb; [|done].
  destruct (digitVal y3) as [c|] eqn:Ec; [|done].
  destruct (digitVal y4) as [d|] eqn:Ed; [|done].
  destruct (digitVal m1) as [e|] eqn:Ee; [|done].
  destruct (digitVal m2) as [f|] eqn:Ef; [|done].
  destruct (digitVal d1) as [g|] eqn:Eg; [|done].
  destruct (digitVal d2) as [h|] eqn:Eh; [|done].
  cbv zeta in Hp.
  destruct (Ascii.eqb_spec h1 "-"%char) as [->|]; [|done].
  destruct (Ascii.eqb_spec h2 "-"%char) as [->|]; [|done].
  cbn [andb] in Hp.
  destruct (Z.leb_spec 1 (10 * e + f)); [|done].
  destruct (Z.leb_spec (10 * e + f) 12); [|done].
  destruct (Z.leb_spec 1 (10 * g + h)); [|done].
  destruct (Z.leb_spec (10 * g + h)
              (daysIn (10 * e + f) (1000 * a + 100 * b + 10 * c + d))); [|done].
  cbn [andb] in Hp. injection Hp as <-.
  apply digit_round in Ea as [? <-], Eb as [? <-], Ec as [? <-], Ed as [? <-],
                       Ee as [? <-], Ef as [? <-], Eg as [? <-], Eh as [? <-].
  exists a, b, c, d, e, f, g, h. cbn [string_of_list_ascii]. split_and!; done || lia.
Qed.

(** Formatting gives back the text that was parsed. *)
Lemma Format_Parse (errorText : string → string) (value : string) (t : Time) :
  Parse errorText value = inl t → Format 0 t = value.
Proof.
  intros (a & b & c & d & e & f & g & h & -> & Ha & Hb & Hc & Hd & He & Hf & Hg & Hh
          & Hm & Hday & ->)%Parse_inl.
  rewrite Format_midnight by done.
  rewrite appendInt_4, !appendInt_2 by done. reflexivity.
Qed.

(** A formatted date is never the empty string. *)
Lemma Format_nonempty (offset : Z) (t : Time) : Format offset t ≠ "".
Proof.
  unfold Format. destruct (civilFromDays _) as [[y m] d].
  intros H%(f_equal String.length). rewrite !length_append in H. cbn in H. lia.
Qed.

End DateText.
(** ** moon-phase-server: days until the full moon, phase and illumination *)

Section MoonMore.

Variable S : Z.
Hypothesis HS : 2200 <= S.

Abbreviation val := (f64.value S).
Abbreviation FZ := f64.wellformed.

Import moon.

(** The position in the cycle is a number of the format, in [0, 1). *)
Lemma cyclePosition_ok (t : Time) :
  FZ (cyclePosition t) ∧ 0 <= val (cyclePosition t) < 2 ^ S.
Proof.
  set (d := Sub t knownNewMoon).
  assert (Hd : - 2 ^ 63 <= d < 2 ^ 63).
  { subst d. unfold Sub, minDuration, maxDuration. lia. }
  destruct (raw_position S HS d Hd) as (Hx & Hr & Hpos & Hneg).
  cbv zeta in Hx, Hr, Hpos, Hneg.
  pose proof (normalised_position S HS _ Hx Hr) as Hn.
  cbv zeta in Hn. apply Hn.
  intros Hlt. apply Hneg. destruct (Z.lt_ge_cases d 0) as [|Hge]; [done|].
  specialize (Hpos Hge). lia.
Qed.

(** The value of a float given by its sign, mantissa and exponent. *)
Lemma const_value (c : float64) (s : bool) (m : positive) (e : Z) :
  c = S754_finite s m e → -1074 <= e <= 0 →
  val c * 2 ^ (- e) = cond_Zopp s (Z.pos m) * 2 ^ S.
Proof.
  intros -> He. rewrite (v_finite S).
  assert (2 ^ S = 2 ^ (e + S) * 2 ^ (- e)) as ->.
  { rewrite <- Z.pow_add_r by lia. f_equal. lia. }
  destruct s; cbn [cond_Zopp]; lia.
Qed.

(** Multiplication by a constant [c = M / D]. *)
Lemma mul_const_ok (x c lo hi : float64) (M D : Z) :
  FZ x → FZ c → FZ lo → FZ hi → 0 < D →
  val c * D = M * 2 ^ S →
  val lo * D <= val x * M <= val hi * D →
  FZ (f64.mul x c) ∧ val lo <= val (f64.mul x c) <= val hi.
Proof.
  intros Hx Hc Hlo Hhi HD Hval Hb.
  pose proof (pow2_pos S ltac:(lia)) as HPS.
  apply (mul_ok S HS); [done..|].
  set (P := 2 ^ S) in *. set (vx := val x) in *. set (vc := val c) in *.
  set (vlo := val lo) in *. set (vhi := val hi) in *.
  clearbody P vx vc vlo vhi.
  assert (He : vx * vc * D = vx * M * P).
  { replace (vx * vc * D) with (vx * (vc * D)) by ring. rewrite Hval. ring. }
  assert (H1 : vlo * P * D <= vx * vc * D).
  { rewrite He. replace (vlo * P * D) with (vlo * D * P) by ring.
    apply Z.mul_le_mono_nonneg_r; lia. }
  assert (H2 : vx * vc * D <= vhi * P * D).
  { rewrite He. replace (vhi * P * D) with (vhi * D * P) by ring.
    apply Z.mul_le_mono_nonneg_r; lia. }
  split; [by apply Z.mul_le_mono_pos_r in H1|by apply Z.mul_le_mono_pos_r in H2].
Qed.

(** Truncation of a number that is not negative is the floor. *)
Lemma toInt_floor (x : float64) :
  FZ x → 0 <= val x →
  f64.toInt x * 2 ^ S <= val x < (f64.toInt x + 1) * 2 ^ S.
Proof.
  intros Hx Hpos.
  destruct (toInt_spec S HS x Hx) as (z & e & Hval & Hz & He & Hp & _ & Hsmall & _).
  destruct (Hp Hpos) as [Hz0 Ht0].
  pose proof (pow2_pos (e + S) ltac:(lia)).
  assert (0 <= z * 2 ^ (e + S)) by nia.
  rewrite Z.abs_eq in Hsmall by done. lia.
Qed.

Lemma toInt_between (x : float64) (lo hi : Z) :
  FZ x → 0 <= lo → lo * 2 ^ S <= val x < hi * 2 ^ S → lo <= f64.toInt x < hi.
Proof.
  intros Hx Hlo Hb. pose proof (pow2_pos S ltac:(lia)) as HPS.
  destruct (toInt_floor x Hx) as [H1 H2]; [nia|]. nia.
Qed.

(** The fused multiply-add of three finite numbers rounds their exact
    combination. *)
Lemma fma_bounds (sx sy sz : bool) (mx my mz : positive) (ex ey ez : Z) (lo hi : float64) :
  let x := S754_finite sx mx ex in
  let y := S754_finite sy my ey in
  let z := S754_finite sz mz ez in
  FZ x → FZ y → FZ z → FZ lo → FZ hi →
  val lo * 2 ^ S <= val x * val y + val z * 2 ^ S <= val hi * 2 ^ S →
  FZ (f64.fma x y z) ∧ val lo <= val (f64.fma x y z) <= val hi.
Proof.
  intros x y z Hx Hy Hz Hlo Hhi Hb. subst x y z.
  pose proof (FZ_exp _ _ _ Hx). pose proof (FZ_exp _ _ _ Hy). pose proof (FZ_exp _ _ _ Hz).
  pose proof (pow2_pos S ltac:(lia)) as HPS.
  cbn [f64.fma]. cbv zeta.
  apply (binary_normalize_bounds S HS); [lia|done|done|].
  rewrite Z.mul_add_distr_r, !(aligned_value S) by lia.
  rewrite !(v_finite S) in Hb |- *. rewrite !Z.mul_1_r.
  assert (Hprod : cond_Zopp sx (Z.pos mx * 2 ^ (ex + S)) * cond_Zopp sy (Z.pos my * 2 ^ (ey + S))
                  = cond_Zopp (xorb sx sy) (Z.pos (mx * my) * 2 ^ (ex + ey + S)) * 2 ^ S).
  { assert (2 ^ (ex + S) * 2 ^ (ey + S) = 2 ^ (ex + ey + S) * 2 ^ S) as Hp.
    { rewrite <- !Z.pow_add_r by lia. f_equal. lia. }
    rewrite Pos2Z.inj_mul.
    destruct sx, sy; cbn [cond_Zopp xorb]; nia. }
  rewrite Hprod, <- Z.mul_add_distr_r in Hb. rewrite (v_finite S sz mz ez) in Hb.
  destruct Hb as [Hb1 Hb2].
  split; [by apply Z.mul_le_mono_pos_r in Hb1|by apply Z.mul_le_mono_pos_r in Hb2].
Qed.

End MoonMore.

(** Poses the value of the constant [c], a finite float, as an equation
    between integers. *)
Ltac float_const S HS c H :=
  let v := eval vm_compute in c in
  lazymatch v with
  | S754_finite ?s ?m ?e =>
    let d := eval vm_compute in (2 ^ (- e)) in
    let n := eval vm_compute in (cond_Zopp s (Z.pos m)) in
    assert (H : f64.wellformed c ∧ f64.value S c * d = n * 2 ^ S)
      by (split; [vm_compute; reflexivity
                 |exact (const_value S HS c s m e ltac:(vm_compute; reflexivity) ltac:(lia))])
  end.

Section DaysUntilFull.

Variable S : Z.
Hypothesis HS : 2200 <= S.

Abbreviation val := (f64.value S).
Abbreviation FZ := f64.wellformed.

Import moon.

(** [0.5 - cyclePosition], by the sixteenth in which the position lies. *)
Lemma half_minus (cp : float64) :
  FZ cp → 0 <= val cp < 2 ^ S →
  let a := f64.sub (f64.ratio 1 2) cp in
  FZ a ∧ - 2 ^ S <= 2 * val a <= 2 ^ S
  ∧ (2 * val cp <= 2 ^ S → 0 <= val a)
  ∧ (2 ^ S <= 2 * val cp → val a <= 0)
  ∧ (16 * val cp <= 7 * 2 ^ S → 2 ^ S <= 16 * val a)
  ∧ (9 * 2 ^ S <= 16 * val cp → 16 * val a <= - 2 ^ S)
  ∧ (7 * 2 ^ S <= 16 * val cp <= 9 * 2 ^ S → - 2 ^ S <= 16 * val a <= 2 ^ S).
Proof.
  intros Hcp Hr a. pose proof (pow2_pos S ltac:(lia)) as HPS.
  float_const S HS (f64.ratio 1 2) Hh. destruct Hh as [Hh Vh].
  float_const S HS (f64.ratio (-1) 2) Hm. destruct Hm as [Hm Vm].
  float_const S HS (f64.ratio 1 16) H1. destruct H1 as [H1 V1].
  float_const S HS (f64.ratio (-1) 16) H2. destruct H2 as [H2 V2].
  destruct (of_Z_ok S HS 0) as [H0 V0]; [done|].
  assert (Hsub : ∀ lo hi, FZ lo → FZ hi →
            val lo <= val (f64.ratio 1 2) - val cp <= val hi →
            FZ a ∧ val lo <= val a <= val hi).
  { intros lo hi Hlo Hhi Hb. by apply (sub_ok S HS). }
  split_and!.
  - by apply (Hsub (f64.ratio (-1) 2) (f64.ratio 1 2)); [done|done|lia].
  - destruct (Hsub (f64.ratio (-1) 2) (f64.ratio 1 2)); [done|done|lia|lia].
  - destruct (Hsub (f64.ratio (-1) 2) (f64.ratio 1 2)); [done|done|lia|lia].
  - intros Hc. destruct (Hsub (f64.of_Z 0) (f64.ratio 1 2)); [done|done|lia|lia].
  - intros Hc. destruct (Hsub (f64.ratio (-1) 2) (f64.of_Z 0)); [done|done|lia|lia].
  - intros Hc. destruct (Hsub (f64.ratio 1 16) (f64.ratio 1 2)); [done|done|lia|lia].
  - intros Hc. destruct (Hsub (f64.ratio (-1) 2) (f64.ratio (-1) 16)); [done|done|lia|lia].
  - intros Hc. destruct (Hsub (f64.ratio (-1) 16) (f64.ratio 1 16)); [done|done|lia|lia].
Qed.

(** The length of the synodic month, between 29 and 30 days. *)
Lemma synodicMonth_value :
  FZ synodicMonth
  ∧ val synodicMonth * 281474976710656 = 8312121758140212 * 2 ^ S
  ∧ 29 * 2 ^ S <= val synodicMonth < 30 * 2 ^ S.
Proof.
  pose proof (pow2_pos S ltac:(lia)) as HPS.
  float_const S HS synodicMonth Hs. destruct Hs as [Hs Vs].
  split_and!; [done|done|lia|lia].
Qed.

(** [(0.5 - cyclePosition) * synodicMonth] *)
Lemma days_product (a : float64) :
  FZ a → - 2 ^ S <= 2 * val a <= 2 ^ S →
  let p := f64.mul a synodicMonth in
  FZ p ∧ - 15 * 2 ^ S <= val p <= 15 * 2 ^ S
  ∧ (0 <= val a → 0 <= val p)
  ∧ (val a <= 0 → val p <= 0)
  ∧ (2 ^ S <= 16 * val a → 2 ^ S <= val p)
  ∧ (16 * val a <= - 2 ^ S → val p <= - 2 ^ S)
  ∧ (- 2 ^ S <= 16 * val a <= 2 ^ S → - 15 * 2 ^ S <= 8 * val p <= 15 * 2 ^ S).
Proof.
  intros Ha Hr p. pose proof (pow2_pos S ltac:(lia)) as HPS.
  destruct synodicMonth_value as (Hs & Vs & _).
  destruct (of_Z_ok S HS 0) as [H0 V0]; [done|].
  destruct (of_Z_ok S HS 1) as [H1 V1]; [done|].
  destruct (of_Z_ok S HS (-1)) as [Hm1 Vm1]; [done|].
  destruct (of_Z_ok S HS 15) as [H15 V15]; [done|].
  destruct (of_Z_ok S HS (-15)) as [Hm15 Vm15]; [done|].
  float_const S HS (f64.ratio 15 8) Hu. destruct Hu as [Hu Vu].
  float_const S HS (f64.ratio (-15) 8) Hl. destruct Hl as [Hl Vl].
  assert (Hmul : ∀ lo hi, FZ lo → FZ hi →
            val lo * 281474976710656 <= val a * 8312121758140212
              <= val hi * 281474976710656 →
            FZ p ∧ val lo <= val p <= val hi).
  { intros lo hi Hlo Hhi Hb.
    by apply (mul_const_ok S HS a synodicMonth lo hi 8312121758140212 281474976710656). }
  split_and!.
  - by apply (Hmul (f64.of_Z (-15)) (f64.of_Z 15)); [done|done|lia].
  - destruct (Hmul (f64.of_Z (-15)) (f64.of_Z 15)); [done|done|lia|lia].
  - destruct (Hmul (f64.of_Z (-15)) (f64.of_Z 15)); [done|done|lia|lia].
  - intros Hc. destruct (Hmul (f64.of_Z 0) (f64.of_Z 15)); [done|done|lia|lia].
  - intros Hc. destruct (Hmul (f64.of_Z (-15)) (f64.of_Z 0)); [done|done|lia|lia].
  - intros Hc. destruct (Hmul (f64.of_Z 1) (f64.of_Z 15)); [done|done|lia|lia].
  - intros Hc. destruct (Hmul (f64.of_Z (-15)) (f64.of_Z (-1))); [done|done|lia|lia].
  - intros Hc. destruct (Hmul (f64.ratio (-15) 8) (f64.ratio 15 8)); [done|done|lia|lia].
Qed.

(** The sum with [synodicMonth] in the negative branch, rounded once or
    twice. *)
Lemma days_wrapped (fused : bool) (a : float64) :
  FZ a → - 2 ^ S <= 2 * val a <= 2 ^ S →
  val (f64.mul a synodicMonth) < 0 →
  let q := if fused then f64.fma a synodicMonth synodicMonth
           else f64.add (f64.mul a synodicMonth) synodicMonth in
  FZ q ∧ 14 * 2 ^ S <= val q < 30 * 2 ^ S
  ∧ (- 2 ^ S <= 16 * val a → 27 * 2 ^ S <= val q).
Proof.
  intros Ha Hr Hneg q. pose proof (pow2_pos S ltac:(lia)) as HPS.
  destruct synodicMonth_value as (Hs & Vs & Hsm).
  destruct (days_product a Ha Hr) as (Hp & Hpr & Hpos & _ & _ & _ & Hnear).
  cbv zeta in Hp, Hpr, Hpos, Hnear.
  assert (Haneg : val a < 0) by (destruct (Z.lt_ge_cases (val a) 0); [done|]; lia).
  destruct (of_Z_ok S HS 14) as [H14 V14]; [done|].
  destruct (of_Z_ok S HS 27) as [H27 V27]; [done|].
  assert (Hq : ∀ lo c, FZ lo →
            val lo <= val (f64.mul a synodicMonth) + val synodicMonth →
            0 <= c → c * 2 ^ S <= 16 * (val a + 2 ^ S) → 16 * val lo <= 29 * c * 2 ^ S →
            FZ q ∧ val lo <= val q <= val synodicMonth).
  { intros lo c Hlo Hb1 Hc0 Hc1 Hc2. subst q. destruct fused.
    - destruct a as [sa| | |sa ma ea];
        [rewrite (v_zero S) in Haneg; lia|destruct Ha|destruct Ha|].
      assert (Hsyn : synodicMonth = S754_finite false 8312121758140212 (-48))
        by (vm_compute; reflexivity).
      rewrite Hsyn in *.
      apply (fma_bounds S HS); [exact Ha|exact Hs|exact Hs|exact Hlo|exact Hs|].
      set (vs := val (S754_finite false 8312121758140212 (-48))) in *.
      set (va := val (S754_finite sa ma ea)) in *.
      set (vl := val lo) in *. set (P := 2 ^ S) in *.
      clearbody vs va vl P.
      replace (va * vs + vs * P) with (vs * (va + P)) by ring.
      split.
      + assert (E1 : 16 * vl * P <= 29 * c * P * P)
          by (apply Z.mul_le_mono_nonneg_r; lia).
        assert (E2 : 29 * P * (c * P) <= 29 * P * (16 * (va + P)))
          by (apply Z.mul_le_mono_nonneg_l; lia).
        assert (E3 : 29 * P * (16 * (va + P)) <= vs * (16 * (va + P)))
          by (apply Z.mul_le_mono_nonneg_r; lia).
        lia.
      + apply Z.mul_le_mono_nonneg_l; lia.
    - apply (add_ok S HS); [exact Hp|exact Hs|exact Hlo|exact Hs|]. lia. }
  split_and!.
  - by apply (Hq (f64.of_Z 14) 8); [exact H14|lia|lia|lia|lia].
  - destruct (Hq (f64.of_Z 14) 8); [exact H14|lia|lia|lia|lia|lia].
  - destruct (Hq (f64.of_Z 14) 8); [exact H14|lia|lia|lia|lia|lia].
  - intros Hc. destruct (Hq (f64.of_Z 27) 15); [exact H27|lia|lia|lia|lia|lia].
Qed.

(** The number of days until the full moon, by the position in the
    cycle. *)
Lemma daysUntilFullMoon_facts (fused : bool) (t : Time) :
  let cp := cyclePosition t in
  let n := daysUntilFullMoon fused t in
  0 <= n <= 29
  ∧ (7 * 2 ^ S <= 16 * val cp <= 9 * 2 ^ S → n <= 1 ∨ 27 <= n)
  ∧ (n = 0 → 7 * 2 ^ S < 16 * val cp < 9 * 2 ^ S).
Proof.
  intros cp n. pose proof (pow2_pos S ltac:(lia)) as HPS.
  destruct (cyclePosition_ok S HS t) as [Hcp Hr]. fold cp in Hcp, Hr.
  destruct (half_minus cp Hcp Hr) as (Ha & Har & Ha0 & Ha1 & Ha2 & Ha3 & Ha4).
  cbv zeta in Ha, Har, Ha0, Ha1, Ha2, Ha3, Ha4.
  set (a := f64.sub (f64.ratio 1 2) cp) in *.
  destruct (days_product a Ha Har) as (Hp & Hpr & Hp0 & Hp1 & Hp2 & Hp3 & Hp4).
  cbv zeta in Hp, Hpr, Hp0, Hp1, Hp2, Hp3, Hp4.
  pose proof (days_wrapped fused a Ha Har) as Hq. cbv zeta in Hq.
  destruct (of_Z_ok S HS 0) as [H0 V0]; [done|].
  assert (Hn : n = f64.toInt
                     (if f64.lt (f64.mul a synodicMonth) (f64.of_Z 0)
                      then if fused then f64.fma a synodicMonth synodicMonth
                           else f64.add (f64.mul a synodicMonth) synodicMonth
                      else f64.mul a synodicMonth)) by reflexivity.
  rewrite (lt_ok S HS) in Hn by done. rewrite V0 in Hn.
  destruct (Z.ltb_spec (val (f64.mul a synodicMonth)) (0 * 2 ^ S)) as [Hneg|Hpos].
  - destruct (Hq ltac:(lia)) as (Hfq & Hqr & Hq27).
    set (q := if fused then _ else _) in *.
    destruct (toInt_between S HS q 14 30 Hfq ltac:(lia) ltac:(lia)) as [Hlo Hhi].
    rewrite <- Hn in Hlo, Hhi.
    split_and!; [lia|lia| |lia].
    intros Hfull. right.
    destruct (toInt_between S HS q 27 30 Hfq ltac:(lia)) as [Hlo' _]; [|lia].
    split; [apply Hq27; lia|lia].
  - destruct (toInt_between S HS (f64.mul a synodicMonth) 0 16 Hp ltac:(lia) ltac:(lia))
      as [Hlo Hhi].
    rewrite <- Hn in Hlo, Hhi.
    split_and!; [lia|lia| |].
    + intros Hfull. left. specialize (Hp4 (Ha4 Hfull)).
      destruct (toInt_between S HS (f64.mul a synodicMonth) 0 2 Hp ltac:(lia) ltac:(lia))
        as [_ Hhi']. lia.
    + intros Hzero.
      destruct (toInt_floor S HS (f64.mul a synodicMonth) Hp ltac:(lia)) as [_ Hfl].
      rewrite <- Hn, Hzero in Hfl.
      split.
      * destruct (Z.lt_ge_cases (7 * 2 ^ S) (16 * val cp)) as [|Hc]; [done|].
        specialize (Hp2 (Ha2 ltac:(lia))). lia.
      * destruct (Z.lt_ge_cases (16 * val cp) (9 * 2 ^ S)) as [|Hc]; [done|].
        specialize (Hp3 (Ha3 ltac:(lia))). lia.
Qed.

End DaysUntilFull.
Section PhaseAndIllumination.

Variable S : Z.
Hypothesis HS : 2200 <= S.

Abbreviation val := (f64.value S).
Abbreviation FZ := f64.wellformed.

Import moon.

(** The illumination that [calculateMoonPhase] returns. *)
Lemma calculateMoonPhase_illumination (t : Time) :
  (calculateMoonPhase t).1.2
  = f64.mul (if f64.lt (cyclePosition t) (f64.ratio 1 2)
             then f64.mul (cyclePosition t) (f64.of_Z 2)
             else f64.mul (f64.sub (f64.of_Z 1) (cyclePosition t)) (f64.of_Z 2))
            (f64.of_Z 100).
Proof.
  unfold calculateMoonPhase. cbv zeta.
  repeat (destruct (f64.lt (cyclePosition t) (f64.ratio _ 16)); [reflexivity|]).
  reflexivity.
Qed.

(** The phase that [calculateMoonPhase] returns, by the sixteenth in which
    the position lies. *)
Lemma calculateMoonPhase_phase (t : Time) :
  let cp := val (cyclePosition t) in
  let phase := (calculateMoonPhase t).1.1 in
  (16 * cp < 2 ^ S ∧ phase = "New Moon")
  ∨ (2 ^ S <= 16 * cp < 3 * 2 ^ S ∧ phase = "Waxing Crescent")
  ∨ (3 * 2 ^ S <= 16 * cp < 5 * 2 ^ S ∧ phase = "First Quarter")
  ∨ (5 * 2 ^ S <= 16 * cp < 7 * 2 ^ S ∧ phase = "Waxing Gibbous")
  ∨ (7 * 2 ^ S <= 16 * cp < 9 * 2 ^ S ∧ phase = "Full Moon")
  ∨ (9 * 2 ^ S <= 16 * cp < 11 * 2 ^ S ∧ phase = "Waning Gibbous")
  ∨ (11 * 2 ^ S <= 16 * cp < 13 * 2 ^ S ∧ phase = "Last Quarter")
  ∨ (13 * 2 ^ S <= 16 * cp < 15 * 2 ^ S ∧ phase = "Waning Crescent")
  ∨ (15 * 2 ^ S <= 16 * cp ∧ phase = "New Moon").
Proof.
  intros cp phase. subst phase cp. unfold calculateMoonPhase. cbv zeta.
  destruct (cyclePosition_ok S HS t) as [Hcp Hr].
  set (cp := cyclePosition t) in *.
  float_const S HS (f64.ratio 1 16) H1. destruct H1 as [H1 V1].
  float_const S HS (f64.ratio 3 16) H3. destruct H3 as [H3 V3].
  float_const S HS (f64.ratio 5 16) H5. destruct H5 as [H5 V5].
  float_const S HS (f64.ratio 7 16) H7. destruct H7 as [H7 V7].
  float_const S HS (f64.ratio 9 16) H9. destruct H9 as [H9 V9].
  float_const S HS (f64.ratio 11 16) H11. destruct H11 as [H11 V11].
  float_const S HS (f64.ratio 13 16) H13. destruct H13 as [H13 V13].
  float_const S HS (f64.ratio 15 16) H15. destruct H15 as [H15 V15].
  rewrite !(lt_ok S HS) by done.
  destruct (Z.ltb_spec (val cp) (val (f64.ratio 1 16))); [left; split; [lia|done]|right].
  destruct (Z.ltb_spec (val cp) (val (f64.ratio 3 16))); [left; split; [lia|done]|right].
  destruct (Z.ltb_spec (val cp) (val (f64.ratio 5 16))); [left; split; [lia|done]|right].
  destruct (Z.ltb_spec (val cp) (val (f64.ratio 7 16))); [left; split; [lia|done]|right].
  destruct (Z.ltb_spec (val cp) (val (f64.ratio 9 16))); [left; split; [lia|done]|right].
  destruct (Z.ltb_spec (val cp) (val (f64.ratio 11 16))); [left; split; [lia|done]|right].
  destruct (Z.ltb_spec (val cp) (val (f64.ratio 13 16))); [left; split; [lia|done]|right].
  destruct (Z.ltb_spec (val cp) (val (f64.ratio 15 16))); [left; split; [lia|done]|right].
  split; [lia|done].
Qed.

(** The illumination, by the distance of the position from the new moon,
    in sixteenths of the cycle. *)
Lemma illumination_bucket (cp : float64) (A B : Z) :
  FZ cp → 0 <= val cp < 2 ^ S → 0 <= A <= B → B <= 8 →
  A * 2 ^ S <= 16 * val cp <= B * 2 ^ S
  ∨ A * 2 ^ S <= 16 * (2 ^ S - val cp) <= B * 2 ^ S →
  let illumination :=
    f64.mul (if f64.lt cp (f64.ratio 1 2) then f64.mul cp (f64.of_Z 2)
             else f64.mul (f64.sub (f64.of_Z 1) cp) (f64.of_Z 2)) (f64.of_Z 100) in
  FZ illumination ∧ 25 * A * 2 ^ S <= 2 * val illumination <= 25 * B * 2 ^ S.
Proof.
  intros Hcp Hr HAB HB Hbucket illumination. subst illumination.
  pose proof (pow2_pos S ltac:(lia)) as HPS.
  float_const S HS (f64.ratio 1 2) Hh. destruct Hh as [Hh Vh].
  destruct (of_Z_ok S HS 1) as [H1 V1]; [done|].
  destruct (of_Z_ok S HS 2) as [H2 V2]; [done|].
  destruct (of_Z_ok S HS 100) as [H100 V100]; [done|].
  assert (HP : ∀ k, 0 <= k <= 4 → 2 ^ (- (4 - k) + S) = 2 ^ k * 2 ^ (- 4 + S)).
  { intros k Hk. rewrite <- Z.pow_add_r by lia. f_equal. lia. }
  pose proof (HP 1 ltac:(lia)) as E3. pose proof (HP 3 ltac:(lia)) as E1.
  pose proof (HP 4 ltac:(lia)) as E0.
  change (- (4 - 1) + S) with (-3 + S) in E3. change (- (4 - 3) + S) with (-1 + S) in E1.
  change (- (4 - 4) + S) with (0 + S) in E0. rewrite Z.add_0_l in E0.
  change (2 ^ 1) with 2 in E3. change (2 ^ 3) with 8 in E1. change (2 ^ 4) with 16 in E0.
  pose proof (pow2_pos (-4 + S) ltac:(lia)) as HQ.
  destruct (representable_signed S HS A (-3)) as (lo8 & Hlo8 & Vlo8); [lia|lia|].
  destruct (representable_signed S HS B (-3)) as (hi8 & Hhi8 & Vhi8); [lia|lia|].
  destruct (representable_signed S HS A (-4)) as (lo16 & Hlo16 & Vlo16); [lia|lia|].
  destruct (representable_signed S HS B (-4)) as (hi16 & Hhi16 & Vhi16); [lia|lia|].
  destruct (representable_signed S HS (25 * A) (-1)) as (lo & Hlo & Vlo); [lia|lia|].
  destruct (representable_signed S HS (25 * B) (-1)) as (hi & Hhi & Vhi); [lia|lia|].
  rewrite E3 in Vlo8, Vhi8. rewrite E1 in Vlo, Vhi.
  rewrite E0 in *.
  set (Q := 2 ^ (-4 + S)) in *. clearbody Q.
  assert (HAQ : 0 <= A * Q) by (apply Z.mul_nonneg_nonneg; lia).
  assert (HABQ : A * Q <= B * Q) by (apply Z.mul_le_mono_nonneg_r; lia).
  assert (HBQ : B * Q <= 8 * Q) by (apply Z.mul_le_mono_nonneg_r; lia).
  assert (Hfin : ∀ i, FZ i → val lo8 <= val i <= val hi8 →
            FZ (f64.mul i (f64.of_Z 100))
            ∧ 25 * A * (16 * Q) <= 2 * val (f64.mul i (f64.of_Z 100)) <= 25 * B * (16 * Q)).
  { intros i Hi Hb.
    destruct (mul_const_ok S HS i (f64.of_Z 100) lo hi 100 1) as [Hfm Hvm];
      [done|done|done|done|lia|lia|lia|].
    split; [done|]. lia. }
  assert (Hdbl : ∀ i, FZ i → val lo16 <= val i <= val hi16 →
            FZ (f64.mul i (f64.of_Z 2))
            ∧ val lo8 <= val (f64.mul i (f64.of_Z 2)) <= val hi8).
  { intros i Hi Hb.
    apply (mul_const_ok S HS i (f64.of_Z 2) lo8 hi8 2 1); [done|done|done|done|lia|lia|lia]. }
  rewrite (lt_ok S HS) by done.
  destruct (Z.ltb_spec (val cp) (val (f64.ratio 1 2))) as [Hlt|Hge].
  - destruct (Hdbl cp Hcp) as [Hi Hv]; [lia|]. by apply Hfin.
  - destruct (sub_ok S HS (f64.of_Z 1) cp lo16 hi16) as [Hs Hvs]; [done|done|done|done|lia|].
    destruct (Hdbl _ Hs Hvs) as [Hi Hv]. by apply Hfin.
Qed.

End PhaseAndIllumination.
(** X21. [daysUntilFullMoon] returns a number of days from 0 to 29, for
    every instant, whether the product and the sum of its negative branch
    are fused or rounded one after the other. *)
Theorem daysUntilFullMoon_range (fused : bool) (t : moon.Time) :
  0 <= moon.daysUntilFullMoon fused t <= 29.
Proof.
  pose proof (daysUntilFullMoon_facts 2200 ltac:(lia) fused t) as H. cbv zeta in H.
  apply H.
Qed.

(** X22. The two functions that [getMoonPhase] combines agree about the
    full moon.  When [daysUntilFullMoon] returns 0, the phase that
    [calculateMoonPhase] returns for the same instant is [Full Moon]; and
    when the phase is [Full Moon], the number of days is 0 or 1 (the full
    moon is ahead) or from 27 to 29 (it has just passed). *)
Theorem full_moon_and_days_until (fused : bool) (t : moon.Time) :
  let phase := (moon.calculateMoonPhase t).1.1 in
  let days := moon.daysUntilFullMoon fused t in
  (days = 0 → phase = "Full Moon")
  ∧ (phase = "Full Moon" → 0 <= days <= 1 ∨ 27 <= days <= 29).
Proof.
  intros phase days.
  assert (HS : 2200 <= 2200) by lia.
  pose proof (daysUntilFullMoon_facts 2200 HS fused t) as (Hrange & Hfull & Hzero).
  pose proof (calculateMoonPhase_phase 2200 HS t) as Hphase.
  cbv zeta in Hrange, Hfull, Hzero, Hphase. fold phase in Hphase. fold days in Hrange, Hfull, Hzero.
  set (cp := f64.value 2200 (moon.cyclePosition t)) in *.
  set (P := 2 ^ 2200) in *. clearbody P cp. clearbody phase days.
  split.
  - intros Hd. specialize (Hzero Hd).
    destruct Hphase as [[? ?]|[[? ?]|[[? ?]|[[? ?]|[[? ?]|[[? ?]|[[? ?]|[[? ?]|[? ?]]]]]]]]];
      try lia. done.
  - intros Hp.
    destruct Hphase as [[? E]|[[? E]|[[? E]|[[? E]|[[? E]|[[? E]|[[? E]|[[? E]|[? E]]]]]]]]];
      rewrite E in Hp; try discriminate Hp.
    destruct Hfull; lia.
Qed.

(** X23. Phase name and illumination agree.  For every instant, the
    illumination that [calculateMoonPhase] returns is at most 12.5 for
    [New Moon], from 12.5 to 37.5 for the two crescents, from 37.5 to 62.5
    for the two quarters, from 62.5 to 87.5 for the two gibbous phases and
    at least 87.5 for [Full Moon], under the comparison of [float64]. *)
Theorem phase_matches_illumination (t : moon.Time) :
  let phase := (moon.calculateMoonPhase t).1.1 in
  let illumination := (moon.calculateMoonPhase t).1.2 in
  let between lo hi :=
    f64.le (f64.ratio lo 2) illumination = true
    ∧ f64.le illumination (f64.ratio hi 2) = true in
  (phase = "New Moon" → between 0 25)
  ∧ (phase = "Waxing Crescent" ∨ phase = "Waning Crescent" → between 25 75)
  ∧ (phase = "First Quarter" ∨ phase = "Last Quarter" → between 75 125)
  ∧ (phase = "Waxing Gibbous" ∨ phase = "Waning Gibbous" → between 125 175)
  ∧ (phase = "Full Moon" → between 175 200).
Proof.
  intros phase illumination between.
  assert (HS : 2200 <= 2200) by lia.
  pose proof (calculateMoonPhase_phase 2200 HS t) as Hphase.
  cbv zeta in Hphase. fold phase in Hphase.
  destruct (cyclePosition_ok 2200 HS t) as [Hcp Hr].
  pose proof (illumination_bucket 2200 HS (moon.cyclePosition t)) as Hb.
  cbv zeta in Hb. rewrite <- calculateMoonPhase_illumination in Hb. fold illumination in Hb.
  pose proof (pow2_pos 2200 ltac:(lia)) as HPS.
  float_const 2200 HS (f64.ratio 25 2) H25. destruct H25 as [H25 V25].
  float_const 2200 HS (f64.ratio 75 2) H75. destruct H75 as [H75 V75].
  float_const 2200 HS (f64.ratio 125 2) H125. destruct H125 as [H125 V125].
  float_const 2200 HS (f64.ratio 175 2) H175. destruct H175 as [H175 V175].
  float_const 2200 HS (f64.ratio 200 2) H200. destruct H200 as [H200 V200].
  assert (H0 : f64.wellformed (f64.ratio 0 2) ∧ f64.value 2200 (f64.ratio 0 2) = 0)
    by (split; vm_compute; reflexivity).
  destruct H0 as [H0 V0].
  assert (Hle : ∀ A B lo hi,
            0 <= A <= B → B <= 8 →
            A * 2 ^ 2200 <= 16 * f64.value 2200 (moon.cyclePosition t) <= B * 2 ^ 2200
            ∨ A * 2 ^ 2200 <= 16 * (2 ^ 2200 - f64.value 2200 (moon.cyclePosition t))
              <= B * 2 ^ 2200 →
            f64.wellformed (f64.ratio lo 2) → f64.wellformed (f64.ratio hi 2) →
            2 * f64.value 2200 (f64.ratio lo 2) <= 25 * A * 2 ^ 2200 →
            25 * B * 2 ^ 2200 <= 2 * f64.value 2200 (f64.ratio hi 2) →
            between lo hi).
  { intros A B lo hi HAB HB8 Hbucket Hlo Hhi Vlo Vhi.
    destruct (Hb A B Hcp Hr HAB HB8 Hbucket) as [Hi Hv].
    subst between. cbv beta. rewrite !(le_ok 2200 HS) by done.
    split; apply Z.leb_le; lia. }
  set (cp := f64.value 2200 (moon.cyclePosition t)) in *.
  set (P := 2 ^ 2200) in *.
  clearbody phase.
  destruct Hphase as [[? E]|[[? E]|[[? E]|[[? E]|[[? E]|[[? E]|[[? E]|[[? E]|[? E]]]]]]]]];
    rewrite E; (split_and!; intros Hp; try discriminate Hp;
                try (destruct Hp as [Hp|Hp]; discriminate Hp)).
  - apply (Hle 0 1); [lia|lia|left; lia|done|done|lia|lia].
  - apply (Hle 1 3); [lia|lia|left; lia|done|done|lia|lia].
  - apply (Hle 3 5); [lia|lia|left; lia|done|done|lia|lia].
  - apply (Hle 5 7); [lia|lia|left; lia|done|done|lia|lia].
  - apply (Hle 7 8); [lia|lia| |done|done|lia|lia].
    destruct (Z.le_gt_cases (16 * cp) (8 * P)); [left|right]; lia.
  - apply (Hle 5 7); [lia|lia|right; lia|done|done|lia|lia].
  - apply (Hle 3 5); [lia|lia|right; lia|done|done|lia|lia].
  - apply (Hle 1 3); [lia|lia|right; lia|done|done|lia|lia].
  - apply (Hle 0 1); [lia|lia|right; lia|done|done|lia|lia].
Qed.

(** ** moon-phase-server: the tools *)

(** What [calculateMoonPhase] returns is one of the eight phases with its
    emoji, and an illumination from 0 to 100. *)
Lemma calculateMoonPhase_ok (t : moon.Time) :
  ((moon.calculateMoonPhase t).1.1, (moon.calculateMoonPhase t).2) ∈ moon.phases
  ∧ f64.le (f64.of_Z 0) (moon.calculateMoonPhase t).1.2 = true
  ∧ f64.le (moon.calculateMoonPhase t).1.2 (f64.of_Z 100) = true.
Proof.
  assert (HS : 2200 <= 2200) by lia.
  split.
  - unfold moon.calculateMoonPhase, moon.phases. cbv zeta.
    repeat (destruct (f64.lt (moon.cyclePosition t) (f64.ratio _ 16));
            [cbn [fst snd]; repeat first [apply list_elem_of_here | apply list_elem_of_further]|]).
    cbn [fst snd]. apply list_elem_of_here.
  - rewrite calculateMoonPhase_illumination.
    destruct (cyclePosition_ok 2200 HS t) as [Hcp Hr].
    destruct (illumination_range 2200 HS _ Hcp Hr) as [Hi Hv].
    destruct (of_Z_ok 2200 HS 0) as [H0 V0]; [done|].
    destruct (of_Z_ok 2200 HS 100) as [H100 V100]; [done|].
    rewrite !(le_ok 2200 HS) by done. rewrite V0, V100.
    split; apply Z.leb_le; lia.
Qed.

(** [getMoonPhase] once the instant is known. *)
Lemma getMoonPhase_at (fused : bool) (t : time.Time) (offset : Z) :
  (let '(phase, illumination, emoji) := moon.calculateMoonPhase t in
   let daysToFull := moon.daysUntilFullMoon fused t in
   Return {| moon_tools.MoonPhaseOutput.Date := time.Format offset t;
             moon_tools.MoonPhaseOutput.Phase := phase;
             moon_tools.MoonPhaseOutput.Illumination := illumination;
             moon_tools.MoonPhaseOutput.DaysUntilFull := daysToFull;
             moon_tools.MoonPhaseOutput.Emoji := emoji |} None)
  = Return {| moon_tools.MoonPhaseOutput.Date := time.Format offset t;
              moon_tools.MoonPhaseOutput.Phase := (moon.calculateMoonPhase t).1.1;
              moon_tools.MoonPhaseOutput.Illumination := (moon.calculateMoonPhase t).1.2;
              moon_tools.MoonPhaseOutput.DaysUntilFull := moon.daysUntilFullMoon fused t;
              moon_tools.MoonPhaseOutput.Emoji := (moon.calculateMoonPhase t).2 |} None.
Proof. by destruct (moon.calculateMoonPhase t) as [[phase illumination] emoji]. Qed.

(** X24. [getMoonPhase] on every input.  It fails only for a date that is
    not empty and that [time.Parse] refuses; the error then wraps the
    parse error and the output is the zero value.  Otherwise the output
    names one of the eight phases with its emoji, an illumination from 0
    to 100 and a number of days from 0 to 29; and when a date was given,
    the output repeats it character for character. *)
Theorem getMoonPhase_outcomes (fused : bool) (now : time.Time) (local : Z)
    (errorText : string → string) (input : moon_tools.GetMoonPhaseInput) :
  let date := moon_tools.Date input in
  ∃ out err,
    moon_tools.getMoonPhase fused now local errorText input = Return out err
    ∧ (err = None →
       (date ≠ "" → moon_tools.MoonPhaseOutput.Date out = date)
       ∧ (moon_tools.MoonPhaseOutput.Phase out, moon_tools.MoonPhaseOutput.Emoji out)
         ∈ moon.phases
       ∧ f64.le (f64.of_Z 0) (moon_tools.MoonPhaseOutput.Illumination out) = true
       ∧ f64.le (moon_tools.MoonPhaseOutput.Illumination out) (f64.of_Z 100) = true
       ∧ 0 <= moon_tools.MoonPhaseOutput.DaysUntilFull out <= 29)
    ∧ (err ≠ None →
       out = moon_tools.zeroMoonPhaseOutput
       ∧ date ≠ ""
       ∧ ∃ e, time.Parse errorText date = inr e
              ∧ err = Some ("invalid date format, use YYYY-MM-DD: " +:+ e)).
Proof.
  intros date. unfold moon_tools.getMoonPhase. fold date.
  assert (Hok : ∀ t offset, (date ≠ "" → time.Format offset t = date) →
    ∃ out err,
      (let '(phase, illumination, emoji) := moon.calculateMoonPhase t in
       let daysToFull := moon.daysUntilFullMoon fused t in
       Return {| moon_tools.MoonPhaseOutput.Date := time.Format offset t;
                 moon_tools.MoonPhaseOutput.Phase := phase;
                 moon_tools.MoonPhaseOutput.Illumination := illumination;
                 moon_tools.MoonPhaseOutput.DaysUntilFull := daysToFull;
                 moon_tools.MoonPhaseOutput.Emoji := emoji |} None) = Return out err
      ∧ (err = None →
         (date ≠ "" → moon_tools.MoonPhaseOutput.Date out = date)
         ∧ (moon_tools.MoonPhaseOutput.Phase out, moon_tools.MoonPhaseOutput.Emoji out)
           ∈ moon.phases
         ∧ f64.le (f64.of_Z 0) (moon_tools.MoonPhaseOutput.Illumination out) = true
         ∧ f64.le (moon_tools.MoonPhaseOutput.Illumination out) (f64.of_Z 100) = true
         ∧ 0 <= moon_tools.MoonPhaseOutput.DaysUntilFull out <= 29)
      ∧ (err ≠ None →
         out = moon_tools.zeroMoonPhaseOutput
         ∧ date ≠ ""
         ∧ ∃ e, time.Parse errorText date = inr e
                ∧ err = Some ("invalid date format, use YYYY-MM-DD: " +:+ e))).
  { intros t offset Hdate. rewrite getMoonPhase_at. do 2 eexists. split; [reflexivity|].
    split; [|done]. intros _.
    destruct (calculateMoonPhase_ok t) as (Hin & Hlo & Hhi).
    pose proof (daysUntilFullMoon_facts 2200 ltac:(lia) fused t) as (Hdays & _).
    cbn [moon_tools.MoonPhaseOutput.Date moon_tools.MoonPhaseOutput.Phase
         moon_tools.MoonPhaseOutput.Emoji moon_tools.MoonPhaseOutput.Illumination
         moon_tools.MoonPhaseOutput.DaysUntilFull].
    split_and!; [done|done|done|done|lia|lia]. }
  destruct (bool_decide_reflect (date = "")) as [He|Hne].
  - apply Hok. done.
  - destruct (time.Parse errorText date) as [t|e] eqn:Hp.
    + apply Hok. intros _. by eapply Format_Parse.
    + do 2 eexists. split; [reflexivity|]. split; [done|]. intros _.
      split_and!; [done|done|]. by exists e.
Qed.

(** X25. Dates far from the reference all look alike.  The duration from
    the reference new moon saturates at about 292 years, so for every
    date that parses and lies on or before September 27, 1707, or on or
    after April 17, 2292, [getMoonPhase] returns the same phase, [New
    Moon], and the same illumination; the number of days until the full
    moon is 13 for the early dates and 15 for the late ones. *)
Theorem far_dates_saturate (fused : bool) (now : time.Time) (local : Z)
    (errorText : string → string) (value : string) (t : time.Time) :
  time.Parse errorText value = inl t →
  t <= time.Date 1707 9 27 0 0 0 0 ∨ time.Date 2292 4 17 0 0 0 0 <= t →
  ∃ out,
    moon_tools.getMoonPhase fused now local errorText (moon_tools.mkGetMoonPhaseInput value)
    = Return out None
    ∧ moon_tools.MoonPhaseOutput.Date out = value
    ∧ moon_tools.MoonPhaseOutput.Phase out = "New Moon"
    ∧ moon_tools.MoonPhaseOutput.Illumination out = S754_finite false 8287760143974400 (-50)
    ∧ moon_tools.MoonPhaseOutput.DaysUntilFull out
      = (if bool_decide (t <= time.Date 1707 9 27 0 0 0 0) then 13 else 15).
Proof.
  intros Hp Hfar.
  assert (Hvalue : value ≠ "").
  { intros ->. vm_compute in Hp. discriminate Hp. }
  unfold moon_tools.getMoonPhase. cbn [moon_tools.Date].
  rewrite bool_decide_eq_false_2 by done. rewrite Hp, getMoonPhase_at.
  eexists. split; [reflexivity|].
  cbn [moon_tools.MoonPhaseOutput.Date moon_tools.MoonPhaseOutput.Phase
       moon_tools.MoonPhaseOutput.Illumination moon_tools.MoonPhaseOutput.DaysUntilFull].
  split; [by eapply Format_Parse|].
  assert (E1 : time.Date 1707 9 27 0 0 0 0 = -8276256000000000000) by (vm_compute; reflexivity).
  assert (E2 : time.Date 2292 4 17 0 0 0 0 = 10170576000000000000) by (vm_compute; reflexivity).
  rewrite E1, E2 in *.
  assert (Hsub : moon.Sub t moon.knownNewMoon
                 = if bool_decide (t <= -8276256000000000000)
                   then moon.minDuration else moon.maxDuration).
  { unfold moon.Sub, moon.minDuration, moon.maxDuration, moon.knownNewMoon.
    change (2 ^ 63) with 9223372036854775808.
    case_bool_decide; lia. }
  assert (Hcp : moon.cyclePosition t
                = if bool_decide (t <= -8276256000000000000)
                  then S754_finite false 5304166492143616 (-57)
                  else S754_finite false 8675688848982016 (-53)).
  { unfold moon.cyclePosition. rewrite Hsub. case_bool_decide; vm_compute; reflexivity. }
  unfold moon.calculateMoonPhase, moon.daysUntilFullMoon. rewrite Hcp.
  case_bool_decide; destruct fused; vm_compute; done.
Qed.

Lemma far_dates_saturate_witness :
  ∃ out,
    moon_tools.getMoonPhase false 0 0 (λ s, s) (moon_tools.mkGetMoonPhaseInput "0001-01-01")
    = Return out None
    ∧ moon_tools.MoonPhaseOutput.Date out = "0001-01-01"
    ∧ moon_tools.MoonPhaseOutput.Phase out = "New Moon"
    ∧ moon_tools.MoonPhaseOutput.DaysUntilFull out = 13.
Proof.
  destruct (far_dates_saturate false 0 0 (λ s, s) "0001-01-01" (time.Date 1 1 1 0 0 0 0))
    as (out & Hr & Hd & Hph & _ & Hdays); [vm_compute; reflexivity|left; vm_compute; discriminate|].
  exists out. split_and!; [exact Hr|exact Hd|exact Hph|]. rewrite Hdays. reflexivity.
Defined.
Section CalendarLoop.

Import moon_tools.

(** The loop of [getMoonCalendar] visits the days from [start] up to the
    end, one turn each, when it is given a turn more than there are
    days. *)
Lemma calendarLoop_run (fuel : nat) (start : time.Time) (n k : nat) (f : found) :
  (k ≤ n)%nat → (n - k < fuel)%nat →
  calendarLoop fuel (start + Z.of_nat k * time.Day) (start + Z.of_nat n * time.Day) f
  = Some (foldl (λ f j, calendarDay (start + Z.of_nat j * time.Day) f) f (seq k (n - k))).
Proof.
  assert (HD : time.Day = 86400000000000) by reflexivity.
  revert k f. induction fuel as [|fuel IH]; intros k f Hk Hfuel; [lia|].
  cbn [calendarLoop]. unfold time.Before.
  destruct (Z.ltb_spec (start + Z.of_nat k * time.Day) (start + Z.of_nat n * time.Day))
    as [Hlt|Hge].
  - assert (k < n)%nat by (rewrite HD in Hlt; lia).
    rewrite AddDate_days.
    replace (start + Z.of_nat k * time.Day + 1 * time.Day)
      with (start + Z.of_nat (Datatypes.S k) * time.Day) by lia.
    rewrite IH by lia.
    replace (n - k)%nat with (Datatypes.S (n - Datatypes.S k)) by lia.
    reflexivity.
  - assert (k = n) by (rewrite HD in Hge; lia). subst k.
    by rewrite Nat.sub_diag.
Qed.

(** A field that is set once, at the first index that hits. *)
Lemma first_hit {A : Type} (step : nat → A → A) (proj : A → string)
    (hit : nat → Prop) (text : nat → string) :
  (∀ j a, hit j → proj a = "" → proj (step j a) = text j) →
  (∀ j a, ¬ (hit j ∧ proj a = "") → proj (step j a) = proj a) →
  (∀ j, text j ≠ "") →
  (∀ j, hit j ∨ ¬ hit j) →
  ∀ len a, proj a = "" →
    let r := proj (foldl (λ a j, step j a) a (seq 0 len)) in
    (r = "" ∧ ∀ j, (j < len)%nat → ¬ hit j)
    ∨ (∃ j, (j < len)%nat ∧ hit j ∧ (∀ i, (i < j)%nat → ¬ hit i) ∧ r = text j).
Proof.
  intros Hset Hkeep Htext Hdec len a Ha. induction len as [|len IH]; intros r.
  - left. split; [done|]. intros j Hj. lia.
  - subst r. rewrite seq_S, foldl_app. cbn [foldl Nat.add].
    set (b := foldl _ a (seq 0 len)) in *. cbv zeta in IH.
    destruct IH as [[Hempty Hnone]|(j & Hj & Hhit & Hfirst & Hr)].
    + destruct (Hdec len) as [Hh|Hn].
      * right. exists len. split_and!; [lia|done|done|by apply Hset].
      * left. rewrite Hkeep by (by intros [? _]). split; [done|].
        intros j Hj. destruct (decide (j = len)) as [->|]; [done|]. apply Hnone. lia.
    + right. exists j. split_and!; [lia|done|done|].
      rewrite Hkeep; [done|]. intros [_ Hb]. rewrite Hr in Hb. by apply (Htext j).
Qed.

End CalendarLoop.
Section CalendarFields.

Import moon_tools.

Implicit Types (d : time.Time) (f : found).

(** How one turn of the loop treats each of the four fields: it sets the
    field to the date of the day when the phase of the day is the one of
    the field, differs from the phase of the day before, and the field is
    still empty; otherwise it leaves the field as it is. *)
Lemma calendarDay_sets (name : string) (proj : found → string) d f :
  (name, proj) ∈ [("New Moon", newMoon); ("First Quarter", firstQtr);
                  ("Full Moon", fullMoon); ("Last Quarter", lastQtr)] →
  let phase := (moon.calculateMoonPhase d).1.1 in
  let prevPhase := (moon.calculateMoonPhase (d + -1 * time.Day)).1.1 in
  (phase = name ∧ prevPhase ≠ name → proj f = "" → proj (calendarDay d f) = time.Format 0 d)
  ∧ (¬ ((phase = name ∧ prevPhase ≠ name) ∧ proj f = "") → proj (calendarDay d f) = proj f).
Proof.
  intros Hin phase prevPhase.
  assert (Hday : calendarDay d f
    = if bool_decide (phase ≠ prevPhase) then
        if bool_decide (phase = "New Moon") then
          if bool_decide (newMoon f = "")
          then mkFound (time.Format 0 d) (firstQtr f) (fullMoon f) (lastQtr f) else f
        else if bool_decide (phase = "First Quarter") then
          if bool_decide (firstQtr f = "")
          then mkFound (newMoon f) (time.Format 0 d) (fullMoon f) (lastQtr f) else f
        else if bool_decide (phase = "Full Moon") then
          if bool_decide (fullMoon f = "")
          then mkFound (newMoon f) (firstQtr f) (time.Format 0 d) (lastQtr f) else f
        else if bool_decide (phase = "Last Quarter") then
          if bool_decide (lastQtr f = "")
          then mkFound (newMoon f) (firstQtr f) (fullMoon f) (time.Format 0 d) else f
        else f
      else f).
  { unfold calendarDay. cbv zeta. rewrite AddDate_days. reflexivity. }
  rewrite Hday. clear Hday. clearbody phase prevPhase.
  repeat (apply elem_of_cons in Hin as [[= -> ->]|Hin]); [..|by apply elem_of_nil in Hin];
    (split; [intros [-> Hprev] Hempty|intros Hnot]);
    repeat case_bool_decide; simplify_eq; cbn; try done;
    try (exfalso; apply Hnot; split; [split|]; congruence).
Qed.

End CalendarFields.
(** X26. The range checks of [getMoonCalendar].  A month outside 1 to 12
    is refused with [month must be between 1 and 12], whatever the year
    is; with a month in range, a year outside 1900 to 2100 is refused with
    [year must be between 1900 and 2100].  Both errors come with the zero
    output, before the loop is entered, and these are the only errors the
    handler returns; it never panics. *)
Theorem calendar_range_checks (fuel : nat) (input : moon_tools.GetMoonCalendarInput) :
  let month := moon_tools.Month input in
  let year := moon_tools.Year input in
  let result := moon_tools.getMoonCalendar fuel input in
  (month < 1 ∨ 12 < month →
   result = Some (Return moon_tools.zeroMoonCalendarOutput
                         (Some "month must be between 1 and 12")))
  ∧ (1 <= month <= 12 → year < 1900 ∨ 2100 < year →
     result = Some (Return moon_tools.zeroMoonCalendarOutput
                           (Some "year must be between 1900 and 2100")))
  ∧ (∀ out msg, result = Some (Return out (Some msg)) →
       out = moon_tools.zeroMoonCalendarOutput
       ∧ (msg = "month must be between 1 and 12" ∧ (month < 1 ∨ 12 < month)
          ∨ msg = "year must be between 1900 and 2100" ∧ (year < 1900 ∨ 2100 < year)))
  ∧ (∀ msg, result ≠ Some (Panic msg)).
Proof.
  intros month year result. subst result. unfold moon_tools.getMoonCalendar.
  fold month year.
  destruct (Z.ltb_spec month 1), (Z.gtb_spec month 12); cbn [orb];
    try (split_and!; [done|lia|intros out msg [= <- <-]; split; [done|left; split; [done|lia]]
                     |done]).
  destruct (Z.ltb_spec year 1900), (Z.gtb_spec year 2100); cbn [orb];
    try (split_and!; [lia|done|intros out msg [= <- <-]; split; [done|right; split; [done|lia]]
                     |done]).
  destruct (moon_tools.calendarLoop _ _ _ _); split_and!; (lia || done).
Qed.

(** X27. The dates of [getMoonCalendar].  For a month from 1 to 12 and a
    year from 1900 to 2100, the loop ends within 32 turns and the handler
    returns without error, repeating month and year.  Each of the four
    dates is that of the first day of the month, taken at midnight UTC, on
    which the phase is the one of the field and differs from the phase 24
    hours earlier, written as year, month and day with zero padding; it
    is empty when the month has no such day. *)
Theorem calendar_dates (fuel : nat) (input : moon_tools.GetMoonCalendarInput) :
  (32 ≤ fuel)%nat →
  1 <= moon_tools.Month input <= 12 →
  1900 <= moon_tools.Year input <= 2100 →
  let month := moon_tools.Month input in
  let year := moon_tools.Year input in
  let phaseOn (day : Z) :=
    (moon.calculateMoonPhase (time.Date year month day 0 0 0 0)).1.1 in
  let first (name date : string) :=
    (date = ""
     ∧ ∀ day, 1 <= day <= time.daysIn month year →
              ¬ (phaseOn day = name ∧ phaseOn (day - 1) ≠ name))
    ∨ (∃ day, 1 <= day <= time.daysIn month year
              ∧ phaseOn day = name ∧ phaseOn (day - 1) ≠ name
              ∧ (∀ earlier, 1 <= earlier < day →
                            ¬ (phaseOn earlier = name ∧ phaseOn (earlier - 1) ≠ name))
              ∧ date = time.appendInt year 4 +:+ "-" +:+ time.appendInt month 2
                       +:+ "-" +:+ time.appendInt day 2) in
  ∃ out,
    moon_tools.getMoonCalendar fuel input = Some (Return out None)
    ∧ moon_tools.MoonCalendarOutput.Month out = month
    ∧ moon_tools.MoonCalendarOutput.Year out = year
    ∧ first "New Moon" (moon_tools.MoonCalendarOutput.NewMoon out)
    ∧ first "First Quarter" (moon_tools.MoonCalendarOutput.FirstQtr out)
    ∧ first "Full Moon" (moon_tools.MoonCalendarOutput.FullMoon out)
    ∧ first "Last Quarter" (moon_tools.MoonCalendarOutput.LastQtr out).
Proof.
  intros Hfuel Hm Hy month year phaseOn first.
  assert (HD : time.Day = 86400000000000) by reflexivity.
  pose proof (daysIn_bounds month year) as Hn.
  set (start := time.Date year month 1 0 0 0 0).
  set (n := Z.to_nat (time.daysIn month year)).
  assert (Hday : ∀ day, time.Date year month day 0 0 0 0 = start + (day - 1) * time.Day).
  { intros day. subst start. rewrite !Date_midnight by done.
    rewrite (daysFromCivil_day year month day). lia. }
  unfold moon_tools.getMoonCalendar. fold month year.
  destruct (Z.ltb_spec month 1); [lia|]. destruct (Z.gtb_spec month 12); [lia|].
  destruct (Z.ltb_spec year 1900); [lia|]. destruct (Z.gtb_spec year 2100); [lia|].
  cbn [orb]. fold start. unfold start at 2. rewrite next_month by done. fold start.
  pose proof (calendarLoop_run fuel start n 0 (moon_tools.mkFound "" "" "" "")) as Hloop.
  rewrite Nat.sub_0_r in Hloop.
  replace (start + Z.of_nat 0 * time.Day) with start in Hloop by lia.
  replace (Z.of_nat n) with (time.daysIn month year) in Hloop by lia.
  rewrite Hloop by lia. clear Hloop.
  set (step := λ (j : nat) (f : moon_tools.found),
                 moon_tools.calendarDay (start + Z.of_nat j * time.Day) f).
  change (foldl _ _ (seq 0 n))
    with (foldl (λ f j, step j f) (moon_tools.mkFound "" "" "" "") (seq 0 n)).
  eexists. split; [reflexivity|].
  cbn [moon_tools.MoonCalendarOutput.Month moon_tools.MoonCalendarOutput.Year
       moon_tools.MoonCalendarOutput.NewMoon moon_tools.MoonCalendarOutput.FirstQtr
       moon_tools.MoonCalendarOutput.FullMoon moon_tools.MoonCalendarOutput.LastQtr].
  split; [done|]. split; [done|].
  assert (Hfield : ∀ name proj,
            (name, proj) ∈ [("New Moon", moon_tools.newMoon);
                            ("First Quarter", moon_tools.firstQtr);
                            ("Full Moon", moon_tools.fullMoon);
                            ("Last Quarter", moon_tools.lastQtr)] →
            proj (moon_tools.mkFound "" "" "" "") = "" →
            first name (proj (foldl (λ f j, step j f) (moon_tools.mkFound "" "" "" "")
                                    (seq 0 n)))).
  { intros name proj Hin Hempty.
    assert (Hphase : ∀ j : nat, 
              (moon.calculateMoonPhase (start + Z.of_nat j * time.Day)).1.1
              = phaseOn (Z.of_nat j + 1)
              ∧ (moon.calculateMoonPhase (start + Z.of_nat j * time.Day + -1 * time.Day)).1.1
                = phaseOn (Z.of_nat j + 1 - 1)).
    { intros j. subst phaseOn. cbv beta. rewrite !Hday. split; do 3 f_equal; lia. }
    destruct (first_hit step proj
                (λ j, phaseOn (Z.of_nat j + 1) = name ∧ phaseOn (Z.of_nat j + 1 - 1) ≠ name)
                (λ j, time.Format 0 (start + Z.of_nat j * time.Day)))
      with (len := n) (a := moon_tools.mkFound "" "" "" "")
      as [[Hr Hnone]|(j & Hj & Hhit & Hfirst & Hr)].
    - intros j a Hhit Ha. subst step. cbv beta.
      destruct (calendarDay_sets name proj (start + Z.of_nat j * time.Day) a Hin) as [Hset _].
      destruct (Hphase j) as [E1 E2]. apply Hset; [|done]. by rewrite E1, E2.
    - intros j a Hnot. subst step. cbv beta.
      destruct (calendarDay_sets name proj (start + Z.of_nat j * time.Day) a Hin) as [_ Hkeep].
      destruct (Hphase j) as [E1 E2]. apply Hkeep. by rewrite E1, E2.
    - intros j. apply Format_nonempty.
    - intros j. destruct (decide (phaseOn (Z.of_nat j + 1) = name)) as [Hp|Hp];
        [destruct (decide (phaseOn (Z.of_nat j + 1 - 1) = name)) as [Hq|Hq]|].
      + right. by intros [_ ?].
      + by left.
      + right. by intros [? _].
    - done.
    - left. split; [done|]. intros day Hd Hhit.
      apply (Hnone (Z.to_nat (day - 1))); [lia|].
      by replace (Z.of_nat (Z.to_nat (day - 1)) + 1) with day by lia.
    - right. exists (Z.of_nat j + 1). split_and!; [lia|lia|apply Hhit|apply Hhit| |].
      + intros earlier He Hh. apply (Hfirst (Z.to_nat (earlier - 1))); [lia|].
        by replace (Z.of_nat (Z.to_nat (earlier - 1)) + 1) with earlier by lia.
      + rewrite Hr. rewrite <- (Format_midnight year month (Z.of_nat j + 1)) by lia.
        f_equal. rewrite Hday. lia. }
  split_and!.
  - apply (Hfield "New Moon" moon_tools.newMoon); [|reflexivity].
    apply list_elem_of_here.
  - apply (Hfield "First Quarter" moon_tools.firstQtr); [|reflexivity].
    apply list_elem_of_further, list_elem_of_here.
  - apply (Hfield "Full Moon" moon_tools.fullMoon); [|reflexivity].
    do 2 apply list_elem_of_further. apply list_elem_of_here.
  - apply (Hfield "Last Quarter" moon_tools.lastQtr); [|reflexivity].
    do 3 apply list_elem_of_further. apply list_elem_of_here.
Qed.

Lemma calendar_dates_witness :
  ∃ out,
    moon_tools.getMoonCalendar 32 (moon_tools.mkGetMoonCalendarInput 2 2018)
    = Some (Return out None)
    ∧ moon_tools.MoonCalendarOutput.Month out = 2
    ∧ moon_tools.MoonCalendarOutput.Year out = 2018.
Proof.
  destruct (calendar_dates 32 (moon_tools.mkGetMoonCalendarInput 2 2018))
    as (out & Hr & Hmonth & Hyear & _); [lia|cbn; lia|cbn; lia|].
  exists out. split_and!; [exact Hr|exact Hmonth|exact Hyear].
Defined.
